(** * World of Bits (D3): the windowed, deterministic grid engine

    A shallow embedding of [src/main.ts] of the repository, in the revisions
    kept under [src/]:

    - the persistent revision (second document of [src/unnamed/part_001],
      lines 827-1884): sparse [tokenStore], viewport window, movement
      controllers, versioned [localStorage] snapshot; modelled at top level;
    - the first playable revision ([src/src/main.ts]): plain [overrides] map,
      fixed player, merge into the cell; modelled in [Module MainTs].

    The remaining documents are drafts between these two (player-centred
    window, in-memory memento) or before them (map and marker only) and are
    not modelled.

    Conventions.  JavaScript numbers that hold cell indices and token values
    are integers and are modelled as [Z]; latitudes, longitudes and the value
    returned by [luck] are modelled as exact rationals [Q] (rounding of
    IEEE doubles is not modelled).  A [Map<string, _>] is a [gmap string _],
    a [Set<string>] a [gset string]; iteration order of a map or set is the
    canonical order of [map_to_list] / [elements].  Calls into Leaflet and
    [alert] are recorded in traces carried by the state. *)

From Stdlib Require Import Ascii QArith Qround Qminmax.
From stdpp Require Import base numbers strings pretty list gmap fin_maps fin_sets.

Set Warnings "-register-all,-clear-no-such-hyp".
Close Scope Q_scope.
Open Scope Z_scope.

(** ** Config & constants *)

Record LatLng := mkLatLng { lat : Q; lng : Q }.

Definition CLASSROOM : LatLng :=
  {| lat := 3699785920944698 # 100000000000000;
     lng := (-12205683743811225) # 100000000000000 |}.

(** [CELL_DEG = 0.000125] *)
Definition CELL_DEG : Q := 125 # 1000000.

(** The constants [INTERACT_RANGE], [TARGET], [MERGE_RESULT_IN_HAND],
    [MEMORYLESS] and [VIEW_RADIUS] are fixed at the top of the file; the code
    keeps both branches of every test on them, so they are gathered in a
    record and [sourceConfig] holds the values of the source. *)
Record Config := mkConfig {
  INTERACT_RANGE : Z;
  TARGET : Z;
  MERGE_RESULT_IN_HAND : bool;
  MEMORYLESS : bool;
  VIEW_RADIUS : Z
}.

Definition sourceConfig : Config :=
  {| INTERACT_RANGE := 3;
     TARGET := 64;
     MERGE_RESULT_IN_HAND := true;
     MEMORYLESS := true;
     VIEW_RADIUS := 3 + 5 |}.

(** ** Cell identity & keys *)

Record GridCell := mkCell { row : Z; col : Z }.

Abbreviation CellKey := string (only parsing).

(** [`${row}:${col}`] *)
Definition cellKeyFromRC (r c : Z) : CellKey :=
  pretty r +:+ ":" +:+ pretty c.

Definition keyOf (r c : Z) : CellKey := cellKeyFromRC r c.

(** ** Grid helpers *)

Definition Qltb (x y : Q) : bool := negb (Qle_bool y x).

(** [latLngToCell], in exact rational arithmetic.  The code computes in
    IEEE doubles: for a position on a grid line (an edge or a corner of a
    cell) the rounded quotient can fall just below the integer, and
    [Math.floor] then gives the neighbouring cell.  Nothing below is stated
    about positions on grid lines: [latLngToCell] is used at the classroom
    origin (where the quotient is exactly 0), at cell centres, and through
    the window it yields for a viewport. *)
Definition latLngToCell (la ln : Q) : GridCell :=
  let dLat := (la - lat CLASSROOM)%Q in
  let dLng := (ln - lng CLASSROOM)%Q in
  {| row := Qfloor (dLat / CELL_DEG); col := Qfloor (dLng / CELL_DEG) |}.

(** Leaflet's [L.latLngBounds(a, b)] keeps the component-wise minimum as the
    south-west corner and the maximum as the north-east corner, and
    [getCenter] is the midpoint of the two corners. *)
Record LatLngBounds := mkBounds { southWest : LatLng; northEast : LatLng }.

Definition L_latLngBounds (a b : LatLng) : LatLngBounds :=
  {| southWest := {| lat := Qmin (lat a) (lat b); lng := Qmin (lng a) (lng b) |};
     northEast := {| lat := Qmax (lat a) (lat b); lng := Qmax (lng a) (lng b) |} |}.

Definition getCenter (b : LatLngBounds) : LatLng :=
  {| lat := ((lat (southWest b) + lat (northEast b)) / 2)%Q;
     lng := ((lng (southWest b) + lng (northEast b)) / 2)%Q |}.

Definition cellBounds (r c : Z) : LatLngBounds :=
  let south := (lat CLASSROOM + inject_Z r * CELL_DEG)%Q in
  let north := (lat CLASSROOM + inject_Z (r + 1) * CELL_DEG)%Q in
  let west := (lng CLASSROOM + inject_Z c * CELL_DEG)%Q in
  let east := (lng CLASSROOM + inject_Z (c + 1) * CELL_DEG)%Q in
  L_latLngBounds {| lat := south; lng := west |} {| lat := north; lng := east |}.

Definition cellCenterLatLng (r c : Z) : LatLng := getCenter (cellBounds r c).

(** ** Deterministic token spawn *)

Section Spawn.
(** [luck] is imported from [./_luck.ts], which is not part of the sources
    at hand: it enters as a parameter. *)
Variable luck : string → Q.

Definition luckSituation (r c : Z) : string :=
  "cell:" +:+ pretty r +:+ ":" +:+ pretty c +:+ ":seed1".

Definition baseTokenValue (r c : Z) : Z :=
  let x := luck (luckSituation r c) in
  if Qltb x (14 # 100) then 2
  else if Qltb x (20 # 100) then 4
  else if Qltb x (22 # 100) then 8
  else 0.
End Spawn.

(** ** JSON documents

    [JSON.stringify] and [JSON.parse] belong to the JavaScript runtime.  A
    stored text is modelled by the document it parses to; [JSON_stringify]
    builds the text itself, which the size guard of [saveState] measures. *)

Inductive json :=
| JNull
| JBool (b : bool)
| JNum (n : Z)
| JStr (s : string)
| JArr (items : list json)
| JObj (fields : list (string * json)).

Definition hexDigit (n : N) : ascii :=
  match n with
  | 10 => "a" | 11 => "b" | 12 => "c" | 13 => "d" | 14 => "e" | 15 => "f"
  | _ => pretty_N_char n
  end%char%N.

(** QuoteJSONString, on one character. *)
Definition escapeChar (a : ascii) : string :=
  let n := N_of_ascii a in
  if (n =? 34)%N then String "\" (String a "")
  else if (n =? 92)%N then "\\"
  else if (n =? 8)%N then "\b"
  else if (n =? 9)%N then "\t"
  else if (n =? 10)%N then "\n"
  else if (n =? 12)%N then "\f"
  else if (n =? 13)%N then "\r"
  else if (n <? 32)%N then
    "\u00" +:+ String (hexDigit (n `div` 16)%N) (String (hexDigit (n `mod` 16)%N) "")
  else String a "".

Fixpoint escapeString (s : string) : string :=
  match s with
  | EmptyString => ""
  | String a s' => escapeChar a +:+ escapeString s'
  end.

Definition dquote : string := String (ascii_of_N 34) "".

Definition quoteString (s : string) : string :=
  dquote +:+ escapeString s +:+ dquote.

Fixpoint JSON_stringify (j : json) : string :=
  match j with
  | JNull => "null"
  | JBool b => if b then "true" else "false"
  | JNum n => pretty n
  | JStr s => quoteString s
  | JArr items =>
      "[" +:+
      (fix elems (l : list json) : string :=
         match l with
         | [] => ""
         | x :: l' =>
             match l' with
             | [] => JSON_stringify x
             | _ :: _ => JSON_stringify x +:+ "," +:+ elems l'
             end
         end) items +:+ "]"
  | JObj fields =>
      "{" +:+
      (fix members (l : list (string * json)) : string :=
         match l with
         | [] => ""
         | (k, x) :: l' =>
             match l' with
             | [] => quoteString k +:+ ":" +:+ JSON_stringify x
             | _ :: _ => quoteString k +:+ ":" +:+ JSON_stringify x +:+ "," +:+ members l'
             end
         end) fields +:+ "}"
  end.

(** Property access [o.name] on a parsed document: [None] is [undefined].
    [JSON.parse] keeps the last of several members of one name. *)
Fixpoint lastMember (name : string) (fields : list (string * json)) : option json :=
  match fields with
  | [] => None
  | (k, x) :: rest =>
      match lastMember name rest with
      | Some y => Some y
      | None => if String.eqb k name then Some x else None
      end
  end.

Definition jfield (name : string) (j : json) : option json :=
  match j with
  | JObj fields => lastMember name fields
  | _ => None
  end.

(** [!x] on a parsed document ([undefined] is [None]). *)
Definition falsy (j : option json) : bool :=
  match j with
  | None | Some JNull | Some (JBool false) | Some (JNum 0) | Some (JStr "") => true
  | _ => false
  end.

Definition isArray (j : option json) : bool :=
  match j with Some (JArr _) => true | _ => false end.

(** What [localStorage.getItem] holds under one key: a text that parses to a
    document, or a text that makes [JSON.parse] throw. *)
Inductive StoredText :=
| Unparsable
| Text (doc : json).

(** ** Game data *)

(** [type TokenState = { v: number }] *)
Record TokenState := mkToken { v : Z }.

(** [let inventory: { value: number } | null] *)
Record Inventory := mkInventory { value : Z }.

Inductive MovementMode := buttons | geo.

Definition STORAGE_VERSION : Z := 3.

Module Memento.
Record t := mk {
  tokens : list (CellKey * TokenState);
  inventory : option Inventory;
  playerCell : GridCell;
  movementMode : option MovementMode;
  target : option Z
}.
End Memento.

(** A [CellView] owns a Leaflet rectangle and an optional label marker.  The
    record keeps what the view shows: [style] is the last pair handed to
    [rect.setStyle] by [setVisual] (value and reachability), [label] the
    text of the label marker when there is one. *)
Module CellView.
Record t := mk {
  row : Z;
  col : Z;
  style : option (Z * bool);
  label : option Z
}.
End CellView.

(** Calls that leave the model: the view collaborator (one constructor per
    [CellView] method), the player marker, the badge, the HUD and [alert]. *)
Inductive Call :=
| createCellView (r c : Z)
| refreshBounds (r c : Z)
| setVisual (r c : Z) (val : Z) (rangeOK : bool)
| destroyView (r c : Z)
| showFixed (p : LatLng)
| panTo (p : LatLng)
| badgeText (txt : string)
| hudText (held : option Z)
| alert (held : Z).

Record ButtonMovementController := mkButtons {
  currentCell : GridCell;
  inPosition : bool   (* a position callback is registered *)
}.

(** The module-level variables of [main.ts], the storage item under
    [STORAGE_KEY], and the trace of outgoing calls (newest first). *)
Record State := mkState {
  tokenStore : gmap CellKey TokenState;
  inventory : option Inventory;
  playerCell : GridCell;
  currentMovementMode : MovementMode;
  lastMemento : option Memento.t;
  saveTimer : bool;          (* a debounced save is pending *)
  localStorage : option StoredText;
  visibleCells : gmap CellKey CellView.t;
  buttonMovement : ButtonMovementController;
  calls : list Call
}.

Definition set_tokenStore (f : gmap CellKey TokenState → gmap CellKey TokenState) (s : State) : State :=
  mkState (f (tokenStore s)) (inventory s) (playerCell s) (currentMovementMode s)
          (lastMemento s) (saveTimer s) (localStorage s) (visibleCells s)
          (buttonMovement s) (calls s).

Definition set_inventory (i : option Inventory) (s : State) : State :=
  mkState (tokenStore s) i (playerCell s) (currentMovementMode s)
          (lastMemento s) (saveTimer s) (localStorage s) (visibleCells s)
          (buttonMovement s) (calls s).

Definition set_playerCell (c : GridCell) (s : State) : State :=
  mkState (tokenStore s) (inventory s) c (currentMovementMode s)
          (lastMemento s) (saveTimer s) (localStorage s) (visibleCells s)
          (buttonMovement s) (calls s).

Definition set_currentMovementMode (m : MovementMode) (s : State) : State :=
  mkState (tokenStore s) (inventory s) (playerCell s) m
          (lastMemento s) (saveTimer s) (localStorage s) (visibleCells s)
          (buttonMovement s) (calls s).

Definition set_lastMemento (m : option Memento.t) (s : State) : State :=
  mkState (tokenStore s) (inventory s) (playerCell s) (currentMovementMode s)
          m (saveTimer s) (localStorage s) (visibleCells s)
          (buttonMovement s) (calls s).

Definition set_saveTimer (b : bool) (s : State) : State :=
  mkState (tokenStore s) (inventory s) (playerCell s) (currentMovementMode s)
          (lastMemento s) b (localStorage s) (visibleCells s)
          (buttonMovement s) (calls s).

Definition set_localStorage (x : option StoredText) (s : State) : State :=
  mkState (tokenStore s) (inventory s) (playerCell s) (currentMovementMode s)
          (lastMemento s) (saveTimer s) x (visibleCells s)
          (buttonMovement s) (calls s).

Definition set_visibleCells (f : gmap CellKey CellView.t → gmap CellKey CellView.t) (s : State) : State :=
  mkState (tokenStore s) (inventory s) (playerCell s) (currentMovementMode s)
          (lastMemento s) (saveTimer s) (localStorage s) (f (visibleCells s))
          (buttonMovement s) (calls s).

Definition set_buttonMovement (b : ButtonMovementController) (s : State) : State :=
  mkState (tokenStore s) (inventory s) (playerCell s) (currentMovementMode s)
          (lastMemento s) (saveTimer s) (localStorage s) (visibleCells s)
          b (calls s).

Definition call (c : Call) (s : State) : State :=
  mkState (tokenStore s) (inventory s) (playerCell s) (currentMovementMode s)
          (lastMemento s) (saveTimer s) (localStorage s) (visibleCells s)
          (buttonMovement s) (c :: calls s).

(** The state of a freshly loaded page, before [initMap] runs: the
    initialisers of the module-level variables, over a given storage.  The
    button controller is built by [initMap] from the player's cell and with
    the position callback registered; the field starts at that value. *)
Definition freshState (stored : option StoredText) : State :=
  let start := latLngToCell (lat CLASSROOM) (lng CLASSROOM) in
  {| tokenStore := ∅;
     inventory := None;
     playerCell := start;
     currentMovementMode := geo;   (* USE_GEOLOCATION = true *)
     lastMemento := None;
     saveTimer := false;
     localStorage := stored;
     visibleCells := ∅;
     buttonMovement := {| currentCell := start; inPosition := true |};
     calls := [] |}.

(** ** Memento and persistence *)

Definition serializeState (cfg : Config) (s : State) : Memento.t :=
  {| Memento.tokens := map_to_list (tokenStore s);
     Memento.inventory :=
       match inventory s with
       | Some i => Some {| value := value i |}
       | None => None
       end;
     Memento.playerCell := {| row := row (playerCell s); col := col (playerCell s) |};
     Memento.movementMode := Some (currentMovementMode s);
     Memento.target := Some (TARGET cfg) |}.

Definition restoreFromMemento (m : Memento.t) (s : State) : State :=
  let s := set_tokenStore (λ _, ∅) s in
  let s := foldl (λ s entry, set_tokenStore (<[entry.1 := {| v := v entry.2 |}]>) s)
                 s (Memento.tokens m) in
  let s := set_inventory
             match Memento.inventory m with
             | Some i => Some {| value := value i |}
             | None => None
             end s in
  let s := set_playerCell {| row := row (Memento.playerCell m);
                             col := col (Memento.playerCell m) |} s in
  match Memento.movementMode m with
  | Some mode => set_currentMovementMode mode s
  | None => s
  end.

(** The document [JSON.stringify] sees for a [Memento]; an [undefined]
    member is left out. *)
Definition jsonOfMode (m : MovementMode) : json :=
  match m with buttons => JStr "buttons" | geo => JStr "geo" end.

Definition jsonOfToken (entry : CellKey * TokenState) : json :=
  JArr [JStr entry.1; JObj [("v", JNum (v entry.2))]].

Definition jsonOfMemento (m : Memento.t) : json :=
  JObj ([("tokens", JArr (jsonOfToken <$> Memento.tokens m));
         ("inventory",
           match Memento.inventory m with
           | Some i => JObj [("value", JNum (value i))]
           | None => JNull
           end);
         ("playerCell", JObj [("row", JNum (row (Memento.playerCell m)));
                              ("col", JNum (col (Memento.playerCell m)))])]
        ++ match Memento.movementMode m with
           | Some mode => [("movementMode", jsonOfMode mode)]
           | None => []
           end
        ++ match Memento.target m with
           | Some n => [("target", JNum n)]
           | None => []
           end).

(** [payload.snapshot as Memento]: the reading of a parsed document at type
    [Memento], member by member as [restoreFromMemento] reads it.  [None]
    stands for a document that does not have that type, on which the
    untyped code is not modelled. *)
Definition numOf (j : option json) : option Z :=
  match j with Some (JNum n) => Some n | _ => None end.

Definition tokenOfJson (j : json) : option (CellKey * TokenState) :=
  match j with
  | JArr (JStr key :: state :: _) => n ← numOf (jfield "v" state); Some (key, {| v := n |})
  | _ => None
  end.

Definition modeOfJson (j : option json) : option (option MovementMode) :=
  if falsy j then Some None
  else match j with
       | Some (JStr "buttons") => Some (Some buttons)
       | Some (JStr "geo") => Some (Some geo)
       | _ => None
       end.

Definition asMemento (j : json) : option Memento.t :=
  match jfield "tokens" j with
  | Some (JArr items) =>
      toks ← mapM tokenOfJson items;
      inv ← (if falsy (jfield "inventory" j) then Some None
             else n ← numOf (jfield "inventory" j ≫= jfield "value");
                  Some (Some {| value := n |}));
      r ← numOf (jfield "playerCell" j ≫= jfield "row");
      c ← numOf (jfield "playerCell" j ≫= jfield "col");
      mode ← modeOfJson (jfield "movementMode" j);
      tgt ← match jfield "target" j with
            | None => Some None
            | Some (JNum n) => Some (Some n)
            | Some _ => None
            end;
      Some {| Memento.tokens := toks; Memento.inventory := inv;
              Memento.playerCell := {| row := r; col := c |};
              Memento.movementMode := mode; Memento.target := tgt |}
  | _ => None
  end.

Section Persistence.
Variable cfg : Config.

Definition payloadOf (s : State) : json :=
  JObj [("version", JNum STORAGE_VERSION);
        ("snapshot", jsonOfMemento (serializeState cfg s))].

(** [saveState]: the write is skipped when the text is longer than
    200000 characters, and a [localStorage.setItem] that throws (quota
    exceeded, storage disabled) is caught: the item stays as it was.
    Whether the write throws is decided by the browser and is an input,
    [setItemThrows]. *)
Definition saveState (setItemThrows : bool) (s : State) : State :=
  let payload := payloadOf s in
  let text := JSON_stringify payload in
  if 200000 <? Z.of_nat (String.length text) then s
  else if setItemThrows then s
  else set_localStorage (Some (Text payload)) s.

(** [scheduleStateSave] arms the 250 ms timer unless one is pending;
    [saveTimerFires] is the timer's callback. *)
Definition scheduleStateSave (s : State) : State :=
  if saveTimer s then s else set_saveTimer true s.

Definition saveTimerFires (setItemThrows : bool) (s : State) : State :=
  saveState setItemThrows (set_saveTimer false s).

Definition saveMemento (s : State) : State :=
  scheduleStateSave (set_lastMemento (Some (serializeState cfg s)) s).
End Persistence.

(** [x !== n] for a number [n]. *)
Definition notNumber (n : Z) (j : option json) : bool :=
  match j with Some (JNum m) => negb (m =? n) | _ => true end.

(** [loadState]: the snapshot document, or [None] for [null]. *)
Definition loadState (s : State) : option json :=
  match localStorage s with
  | None | Some Unparsable => None
  | Some (Text payload) =>
      if falsy (Some payload)
         || notNumber STORAGE_VERSION (jfield "version" payload)
         || falsy (jfield "snapshot" payload)
      then None
      else
        match jfield "snapshot" payload with
        | Some snapshot =>
            if negb (isArray (jfield "tokens" snapshot))
               || falsy (jfield "playerCell" snapshot)
            then None
            else Some snapshot
        | None => None
        end
  end.

(** [loadMemento]; the outer [None] is a snapshot that passes the checks of
    [loadState] without having the type [Memento]. *)
Definition loadMemento (s : State) : option State :=
  match loadState s with
  | None => Some s
  | Some snapshot =>
      m ← asMemento snapshot;
      Some (restoreFromMemento m (set_lastMemento (Some m) s))
  end.

(** ** Reading a key back: [kk.split(":")] and [parseInt(_, 10)] *)

Definition isColon (a : ascii) : bool := (N_of_ascii a =? 58)%N.

Fixpoint split_colon (s : string) : list string :=
  match s with
  | EmptyString => [""]
  | String a s' =>
      if isColon a then "" :: split_colon s'
      else match split_colon s' with
           | part :: parts => String a part :: parts
           | [] => [String a ""]
           end
  end.

Definition digitOf (a : ascii) : option Z :=
  let n := N_of_ascii a in
  if ((48 <=? n) && (n <=? 57))%N then Some (Z.of_N (n - 48)) else None.

Fixpoint parseDigits (acc : Z) (s : string) : Z :=
  match s with
  | EmptyString => acc
  | String a s' =>
      match digitOf a with
      | Some d => parseDigits (10 * acc + d) s'
      | None => acc
      end
  end.

Definition startsWithDigit (s : string) : bool :=
  match s with
  | String a _ => bool_decide (is_Some (digitOf a))
  | EmptyString => false
  end.

Definition isSpace (a : ascii) : bool :=
  let n := N_of_ascii a in ((n =? 32) || ((9 <=? n) && (n <=? 13)))%N.

Fixpoint trimStart (s : string) : string :=
  match s with
  | String a s' => if isSpace a then trimStart s' else s
  | EmptyString => s
  end.

(** [parseInt(str, 10)]; [None] as argument is [undefined], as result [NaN]. *)
Definition parseInt (str : option string) : option Z :=
  s ← str;
  match trimStart s with
  | String a s' =>
      if (N_of_ascii a =? 45)%N then
        if startsWithDigit s' then Some (- parseDigits 0 s') else None
      else if (N_of_ascii a =? 43)%N then
        if startsWithDigit s' then Some (parseDigits 0 s') else None
      else if startsWithDigit (String a s') then Some (parseDigits 0 (String a s'))
      else None
  | EmptyString => None
  end.

(** ** The player-visible window *)

Record CellRange := mkRange { minRow : Z; maxRow : Z; minCol : Z; maxCol : Z }.

(** The values [row] takes in [for (let row = lo; row <= hi; row++)]. *)
Definition loopRange (lo hi : Z) : list Z := seqZ lo (hi - lo + 1).

(** ** Store, HUD, views, click handler, movement *)

Section Game.
Variable luck : string → Q.
Variable cfg : Config.

Definition inRange (s : State) (r c : Z) : bool :=
  let dr := Z.abs (r - row (playerCell s)) in
  let dc := Z.abs (c - col (playerCell s)) in
  Z.max dr dc <=? INTERACT_RANGE cfg.

Definition getEffectiveValue (s : State) (r c : Z) : Z :=
  let key := cellKeyFromRC r c in
  match tokenStore s !! key with
  | Some st => v st
  | None => baseTokenValue luck r c
  end.

Definition setEffectiveValue (r c : Z) (val : Z) (s : State) : State :=
  let key := cellKeyFromRC r c in
  let base := baseTokenValue luck r c in
  let s := if val =? base
           then set_tokenStore (delete key) s
           else set_tokenStore (<[key := {| v := val |}]>) s in
  saveMemento cfg s.

Definition updateInventoryHUD (s : State) : State :=
  call (hudText (value <$> inventory s)) s.

Definition checkWin (s : State) : State :=
  match inventory s with
  | Some i => if TARGET cfg <=? value i then call (alert (value i)) s else s
  | None => s
  end.

(** [new CellView(row, col, ...)], not yet registered in [visibleCells]. *)
Definition CellView_new (r c : Z) (s : State) : CellView.t * State :=
  ({| CellView.row := r; CellView.col := c;
      CellView.style := None; CellView.label := None |},
   call (createCellView r c) s).

(** [cv.setVisual(value, rangeOK, gridLayer)] on the view stored under
    [kk]: the rectangle is restyled and the label exists iff [value > 0]. *)
Definition CellView_setVisual (kk : CellKey) (cv : CellView.t)
    (val : Z) (rangeOK : bool) (s : State) : State :=
  let cv' := {| CellView.row := CellView.row cv; CellView.col := CellView.col cv;
                CellView.style := Some (val, rangeOK);
                CellView.label := if 0 <? val then Some val else None |} in
  call (setVisual (CellView.row cv) (CellView.col cv) val rangeOK)
       (set_visibleCells (<[kk := cv']>) s).

Definition CellView_updateBounds (cv : CellView.t) (s : State) : State :=
  call (refreshBounds (CellView.row cv) (CellView.col cv)) s.

Definition CellView_destroy (cv : CellView.t) (s : State) : State :=
  call (destroyView (CellView.row cv) (CellView.col cv)) s.

(** The viewport [map.getBounds()] is an input of every sync. *)
Definition playerVisibleCellRange (viewport : LatLngBounds) : CellRange :=
  let sw := southWest viewport in
  let ne := northEast viewport in
  let swCell := latLngToCell (lat sw) (lng sw) in
  let neCell := latLngToCell (lat ne) (lng ne) in
  {| minRow := row swCell + VIEW_RADIUS cfg;
     maxRow := row neCell - VIEW_RADIUS cfg;
     minCol := col swCell + VIEW_RADIUS cfg + 17;
     maxCol := col neCell - VIEW_RADIUS cfg - 17 |}.

(** One iteration of the inner loop of [syncGridToPlayerWindow]. *)
Definition syncCell (r c : Z) (acc : gset CellKey * State) : gset CellKey * State :=
  let kk := cellKeyFromRC r c in
  let stale := acc.1 ∖ {[kk]} in
  let s := acc.2 in
  let '(cv, s) :=
    match visibleCells s !! kk with
    | None =>
        let '(cv, s) := CellView_new r c s in
        (cv, set_visibleCells (<[kk := cv]>) s)
    | Some cv => (cv, CellView_updateBounds cv s)
    end in
  let val := getEffectiveValue s r c in
  let rangeOK := inRange s r c in
  (stale, CellView_setVisual kk cv val rangeOK s).

(** One iteration of the loop over [stale]; [None] is the [TypeError] of
    [cv.destroy] on a missing view. *)
Definition dropStale (os : option State) (kk : CellKey) : option State :=
  s ← os;
  cv ← visibleCells s !! kk;
  let s := CellView_destroy cv s in
  let s := set_visibleCells (delete kk) s in
  Some (if MEMORYLESS cfg then set_tokenStore (delete kk) s else s).

Definition syncWindow (w : CellRange) (s : State) : option State :=
  let stale := dom (visibleCells s) in
  let acc :=
    foldl (λ acc r, foldl (λ acc c, syncCell r c acc) acc (loopRange (minCol w) (maxCol w)))
          (stale, s) (loopRange (minRow w) (maxRow w)) in
  foldl dropStale (Some acc.2) (elements acc.1).

Definition syncGridToPlayerWindow (viewport : LatLngBounds) (s : State) : option State :=
  let s := saveMemento cfg s in
  syncWindow (playerVisibleCellRange viewport) s.

(** One iteration of [refreshVisibleCells]; [None] is a key whose parts do
    not parse to integers ([NaN] coordinates are not modelled). *)
Definition refreshCell (os : option State) (entry : CellKey * CellView.t) : option State :=
  s ← os;
  let parts := split_colon entry.1 in
  r ← parseInt (parts !! 0%nat);
  c ← parseInt (parts !! 1%nat);
  let val := getEffectiveValue s r c in
  Some (CellView_setVisual entry.1 entry.2 val (inRange s r c) s).

Definition refreshVisibleCells (s : State) : option State :=
  foldl refreshCell (Some s) (map_to_list (visibleCells s)).

Definition updateCell (r c : Z) (s : State) : State :=
  let kk := keyOf r c in
  match visibleCells s !! kk with
  | None => s
  | Some cv => CellView_setVisual kk cv (getEffectiveValue s r c) (inRange s r c) s
  end.

Definition handleCellClick (r c : Z) (s : State) : State :=
  if negb (inRange s r c) then s
  else
    let cellVal := getEffectiveValue s r c in
    match inventory s with
    | None =>
        (* A) Pick up *)
        if 0 <? cellVal then
          let s := set_inventory (Some {| value := cellVal |}) s in
          let s := setEffectiveValue r c 0 s in
          let s := updateInventoryHUD s in
          let s := updateCell r c s in
          checkWin s
        else s
    | Some inv =>
        let held := value inv in
        if (cellVal =? held) && (0 <? held) then
          (* B) Merge equal *)
          let newVal := held * 2 in
          let s :=
            if MERGE_RESULT_IN_HAND cfg
            then set_inventory (Some {| value := newVal |}) (setEffectiveValue r c 0 s)
            else set_inventory None (setEffectiveValue r c newVal s) in
          let s := updateInventoryHUD s in
          let s := updateCell r c s in
          checkWin s
        else if cellVal =? 0 then
          (* C) Place into empty cell *)
          let s := setEffectiveValue r c held s in
          let s := set_inventory None s in
          let s := updateInventoryHUD s in
          updateCell r c s
        else s
    end.

(** [handleMovementPosition], the callback of both movement controllers. *)
Definition handleMovementPosition (viewport : LatLngBounds) (la ln : Q) (s : State)
    : option State :=
  let cc := latLngToCell la ln in
  let s := set_playerCell cc s in
  s ← syncGridToPlayerWindow viewport s;
  s ← refreshVisibleCells s;
  Some (checkWin s).

(** [ButtonMovementController.stepBy]: the new state and the position
    handed to the callback ([inPosition?.(lat, lng)]). *)
Definition stepBy (viewport : LatLngBounds) (dx dy : Z) (s : State)
    : option State * LatLng :=
  let b := buttonMovement s in
  let cell := {| row := row (currentCell b) + dy; col := col (currentCell b) + dx |} in
  let s := set_buttonMovement {| currentCell := cell; inPosition := inPosition b |} s in
  let centerLL := cellCenterLatLng (row cell) (col cell) in
  let s := call (showFixed centerLL) s in
  let s := call (panTo centerLL) s in
  let s := call (badgeText ("Player: simulated @ cell (" +:+ pretty (row cell)
                            +:+ ", " +:+ pretty (col cell) +:+ ")")) s in
  (if inPosition b then handleMovementPosition viewport (lat centerLL) (lng centerLL) s
   else Some s,
   centerLL).
End Game.

(** ** [src/src/main.ts]: the first playable revision

    A fixed player at the classroom, a plain [overrides] map written on every
    change, the merged token left in the cell, and no placement (the branch
    is commented out in the source). *)

Module MainTs.
Definition INTERACT_RANGE : Z := 3.
Definition TARGET : Z := 16.

Inductive Call :=
| hudText (held : option Z)
| drawGridCells
| alert (crafted : Z).

Record State := mkState {
  overrides : gmap string Z;
  inventory : option Inventory;
  localStorage : option StoredText;     (* the item "d3_state" *)
  calls : list Call
}.

Definition originCell : GridCell := latLngToCell (lat CLASSROOM) (lng CLASSROOM).

Definition inRange (r c : Z) : bool :=
  let dr := Z.abs (r - row originCell) in
  let dc := Z.abs (c - col originCell) in
  Z.max dr dc <=? INTERACT_RANGE.

Definition k (r c : Z) : string := pretty r +:+ ":" +:+ pretty c.

Definition call (c : Call) (s : State) : State :=
  mkState (overrides s) (inventory s) (localStorage s) (c :: calls s).

Definition saveMemento (s : State) : State :=
  let data :=
    JObj [("overrides",
            JArr ((λ e : string * Z, JArr [JStr e.1; JNum e.2]) <$> map_to_list (overrides s)));
          ("inventory",
            match inventory s with
            | Some i => JObj [("value", JNum (value i))]
            | None => JNull
            end)] in
  mkState (overrides s) (inventory s) (Some (Text data)) (calls s).

Section Store.
Variable luck : string → Q.

Definition getEffectiveValue (s : State) (r c : Z) : Z :=
  match overrides s !! k r c with
  | Some val => val
  | None => baseTokenValue luck r c
  end.

Definition setEffectiveValue (r c : Z) (val : Z) (s : State) : State :=
  saveMemento
    (mkState (<[k r c := val]> (overrides s)) (inventory s) (localStorage s) (calls s)).

Definition updateInventoryHUD (s : State) : State :=
  call (hudText (value <$> inventory s)) s.

Definition handleCellClick (r c : Z) (s : State) : State :=
  if negb (inRange r c) then s
  else
    let cellVal := getEffectiveValue s r c in
    match inventory s with
    | None =>
        (* A) Pick up *)
        if 0 <? cellVal then
          let s := mkState (overrides s) (Some {| value := cellVal |})
                           (localStorage s) (calls s) in
          let s := setEffectiveValue r c 0 s in
          let s := updateInventoryHUD s in
          let s := saveMemento s in
          call drawGridCells s
        else s
    | Some inv =>
        let held := value inv in
        if (cellVal =? held) && (0 <? held) then
          (* B) Merge equal: result stays in cell, hand empty *)
          let newVal := held * 2 in
          let s := setEffectiveValue r c newVal s in
          let s := mkState (overrides s) None (localStorage s) (calls s) in
          let s := updateInventoryHUD s in
          let s := saveMemento s in
          let s := call drawGridCells s in
          if TARGET <=? newVal then call (alert newVal) s else s
        else s
    end.
End Store.
End MainTs.

(** ** The transition table of the specification (section 4.6)

    Written from the table, to be compared with [handleCellClick]: the
    state of the hand and the value of the clicked cell, before and after
    an in-range click. *)

Inductive Hand := Empty | Holding (h : Z).

Definition handOf (i : option Inventory) : Hand :=
  match i with None => Empty | Some i => Holding (value i) end.

Definition tableClick (mergeStaysInHand : bool) (hand : Hand) (cellValue : Z) : Hand * Z :=
  match hand with
  | Empty => if 0 <? cellValue then (Holding cellValue, 0) else (Empty, cellValue)
  | Holding h =>
      if (cellValue =? h) && (0 <? h) then
        if mergeStaysInHand then (Holding (h * 2), 0) else (Empty, h * 2)
      else if cellValue =? 0 then (Empty, h)
      else (Holding h, cellValue)
  end.

(** Is the click one of the rows of the table that change something? *)
Definition tableActs (hand : Hand) (cellValue : Z) : bool :=
  match hand with
  | Empty => 0 <? cellValue
  | Holding h => ((cellValue =? h) && (0 <? h)) || (cellValue =? 0)
  end.

(** ** Vocabulary for the statements about windows and traces *)

(** The cells visited by the two nested loops of a sync, in visiting order,
    and the keys they are registered under. *)
Definition cellsOf (w : CellRange) : list (Z * Z) :=
  r ← loopRange (minRow w) (maxRow w);
  c ← loopRange (minCol w) (maxCol w);
  [(r, c)].

Definition keysOf (cs : list (Z * Z)) : gset CellKey :=
  list_to_set ((λ rc, cellKeyFromRC rc.1 rc.2) <$> cs).

Definition windowKeys (w : CellRange) : gset CellKey := keysOf (cellsOf w).

Definition inWindow (w : CellRange) (r c : Z) : Prop :=
  minRow w ≤ r ≤ maxRow w ∧ minCol w ≤ c ≤ maxCol w.

(** A window is malformed when a minimum exceeds its maximum. *)
Definition malformed (w : CellRange) : Prop :=
  maxRow w < minRow w ∨ maxCol w < minCol w.

Definition isCreate (c : Call) : bool :=
  match c with createCellView _ _ => true | _ => false end.
Definition isDestroy (c : Call) : bool :=
  match c with destroyView _ _ => true | _ => false end.
Definition isSetVisual (c : Call) : bool :=
  match c with setVisual _ _ _ _ => true | _ => false end.
Definition isAlert (c : Call) : bool :=
  match c with alert _ => true | _ => false end.

Definition count (p : Call → bool) (l : list Call) : nat :=
  length (filter (λ c, p c = true) l).

(** The win signals of a trace, oldest first. *)
Definition alerts (l : list Call) : list Z :=
  reverse (omap (λ c, match c with alert n => Some n | _ => None end) l).

(** [s'] differs from [s] at most in the views and in the trace. *)
Definition viewsOnly (s s' : State) : Prop :=
  tokenStore s' = tokenStore s ∧ inventory s' = inventory s
  ∧ playerCell s' = playerCell s ∧ currentMovementMode s' = currentMovementMode s
  ∧ lastMemento s' = lastMemento s ∧ saveTimer s' = saveTimer s
  ∧ localStorage s' = localStorage s ∧ buttonMovement s' = buttonMovement s.

(** [s'] differs from [s] at most in the token store, the views and the
    trace: hand, player, mode, memento, timer, storage and controller stay. *)
Definition storeAndViewsOnly (s s' : State) : Prop :=
  inventory s' = inventory s
  ∧ playerCell s' = playerCell s ∧ currentMovementMode s' = currentMovementMode s
  ∧ lastMemento s' = lastMemento s ∧ saveTimer s' = saveTimer s
  ∧ localStorage s' = localStorage s ∧ buttonMovement s' = buttonMovement s.

(** The [destroy] calls made for the keys [l], in order, over the views [vis]. *)
Definition destroyCalls (vis : gmap CellKey CellView.t) (l : list CellKey) : list Call :=
  omap (λ k, (λ cv, destroyView (CellView.row cv) (CellView.col cv)) <$> vis !! k) l.

(** The keys whose views a sync over window [w] finds outside the window. *)
Definition staleKeys (w : CellRange) (s : State) : gset CellKey :=
  dom (visibleCells s) ∖ windowKeys w.

(** ** Events

    What happens to a running game: a click on the view of a cell, a change
    of the viewport (Leaflet's [move] / [moveend], which runs a sync), a
    position reported by the active movement controller, and the firing of
    the debounced save timer, with whether the write it attempts throws.
    [None] is an uncaught exception. *)

Inductive Event :=
| Click (r c : Z)
| ViewportMoved (viewport : LatLngBounds)
| PositionUpdate (viewport : LatLngBounds) (la ln : Q)
| SaveTimerFired (setItemThrows : bool).

Definition react (luck : string → Q) (cfg : Config) (e : Event) (s : State) : option State :=
  match e with
  | Click r c => Some (handleCellClick luck cfg r c s)
  | ViewportMoved viewport => syncGridToPlayerWindow luck cfg viewport s
  | PositionUpdate viewport la ln => handleMovementPosition luck cfg viewport la ln s
  | SaveTimerFired setItemThrows => Some (saveTimerFires cfg setItemThrows s)
  end.

Definition run (luck : string → Q) (cfg : Config) (es : list Event) (s : State) : option State :=
  foldl (λ os e, os ≫= react luck cfg e) (Some s) es.

(** The win signal [checkWin] gives for a hand. *)
Definition winOf (cfg : Config) (i : option Inventory) : list Z :=
  match i with
  | Some i => if TARGET cfg <=? value i then [value i] else []
  | None => []
  end.

(** ** Sample worlds and states, for the concrete instances below *)

(** A world where [luck] answers 1/2 everywhere (every cell spawns empty),
    and one where it answers 0 (every cell spawns a 2). *)
Definition luckHalf : string → Q := λ _, (1 # 2)%Q.
Definition luckZero : string → Q := λ _, 0%Q.

(** A viewport reduced to the classroom point, and one reaching 12.5 cells
    north and south and 28.5 cells east and west of it, so that its corners
    lie in the middle of cells and not on grid lines: with the margins of
    [sourceConfig] its window is rows -5..4 by columns -4..3. *)
Definition pointViewport : LatLngBounds :=
  {| southWest := CLASSROOM; northEast := CLASSROOM |}.

Definition wideViewport : LatLngBounds :=
  {| southWest := {| lat := (lat CLASSROOM - (25 # 2) * CELL_DEG)%Q;
                     lng := (lng CLASSROOM - (57 # 2) * CELL_DEG)%Q |};
     northEast := {| lat := (lat CLASSROOM + (25 # 2) * CELL_DEG)%Q;
                     lng := (lng CLASSROOM + (57 # 2) * CELL_DEG)%Q |} |}.

Definition plainView (r c : Z) : CellView.t :=
  {| CellView.row := r; CellView.col := c; CellView.style := None; CellView.label := None |}.

(** Cell (10, 0) is on screen and holds the override 4. *)
Definition farOverrideState : State :=
  set_tokenStore (λ _, {[cellKeyFromRC 10 0 := {| v := 4 |}]})
    (set_visibleCells (λ _, {[cellKeyFromRC 10 0 := plainView 10 0]}) (freshState None)).

(** Two views on screen. *)
Definition twoViewsState : State :=
  set_visibleCells
    (λ _, {[cellKeyFromRC 0 0 := plainView 0 0; cellKeyFromRC 0 1 := plainView 0 1]})
    (freshState None).

(** A game under way: three overrides (an emptied cell, a 4 and a 16), an
    8 in the hand, the player on cell (2, -2), button mode. *)
Definition midGameState : State :=
  set_currentMovementMode buttons
    (set_playerCell {| row := 2; col := -2 |}
       (set_inventory (Some {| value := 8 |})
          (set_tokenStore
             (λ _, {[cellKeyFromRC 0 0 := {| v := 0 |};
                     cellKeyFromRC 1 (-1) := {| v := 4 |};
                     cellKeyFromRC (-3) 2 := {| v := 16 |}]})
             (freshState None)))).

(** The player holds a 32 next to a cell that holds a 32. *)
Definition beforeWinState : State :=
  set_inventory (Some {| value := 32 |})
    (set_tokenStore (λ _, {[cellKeyFromRC 0 0 := {| v := 32 |}]}) (freshState None)).

(** [src/src/main.ts] at page load with an empty storage, and after the
    player has picked up the token of cell (0, 0). *)
Definition mainTsInitial : MainTs.State :=
  {| MainTs.overrides := ∅;
     MainTs.inventory := None;
     MainTs.localStorage := None;
     MainTs.calls := [] |}.

Definition mainTsHoldingState : MainTs.State :=
  MainTs.handleCellClick luckZero 0 0 mainTsInitial.

(** 13000 overrides in row 0: the text of the snapshot is longer than
    200000 characters. *)
Definition crowdedState : State :=
  set_tokenStore
    (λ _, list_to_map ((λ i, (cellKeyFromRC 0 i, {| v := 16 |})) <$> seqZ 0 13000))
    (freshState None).

(** A page load: the module-level initialisers over the storage left by an
    earlier session, then [loadMemento]. *)
Definition reload (earlier : State) : option State :=
  loadMemento (freshState (localStorage earlier)).

(** ** Vocabulary for the further properties *)

(** The value in the hand, 0 for an empty hand. *)
Definition heldValue (i : option Inventory) : Z :=
  match i with Some i => value i | None => 0 end.

(** The values of the progression 0, 2, 4, 8, 16, ... *)
Definition isTokenValue (z : Z) : Prop :=
  z = 0 ∨ ∃ n : nat, z = 2 ^ (Z.of_nat n + 1).

(** Hand and every cell hold values of the progression. *)
Definition wellValued (luck : string → Q) (s : State) : Prop :=
  isTokenValue (heldValue (inventory s))
  ∧ ∀ r c, isTokenValue (getEffectiveValue luck s r c).

(** No entry of the store repeats the baseline of its cell. *)
Definition sparseStore (luck : string → Q) (s : State) : Prop :=
  ∀ r c t, tokenStore s !! cellKeyFromRC r c = Some t → v t ≠ baseTokenValue luck r c.

(** The view [cv] shows the value and the reachability that the state [s]
    gives to cell (r, c): the pair handed to [setStyle] and the label. *)
Definition shows (luck : string → Q) (cfg : Config) (s : State) (r c : Z)
    (cv : CellView.t) : Prop :=
  CellView.style cv = Some (getEffectiveValue luck s r c, inRange cfg s r c)
  ∧ CellView.label cv
    = (if 0 <? getEffectiveValue luck s r c
       then Some (getEffectiveValue luck s r c) else None).

Definition isRefresh (c : Call) : bool :=
  match c with refreshBounds _ _ => true | _ => false end.

(** Every registered view sits under the key of the cell it reports. *)
Definition viewsNamed (s : State) : Prop :=
  ∀ k cv, visibleCells s !! k = Some cv →
          k = cellKeyFromRC (CellView.row cv) (CellView.col cv).

(** No change is left unsaved: a save is pending, or the storage item
    holds the envelope of the current state, or that envelope is longer
    than the size guard of [saveState] allows. *)
Definition upToDate (cfg : Config) (s : State) : Prop :=
  saveTimer s = true
  ∨ localStorage s = Some (Text (payloadOf cfg s))
  ∨ 200000 < Z.of_nat (String.length (JSON_stringify (payloadOf cfg s))).

(** ** The movement controllers and their hot swap

    [initMap] builds one controller of each kind, registers
    [handleMovementPosition] on both and keeps in [activeMovement] the one
    in use.  A [Session] adds to the module-level variables what [initMap]
    and the geolocation controller keep: the controller [activeMovement]
    points to, whether a position watch is held ([watchId !== null]) and
    whether the D-pad control is on the map ([moveCtl] itself is set before
    any click can arrive).  The viewport seen by the sync that a position
    callback runs, and whether the browser offers geolocation
    (["geolocation" in navigator]), are inputs.  The label of the toggle
    button is not modelled. *)
Record Session := mkSession {
  game : State;
  activeMovement : MovementMode;
  watching : bool;
  dpadOnMap : bool
}.

Definition with_game (s : State) (ss : Session) : Session :=
  mkSession s (activeMovement ss) (watching ss) (dpadOnMap ss).

(** [ButtonMovementController.setCell] *)
Definition setCell (cell : GridCell) (s : State) : State :=
  set_buttonMovement {| currentCell := {| row := row cell; col := col cell |};
                        inPosition := inPosition (buttonMovement s) |} s.

Section Controllers.
Variable luck : string → Q.
Variable cfg : Config.

(** [ButtonMovementController.start] *)
Definition ButtonMovementController_start (viewport : LatLngBounds) (s : State)
    : option State :=
  let b := buttonMovement s in
  let centerLL := cellCenterLatLng (row (currentCell b)) (col (currentCell b)) in
  let s := call (showFixed centerLL) s in
  let s := call (badgeText ("Player: simulated @ cell (" +:+ pretty (row (currentCell b))
                            +:+ ", " +:+ pretty (col (currentCell b)) +:+ ")")) s in
  if inPosition b then handleMovementPosition luck cfg viewport (lat centerLL) (lng centerLL) s
  else Some s.

(** [GeolocationMovementController.start]; the callbacks of the watch it
    registers arrive later, as position updates. *)
Definition GeolocationMovementController_start (viewport : LatLngBounds)
    (geolocation : bool) (ss : Session) : option Session :=
  if negb geolocation then
    let s := call (badgeText "Geolocation unavailable — using classroom location")
                  (game ss) in
    let s := call (showFixed CLASSROOM) s in
    s ← handleMovementPosition luck cfg viewport (lat CLASSROOM) (lng CLASSROOM) s;
    Some (with_game s ss)
  else
    let s := call (badgeText "Player: geolocation (awaiting fix…)") (game ss) in
    Some (mkSession s (activeMovement ss) true (dpadOnMap ss)).

(** [GeolocationMovementController.stop] *)
Definition GeolocationMovementController_stop (ss : Session) : Session :=
  if watching ss then mkSession (game ss) (activeMovement ss) false (dpadOnMap ss)
  else ss.

(** [useMovement(next)] *)
Definition useMovement (viewport : LatLngBounds) (geolocation : bool)
    (next : MovementMode) (ss : Session) : option Session :=
  match activeMovement ss, next with
  | buttons, buttons | geo, geo => Some ss
  | active, _ =>
      let ss :=
        match next with
        | buttons => with_game (setCell (playerCell (game ss)) (game ss)) ss
        | geo => ss
        end in
      (* activeMovement.stop() *)
      let ss :=
        match active with
        | geo => GeolocationMovementController_stop ss
        | buttons => ss
        end in
      let ss := mkSession (set_currentMovementMode next (game ss)) next
                          (watching ss) (dpadOnMap ss) in
      (* toggle D-pad visibility *)
      let ss := mkSession (game ss) (activeMovement ss) (watching ss)
                          match next with buttons => true | geo => false end in
      (* activeMovement.start() *)
      ss ← match next with
           | buttons =>
               s ← ButtonMovementController_start viewport (game ss);
               Some (with_game s ss)
           | geo => GeolocationMovementController_start viewport geolocation ss
           end;
      Some (with_game (saveMemento cfg (game ss)) ss)
  end.

(** The click handler of the mode toggle control. *)
Definition modeToggleClicked (viewport : LatLngBounds) (geolocation : bool)
    (ss : Session) : option Session :=
  match activeMovement ss with
  | buttons => useMovement viewport geolocation geo ss
  | geo => useMovement viewport geolocation buttons ss
  end.
End Controllers.

(** The mode variable names the controller in use, the D-pad is on the map
    exactly in button mode, and no watch is held in button mode. *)
Definition coherent (ss : Session) : Prop :=
  currentMovementMode (game ss) = activeMovement ss
  ∧ dpadOnMap ss = match activeMovement ss with buttons => true | geo => false end
  ∧ (activeMovement ss = buttons → watching ss = false).

(** A session in geolocation mode with a watch held, over the initial game
    state. *)
Definition geoSession : Session :=
  {| game := freshState None; activeMovement := geo; watching := true; dpadOnMap := false |}.

(** ** [src/src/main.ts]: reading the saved state back

    [loadMemento] of the first revision, on a parsed document read at the
    type the code casts it to; the outer [None] is a document that does not
    have that type, on which the untyped code is not modelled.  A text that
    does not parse makes [JSON.parse] throw inside the [try]: the state
    stays. *)
Definition mainTs_overrideOfJson (j : json) : option (string * Z) :=
  match j with
  | JArr (JStr kk :: JNum val :: _) => Some (kk, val)
  | _ => None
  end.

Definition mainTs_loadMemento (s : MainTs.State) : option MainTs.State :=
  match MainTs.localStorage s with
  | None | Some Unparsable => Some s
  | Some (Text data) =>
      match jfield "overrides" data with
      | Some (JArr items) =>
          entries ← mapM mainTs_overrideOfJson items;
          inv ← match jfield "inventory" data with
                | Some JNull => Some None
                | Some held => n ← numOf (jfield "value" held); Some (Some {| value := n |})
                | None => None
                end;
          Some (MainTs.mkState
                  (foldl (λ m e, <[e.1 := e.2]> m) ∅ entries)
                  inv (MainTs.localStorage s) (MainTs.calls s))
      | _ => None
      end
  end.

(** A page load of the first revision over the storage left by an earlier
    session. *)
Definition mainTs_reload (earlier : MainTs.State) : option MainTs.State :=
  mainTs_loadMemento
    (MainTs.mkState ∅ None (MainTs.localStorage earlier) []).

(** A sequence of clicks on the first revision, oldest first.
    [handleCellClick] is the only caller of its [setEffectiveValue]. *)
Definition mainTs_clicks (luck : string → Q) (clicks : list (Z * Z))
    (s : MainTs.State) : MainTs.State :=
  foldl (λ s rc, MainTs.handleCellClick luck rc.1 rc.2 s) s clicks.

(** What the overrides of the first revision look like: each sits on a cell
    that spawned a token, and is 0 (the token was picked up) or that token
    doubled at least once (merges on the cell). *)
Definition mainTs_grown (luck : string → Q) (s : MainTs.State) : Prop :=
  ∀ r c val, MainTs.overrides s !! MainTs.k r c = Some val →
    0 < baseTokenValue luck r c
    ∧ (val = 0 ∨ ∃ n : nat, val = 2 ^ (Z.of_nat n + 1) * baseTokenValue luck r c).

(** The transition table without its placement row, and with the merged
    token left in the cell: the table of the first revision. *)
Definition tableClickNoPlace (hand : Hand) (cellValue : Z) : Hand * Z :=
  match hand with
  | Empty => tableClick false hand cellValue
  | Holding h =>
      if (cellValue =? h) && (0 <? h) then tableClick false hand cellValue
      else (hand, cellValue)
  end.

Definition tableActsNoPlace (hand : Hand) (cellValue : Z) : bool :=
  match hand with
  | Empty => 0 <? cellValue
  | Holding h => (cellValue =? h) && (0 <? h)
  end.

(** * Properties *)

(** ** Keys are canonical: decimal text never holds a colon *)

Fixpoint colonFree (s : string) : bool :=
  match s with
  | EmptyString => true
  | String a s' => negb (isColon a) && colonFree s'
  end.

Lemma string_app_assoc (a b c : string) : (a +:+ b) +:+ c = a +:+ b +:+ c.
Proof.
  induction a as [| x a IH]; [done |].
  change (String x ((a +:+ b) +:+ c) = String x (a +:+ b +:+ c)). by rewrite IH.
Qed.

Lemma pretty_N_char_digit n :
  (n < 10)%N → digitOf (pretty_N_char n) = Some (Z.of_N n).
Proof.
  intros Hn.
  assert (n = 0 ∨ n = 1 ∨ n = 2 ∨ n = 3 ∨ n = 4 ∨ n = 5
          ∨ n = 6 ∨ n = 7 ∨ n = 8 ∨ n = 9)%N as Hc by lia.
  repeat (destruct Hc as [-> | Hc]; [reflexivity |]). by subst.
Qed.

Lemma digit_not_colon a d : digitOf a = Some d → isColon a = false.
Proof.
  unfold digitOf, isColon. intros H.
  destruct (48 <=? N_of_ascii a)%N eqn:H1; [|done].
  destruct (N_of_ascii a <=? 57)%N eqn:H2; [|done].
  apply N.leb_le in H2. apply N.eqb_neq. lia.
Qed.

Lemma colonFree_pretty_N_go x s :
  colonFree s = true → colonFree (pretty_N_go x s) = true.
Proof.
  revert s. induction (N.lt_wf_0 x) as [x _ IH]. intros s Hs.
  destruct (decide (x = 0)%N) as [-> | Hx]; [by rewrite pretty_N_go_0 |].
  rewrite pretty_N_go_step by lia.
  apply IH; [apply N.div_lt; lia |].
  simpl. rewrite Hs, andb_true_r.
  rewrite (digit_not_colon _ (Z.of_N (x `mod` 10))); [done |].
  apply pretty_N_char_digit, N.mod_lt. lia.
Qed.

Lemma colonFree_pretty_Z (z : Z) : colonFree (pretty z) = true.
Proof.
  assert (∀ p : positive, colonFree (pretty p) = true) as Hp.
  { intros p. unfold pretty, pretty_positive, pretty, pretty_N.
    case_decide; [done |]. by apply colonFree_pretty_N_go. }
  destruct z as [| p | p]; [done | apply Hp |].
  change (pretty (Z.neg p)) with ("-" +:+ pretty p). simpl. apply Hp.
Qed.

Lemma app_colon_inj a a' b b' :
  colonFree a = true → colonFree a' = true →
  a +:+ ":" +:+ b = a' +:+ ":" +:+ b' → a = a' ∧ b = b'.
Proof.
  revert a'. induction a as [| x a IH]; intros [| x' a'] Ha Ha' Heq; simpl in *.
  - by simplify_eq.
  - injection Heq as <- _. by rewrite andb_false_l in Ha'.
  - injection Heq as -> _. by rewrite andb_false_l in Ha.
  - injection Heq as -> Heq.
    apply andb_true_iff in Ha as [_ Ha]. apply andb_true_iff in Ha' as [_ Ha'].
    destruct (IH a' Ha Ha' Heq) as [-> ->]. done.
Qed.

Lemma cellKeyFromRC_inj r c r' c' :
  cellKeyFromRC r c = cellKeyFromRC r' c' → r = r' ∧ c = c'.
Proof.
  unfold cellKeyFromRC. intros Heq.
  apply app_colon_inj in Heq as [Hr Hc]; try apply colonFree_pretty_Z.
  split; by apply (inj pretty).
Qed.

Lemma luckSituation_inj r c r' c' :
  luckSituation r c = luckSituation r' c' → r = r' ∧ c = c'.
Proof.
  unfold luckSituation. intros Heq.
  injection Heq as Heq.
  apply app_colon_inj in Heq as [Hr Hc]; try apply colonFree_pretty_Z.
  apply app_colon_inj in Hc as [Hc _]; try apply colonFree_pretty_Z.
  split; by apply (inj pretty).
Qed.

(** ** Grid geometry *)

Lemma Qltb_lt (x y : Q) : Qltb x y = true ↔ (x < y)%Q.
Proof.
  unfold Qltb. rewrite negb_true_iff. split.
  - intros H. apply Qnot_le_lt. intros Hle. apply Qle_bool_iff in Hle. congruence.
  - intros H. apply not_true_is_false. intros Hle. apply Qle_bool_iff in Hle.
    exact (Qlt_not_le _ _ H Hle).
Qed.

Lemma Qltb_ge (x y : Q) : Qltb x y = false ↔ (y <= x)%Q.
Proof.
  unfold Qltb. rewrite negb_false_iff. apply Qle_bool_iff.
Qed.

Lemma Qfloor_unique (x : Q) (n : Z) :
  (inject_Z n <= x)%Q → (x < inject_Z (n + 1))%Q → Qfloor x = n.
Proof.
  intros Hlo Hhi.
  pose proof (Qfloor_le x) as Hf1. pose proof (Qlt_floor x) as Hf2.
  assert (Qfloor x < n + 1) as H1.
  { rewrite Zlt_Qlt. eapply Qle_lt_trans; eauto. }
  assert (n < Qfloor x + 1) as H2.
  { rewrite Zlt_Qlt. eapply Qle_lt_trans; eauto. }
  lia.
Qed.

(** The midpoint of the edges [o + n*d] and [o + (n+1)*d] lies in cell [n]. *)
Lemma floor_of_center (o d : Q) (n : Z) :
  (0 < d)%Q →
  let lo := (o + inject_Z n * d)%Q in
  let hi := (o + inject_Z (n + 1) * d)%Q in
  Qfloor (((Qmin lo hi + Qmax lo hi) / 2 - o) / d) = n.
Proof.
  intros Hd lo hi.
  assert (lo <= hi)%Q as Hle.
  { unfold lo, hi. apply Qplus_le_r, Qmult_le_compat_r.
    - rewrite <- Zle_Qle. lia.
    - by apply Qlt_le_weak. }
  assert (((Qmin lo hi + Qmax lo hi) / 2 - o) / d == inject_Z n + (1 # 2))%Q as Heq.
  { rewrite (Q.min_l _ _ Hle), (Q.max_r _ _ Hle).
    unfold lo, hi. rewrite inject_Z_plus.
    field. intros H0. rewrite H0 in Hd. by apply Qlt_irrefl in Hd. }
  apply Qfloor_unique.
  - rewrite Heq. rewrite <- (Qplus_0_r (inject_Z n)) at 1.
    by apply Qplus_le_r.
  - rewrite Heq, inject_Z_plus. by apply Qplus_lt_r.
Qed.

Lemma CELL_DEG_pos : (0 < CELL_DEG)%Q.
Proof. reflexivity. Qed.

Lemma latLngToCell_center (r c : Z) :
  latLngToCell (lat (cellCenterLatLng r c)) (lng (cellCenterLatLng r c))
  = {| row := r; col := c |}.
Proof.
  unfold latLngToCell, cellCenterLatLng, cellBounds, getCenter, L_latLngBounds.
  cbn [lat lng southWest northEast].
  f_equal; apply floor_of_center, CELL_DEG_pos.
Qed.

Lemma latLngToCell_origin :
  latLngToCell (lat CLASSROOM) (lng CLASSROOM) = {| row := 0; col := 0 |}.
Proof. reflexivity. Qed.

(** ** The sparse store *)

Section StoreFacts.
Variable luck : string → Q.
Variable cfg : Config.

Lemma tokenStore_saveMemento s : tokenStore (saveMemento cfg s) = tokenStore s.
Proof. unfold saveMemento, scheduleStateSave. by destruct (saveTimer _). Qed.

Lemma inventory_saveMemento s : inventory (saveMemento cfg s) = inventory s.
Proof. unfold saveMemento, scheduleStateSave. by destruct (saveTimer _). Qed.

Lemma playerCell_saveMemento s : playerCell (saveMemento cfg s) = playerCell s.
Proof. unfold saveMemento, scheduleStateSave. by destruct (saveTimer _). Qed.

Lemma visibleCells_saveMemento s : visibleCells (saveMemento cfg s) = visibleCells s.
Proof. unfold saveMemento, scheduleStateSave. by destruct (saveTimer _). Qed.

Lemma calls_saveMemento s : calls (saveMemento cfg s) = calls s.
Proof. unfold saveMemento, scheduleStateSave. by destruct (saveTimer _). Qed.

Lemma buttonMovement_saveMemento s :
  buttonMovement (saveMemento cfg s) = buttonMovement s.
Proof. unfold saveMemento, scheduleStateSave. by destruct (saveTimer _). Qed.

Lemma currentMovementMode_saveMemento s :
  currentMovementMode (saveMemento cfg s) = currentMovementMode s.
Proof. unfold saveMemento, scheduleStateSave. by destruct (saveTimer _). Qed.

Lemma localStorage_saveMemento s :
  localStorage (saveMemento cfg s) = localStorage s.
Proof. unfold saveMemento, scheduleStateSave. by destruct (saveTimer _). Qed.

Lemma lastMemento_saveMemento s :
  lastMemento (saveMemento cfg s) = Some (serializeState cfg s).
Proof. unfold saveMemento, scheduleStateSave. by destruct (saveTimer _). Qed.

Lemma saveTimer_saveMemento s : saveTimer (saveMemento cfg s) = true.
Proof.
  unfold saveMemento, scheduleStateSave. cbn [saveTimer set_lastMemento].
  by destruct (saveTimer s) eqn:E.
Qed.

Lemma inventory_setEffectiveValue r c val s :
  inventory (setEffectiveValue luck cfg r c val s) = inventory s.
Proof.
  unfold setEffectiveValue. rewrite inventory_saveMemento. by destruct (val =? _).
Qed.

Lemma playerCell_setEffectiveValue r c val s :
  playerCell (setEffectiveValue luck cfg r c val s) = playerCell s.
Proof.
  unfold setEffectiveValue. rewrite playerCell_saveMemento. by destruct (val =? _).
Qed.

Lemma tokenStore_setEffectiveValue r c val s :
  tokenStore (setEffectiveValue luck cfg r c val s)
  = if val =? baseTokenValue luck r c
    then delete (cellKeyFromRC r c) (tokenStore s)
    else <[cellKeyFromRC r c := {| v := val |}]> (tokenStore s).
Proof.
  unfold setEffectiveValue. rewrite tokenStore_saveMemento.
  by destruct (val =? _).
Qed.

(** After [setEffectiveValue] the store holds an entry for the cell exactly
    when the written value differs from the baseline. *)
Lemma setEffectiveValue_sparse r c val s :
  is_Some (tokenStore (setEffectiveValue luck cfg r c val s) !! cellKeyFromRC r c)
  ↔ val ≠ baseTokenValue luck r c.
Proof.
  rewrite tokenStore_setEffectiveValue.
  destruct (Z.eqb_spec val (baseTokenValue luck r c)) as [-> | Hne].
  - rewrite lookup_delete_eq. split; [by intros [? ?] | done].
  - rewrite lookup_insert_eq. split; [done | by eexists].
Qed.

Lemma setEffectiveValue_baseline r c s :
  tokenStore (setEffectiveValue luck cfg r c (baseTokenValue luck r c) s)
    !! cellKeyFromRC r c = None.
Proof.
  rewrite tokenStore_setEffectiveValue, Z.eqb_refl. apply lookup_delete_eq.
Qed.

Lemma setEffectiveValue_other r c val s k :
  k ≠ cellKeyFromRC r c →
  tokenStore (setEffectiveValue luck cfg r c val s) !! k = tokenStore s !! k.
Proof.
  intros Hk. rewrite tokenStore_setEffectiveValue.
  destruct (val =? _); [by rewrite lookup_delete_ne | by rewrite lookup_insert_ne].
Qed.

Lemma getEffectiveValue_tokenStore s s' r c :
  tokenStore s' = tokenStore s →
  getEffectiveValue luck s' r c = getEffectiveValue luck s r c.
Proof. unfold getEffectiveValue. by intros ->. Qed.

(** Reading back what was written. *)
Lemma getEffectiveValue_setEffectiveValue r c val s :
  getEffectiveValue luck (setEffectiveValue luck cfg r c val s) r c = val.
Proof.
  unfold getEffectiveValue. rewrite tokenStore_setEffectiveValue.
  destruct (Z.eqb_spec val (baseTokenValue luck r c)) as [-> | Hne].
  - by rewrite lookup_delete_eq.
  - by rewrite lookup_insert_eq.
Qed.

Lemma getEffectiveValue_setEffectiveValue_other r c val s r' c' :
  (r', c') ≠ (r, c) →
  getEffectiveValue luck (setEffectiveValue luck cfg r c val s) r' c'
  = getEffectiveValue luck s r' c'.
Proof.
  intros Hne. unfold getEffectiveValue.
  rewrite setEffectiveValue_other; [done |].
  intros Heq. apply cellKeyFromRC_inj in Heq as [-> ->]. done.
Qed.
End StoreFacts.

(** ** What touches only views and trace *)

Section ViewFacts.
Variable luck : string → Q.
Variable cfg : Config.

Lemma viewsOnly_refl s : viewsOnly s s.
Proof. by repeat split. Qed.

Lemma viewsOnly_trans s1 s2 s3 : viewsOnly s1 s2 → viewsOnly s2 s3 → viewsOnly s1 s3.
Proof.
  unfold viewsOnly. intros (?&?&?&?&?&?&?&?) (?&?&?&?&?&?&?&?).
  repeat split; congruence.
Qed.

Lemma viewsOnly_call c s : viewsOnly s (call c s).
Proof. by repeat split. Qed.

Lemma viewsOnly_set_visibleCells f s : viewsOnly s (set_visibleCells f s).
Proof. by repeat split. Qed.

Lemma viewsOnly_setVisual kk cv val ok s :
  viewsOnly s (CellView_setVisual kk cv val ok s).
Proof. by repeat split. Qed.

Lemma viewsOnly_updateInventoryHUD s : viewsOnly s (updateInventoryHUD s).
Proof. by repeat split. Qed.

Lemma viewsOnly_checkWin s : viewsOnly s (checkWin cfg s).
Proof.
  unfold checkWin. destruct (inventory s) as [i |]; [| apply viewsOnly_refl].
  destruct (_ <=? _); [apply viewsOnly_call | apply viewsOnly_refl].
Qed.

Lemma viewsOnly_updateCell r c s : viewsOnly s (updateCell luck cfg r c s).
Proof.
  unfold updateCell. destruct (_ !! _); [apply viewsOnly_setVisual | apply viewsOnly_refl].
Qed.

Lemma viewsOnly_getEffectiveValue s s' r c :
  viewsOnly s s' → getEffectiveValue luck s' r c = getEffectiveValue luck s r c.
Proof. intros (H & _). by apply getEffectiveValue_tokenStore. Qed.

Lemma viewsOnly_inRange s s' r c :
  viewsOnly s s' → inRange cfg s' r c = inRange cfg s r c.
Proof. intros (_ & _ & H & _). unfold inRange. by rewrite H. Qed.
End ViewFacts.

(** ** The click handler against the transition table *)

Section ClickFacts.
Variable luck : string → Q.
Variable cfg : Config.

Local Abbreviation click := (handleCellClick luck cfg).
Local Abbreviation valueAt := (getEffectiveValue luck).

Lemma handleCellClick_out_of_range r c s :
  inRange cfg s r c = false → click r c s = s.
Proof. unfold handleCellClick. by intros ->. Qed.

Lemma handleCellClick_idle r c s :
  tableActs (handOf (inventory s)) (valueAt s r c) = false → click r c s = s.
Proof.
  unfold handleCellClick, tableActs, handOf. intros H.
  destruct (inRange cfg s r c); [simpl | done].
  destruct (inventory s) as [i |].
  - apply orb_false_iff in H as [-> ->]. done.
  - by rewrite H.
Qed.

(** The tail of every acting branch leaves store, hand and player alone. *)
Lemma click_tail r c s :
  viewsOnly s (checkWin cfg (updateCell luck cfg r c (updateInventoryHUD s))).
Proof.
  eapply viewsOnly_trans; [apply viewsOnly_updateInventoryHUD |].
  eapply viewsOnly_trans; [apply viewsOnly_updateCell | apply viewsOnly_checkWin].
Qed.

Lemma click_tail_place r c s :
  viewsOnly s (updateCell luck cfg r c (updateInventoryHUD s)).
Proof.
  eapply viewsOnly_trans; [apply viewsOnly_updateInventoryHUD | apply viewsOnly_updateCell].
Qed.

Lemma handleCellClick_table r c s :
  inRange cfg s r c = true →
  (handOf (inventory (click r c s)), valueAt (click r c s) r c)
  = tableClick (MERGE_RESULT_IN_HAND cfg) (handOf (inventory s)) (valueAt s r c).
Proof.
  intros Hin. unfold handleCellClick. rewrite Hin. simpl negb. cbv iota.
  unfold tableClick, handOf.
  destruct (inventory s) as [[held] |] eqn:Hinv; simpl value.
  - destruct ((valueAt s r c =? held) && (0 <? held)) eqn:Hmerge.
    + destruct (MERGE_RESULT_IN_HAND cfg).
      * match goal with |- context [checkWin cfg (updateCell luck cfg r c (updateInventoryHUD ?x))] =>
          pose proof (click_tail r c x) as Hv end.
        rewrite (viewsOnly_getEffectiveValue _ _ _ _ _ Hv).
        destruct Hv as (_ & -> & _).
        by rewrite (getEffectiveValue_tokenStore luck (setEffectiveValue luck cfg r c 0 s)),
          getEffectiveValue_setEffectiveValue.
      * match goal with |- context [checkWin cfg (updateCell luck cfg r c (updateInventoryHUD ?x))] =>
          pose proof (click_tail r c x) as Hv end.
        rewrite (viewsOnly_getEffectiveValue _ _ _ _ _ Hv).
        destruct Hv as (_ & -> & _).
        by rewrite (getEffectiveValue_tokenStore luck (setEffectiveValue luck cfg r c (held * 2) s)),
          getEffectiveValue_setEffectiveValue.
    + destruct (valueAt s r c =? 0) eqn:Hzero.
      * match goal with |- context [updateCell luck cfg r c (updateInventoryHUD ?x)] =>
          pose proof (click_tail_place r c x) as Hv end.
        rewrite (viewsOnly_getEffectiveValue _ _ _ _ _ Hv).
        destruct Hv as (_ & -> & _).
        by rewrite (getEffectiveValue_tokenStore luck (setEffectiveValue luck cfg r c held s)),
          getEffectiveValue_setEffectiveValue.
      * by rewrite Hinv.
  - destruct (0 <? valueAt s r c) eqn:Hpos.
    + match goal with |- context [checkWin cfg (updateCell luck cfg r c (updateInventoryHUD ?x))] =>
        pose proof (click_tail r c x) as Hv end.
      rewrite (viewsOnly_getEffectiveValue _ _ _ _ _ Hv).
      destruct Hv as (_ & -> & _).
      by rewrite getEffectiveValue_setEffectiveValue, inventory_setEffectiveValue.
    + by rewrite Hinv.
Qed.

(** A click writes the store at most under the key of the clicked cell. *)
Lemma handleCellClick_other_keys r c s k :
  k ≠ cellKeyFromRC r c → tokenStore (click r c s) !! k = tokenStore s !! k.
Proof.
  intros Hk. unfold handleCellClick.
  destruct (inRange cfg s r c); [simpl | done].
  destruct (inventory s) as [[held] |]; simpl value.
  - destruct (_ && _).
    + match goal with |- context [checkWin cfg (updateCell luck cfg r c (updateInventoryHUD ?x))] =>
        destruct (click_tail r c x) as (-> & _) end.
      destruct (MERGE_RESULT_IN_HAND cfg); simpl; by apply setEffectiveValue_other.
    + destruct (_ =? 0); [| done].
      match goal with |- context [updateCell luck cfg r c (updateInventoryHUD ?x)] =>
        destruct (click_tail_place r c x) as (-> & _) end.
      simpl. by apply setEffectiveValue_other.
  - destruct (0 <? _); [| done].
    match goal with |- context [checkWin cfg (updateCell luck cfg r c (updateInventoryHUD ?x))] =>
      destruct (click_tail r c x) as (-> & _) end.
    rewrite setEffectiveValue_other by done. done.
Qed.
End ClickFacts.

(** ** Windows and their keys *)

Lemma loopRange_empty lo hi : hi < lo → loopRange lo hi = [].
Proof. intros. unfold loopRange. apply seqZ_nil. lia. Qed.

Lemma elem_of_loopRange lo hi x : x ∈ loopRange lo hi ↔ lo ≤ x ≤ hi.
Proof. unfold loopRange. rewrite elem_of_seqZ. lia. Qed.

Lemma elem_of_cellsOf w r c : (r, c) ∈ cellsOf w ↔ inWindow w r c.
Proof.
  unfold cellsOf, inWindow. rewrite list_elem_of_bind. split.
  - intros (r' & Hc & Hr). apply list_elem_of_bind in Hc as (c' & Heq & Hc).
    apply list_elem_of_singleton in Heq. simplify_eq.
    by apply elem_of_loopRange in Hr, Hc.
  - intros [Hr Hc]. exists r. split; [| by apply elem_of_loopRange].
    apply list_elem_of_bind. exists c. split; [by apply list_elem_of_singleton |].
    by apply elem_of_loopRange.
Qed.

Lemma cellsOf_malformed w : malformed w → cellsOf w = [].
Proof.
  unfold malformed, cellsOf. intros [Hr | Hc].
  - rewrite (loopRange_empty (minRow w)) by done. reflexivity.
  - rewrite (loopRange_empty (minCol w)) by done.
    induction (loopRange (minRow w) (maxRow w)) as [| r rows IH]; [done |].
    by rewrite bind_cons, IH.
Qed.

Lemma elem_of_keysOf cs k :
  k ∈ keysOf cs ↔ ∃ r c, k = cellKeyFromRC r c ∧ (r, c) ∈ cs.
Proof.
  unfold keysOf. rewrite elem_of_list_to_set, list_elem_of_fmap. split.
  - intros ([r c] & -> & Hin). by exists r, c.
  - intros (r & c & -> & Hin). by exists (r, c).
Qed.

Lemma keysOf_cons rc cs :
  keysOf (rc :: cs) = {[cellKeyFromRC rc.1 rc.2]} ∪ keysOf cs.
Proof. done. Qed.

Lemma elem_of_windowKeys w r c :
  cellKeyFromRC r c ∈ windowKeys w ↔ inWindow w r c.
Proof.
  unfold windowKeys. rewrite elem_of_keysOf, <- elem_of_cellsOf. split.
  - intros (r' & c' & Heq & Hin). by apply cellKeyFromRC_inj in Heq as [-> ->].
  - intros Hin. by exists r, c.
Qed.

Lemma windowKeys_malformed w : malformed w → windowKeys w = ∅.
Proof. intros H. unfold windowKeys. by rewrite cellsOf_malformed. Qed.

(** ** Counting calls in a trace *)

Lemma count_nil p : count p [] = 0%nat.
Proof. done. Qed.

Lemma count_cons p c l :
  count p (c :: l) = ((if p c then 1 else 0) + count p l)%nat.
Proof.
  unfold count. rewrite filter_cons.
  destruct (p c); case_decide; simpl; congruence.
Qed.

Lemma count_app p l1 l2 : count p (l1 ++ l2) = (count p l1 + count p l2)%nat.
Proof. unfold count. by rewrite filter_app, length_app. Qed.

Lemma count_all p l : Forall (λ c, p c = true) l → count p l = length l.
Proof.
  induction 1 as [| c l Hc _ IH]; [done |].
  rewrite count_cons, Hc, IH. done.
Qed.

Lemma count_none p l : Forall (λ c, p c = false) l → count p l = 0%nat.
Proof.
  induction 1 as [| c l Hc _ IH]; [done |].
  rewrite count_cons, Hc, IH. done.
Qed.

Lemma alerts_app l1 l2 : alerts (l1 ++ l2) = alerts l2 ++ alerts l1.
Proof. unfold alerts. by rewrite omap_app, reverse_app. Qed.

Lemma alerts_no_alert l : count isAlert l = 0%nat → alerts l = [].
Proof.
  unfold alerts. induction l as [| c l IH]; [done |].
  rewrite count_cons. intros H.
  destruct c; simpl in *; try (apply IH; lia). lia.
Qed.

(** ** The two loops of a sync *)

Section SyncFacts.
Variable luck : string → Q.
Variable cfg : Config.

Local Abbreviation step :=
  (λ (acc : gset CellKey * State) (rc : Z * Z), syncCell luck cfg rc.1 rc.2 acc).

(** The nested [for] loops visit [cellsOf] in order. *)
Lemma nested_loops (rows cols : list Z) acc :
  foldl (λ acc r, foldl (λ acc c, syncCell luck cfg r c acc) acc cols) acc rows
  = foldl step acc (r ← rows; c ← cols; [(r, c)]).
Proof.
  revert acc. induction rows as [| r rows IH]; intros acc; [done |].
  rewrite bind_cons, foldl_app. cbn [foldl]. rewrite IH. f_equal.
  clear IH. revert acc. induction cols as [| c cols IH]; intros acc; [done |].
  rewrite bind_cons. cbn [foldl app]. apply IH.
Qed.

Lemma syncCell_step r c st s :
  ∃ s' news,
    syncCell luck cfg r c (st, s) = (st ∖ {[cellKeyFromRC r c]}, s')
    ∧ dom (visibleCells s') = {[cellKeyFromRC r c]} ∪ dom (visibleCells s)
    ∧ (∀ k, k ≠ cellKeyFromRC r c → visibleCells s' !! k = visibleCells s !! k)
    ∧ viewsOnly s s'
    ∧ calls s' = news ++ calls s
    ∧ length news = 2%nat
    ∧ count isDestroy news = 0%nat
    ∧ count isAlert news = 0%nat
    ∧ count isSetVisual news = 1%nat
    ∧ (cellKeyFromRC r c ∈ dom (visibleCells s) → count isCreate news = 0%nat).
Proof.
  unfold syncCell. cbn [fst snd].
  destruct (visibleCells s !! cellKeyFromRC r c) as [cv |] eqn:Hcv.
  - eexists _, [_; _]. split; [reflexivity |].
    split; [cbn; by rewrite dom_insert_L |].
    split; [intros k Hk; cbn; by rewrite lookup_insert_ne |].
    repeat split; done.
  - eexists _, [_; _]. split; [reflexivity |].
    split; [cbn; rewrite !dom_insert_L; set_solver |].
    split; [intros k Hk; cbn; by rewrite !lookup_insert_ne |].
    repeat split; try done.
    intros Hin. apply elem_of_dom in Hin as [? Hin]. congruence.
Qed.

Lemma loop1_spec cs st s :
  ∃ s' news,
    foldl step (st, s) cs = (st ∖ keysOf cs, s')
    ∧ dom (visibleCells s') = dom (visibleCells s) ∪ keysOf cs
    ∧ (∀ k, k ∉ keysOf cs → visibleCells s' !! k = visibleCells s !! k)
    ∧ viewsOnly s s'
    ∧ calls s' = news ++ calls s
    ∧ length news = (2 * length cs)%nat
    ∧ count isDestroy news = 0%nat
    ∧ count isAlert news = 0%nat
    ∧ count isSetVisual news = length cs
    ∧ (keysOf cs ⊆ dom (visibleCells s) → count isCreate news = 0%nat).
Proof.
  revert st s. induction cs as [| [r c] cs IH]; intros st s.
  - exists s, []. cbn [foldl]. unfold keysOf. cbn.
    repeat split; try done; [f_equal; set_solver | set_solver].
  - cbn [foldl fst snd].
    destruct (syncCell_step r c st s)
      as (s1 & n1 & -> & Hdom1 & Hlk1 & Hv1 & Hc1 & Hl1 & Hd1 & Ha1 & Hs1 & Hk1).
    destruct (IH (st ∖ {[cellKeyFromRC r c]}) s1)
      as (s2 & n2 & -> & Hdom2 & Hlk2 & Hv2 & Hc2 & Hl2 & Hd2 & Ha2 & Hs2 & Hk2).
    exists s2, (n2 ++ n1). rewrite keysOf_cons. cbn [fst snd].
    split; [f_equal; set_solver |].
    split; [rewrite Hdom2, Hdom1; set_solver |].
    split; [intros k Hk; rewrite Hlk2, Hlk1; [done | |]; set_solver |].
    split; [by eapply viewsOnly_trans |].
    split; [by rewrite Hc2, Hc1, app_assoc |].
    rewrite length_app, !count_app, Hl1, Hl2, Hd1, Hd2, Ha1, Ha2, Hs1, Hs2.
    cbn [length].
    repeat split; try lia.
    intros Hsub. rewrite Hk1, Hk2; [done | | ]; set_solver.
Qed.

Lemma destroyCalls_delete vis k l :
  k ∉ l → destroyCalls (delete k vis) l = destroyCalls vis l.
Proof.
  unfold destroyCalls. induction l as [| k' l IH]; intros Hk; [done |].
  apply not_elem_of_cons in Hk as [Hne Hk].
  cbn [omap list_omap]. rewrite lookup_delete_ne by done. by rewrite IH.
Qed.

Lemma destroyCalls_all vis l : Forall (λ c, isDestroy c = true) (destroyCalls vis l).
Proof.
  unfold destroyCalls. induction l as [| k l IH]; [constructor |].
  cbn [omap list_omap]. destruct (vis !! k); cbn; [by constructor | done].
Qed.

Lemma destroyCalls_reverse_all vis l :
  Forall (λ c, isDestroy c = true) (reverse (destroyCalls vis l)).
Proof. apply Forall_reverse, destroyCalls_all. Qed.

Lemma destroyCalls_length vis l :
  (∀ k, k ∈ l → k ∈ dom vis) → length (destroyCalls vis l) = length l.
Proof.
  unfold destroyCalls. induction l as [| k l IH]; intros Hin; [done |].
  cbn [omap list_omap].
  assert (k ∈ dom vis) as [cv ->]%elem_of_dom by (apply Hin; left).
  cbn. rewrite IH; [done |]. intros k' Hk'. apply Hin. by right.
Qed.

(** The loop over [stale]: every key is looked up, so the keys must have
    views; the entries go, and under memoryless mode the tokens with them. *)
Lemma loop2_spec l s :
  NoDup l → (∀ k, k ∈ l → k ∈ dom (visibleCells s)) →
  ∃ s',
    foldl (dropStale cfg) (Some s) l = Some s'
    ∧ dom (visibleCells s') = dom (visibleCells s) ∖ list_to_set l
    ∧ (∀ k, tokenStore s' !! k
            = if MEMORYLESS cfg && bool_decide (k ∈ l) then None else tokenStore s !! k)
    ∧ storeAndViewsOnly s s'
    ∧ calls s' = reverse (destroyCalls (visibleCells s) l) ++ calls s.
Proof.
  revert s. induction l as [| k l IH]; intros s Hnd Hin.
  - exists s. cbn [foldl].
    repeat split; try done; [set_solver |].
    intros k. by rewrite andb_false_r.
  - apply NoDup_cons in Hnd as [Hk Hnd].
    assert (k ∈ dom (visibleCells s)) as Hkd by (apply Hin; left).
    apply elem_of_dom in Hkd as [cv Hcv].
    cbn [foldl]. unfold dropStale at 2. cbn [mbind option_bind]. rewrite Hcv. cbn [mbind option_bind].
    match goal with |- context [foldl _ (Some ?x) l] => set (s1 := x) end.
    assert (visibleCells s1 = delete k (visibleCells s)) as Hvis1
      by (unfold s1; by destruct (MEMORYLESS cfg)).
    assert (tokenStore s1 = if MEMORYLESS cfg then delete k (tokenStore s) else tokenStore s)
      as Htok1 by (unfold s1; by destruct (MEMORYLESS cfg)).
    assert (storeAndViewsOnly s s1) as Hf1
      by (unfold s1; destruct (MEMORYLESS cfg); by repeat split).
    assert (calls s1 = [destroyView (CellView.row cv) (CellView.col cv)] ++ calls s) as Hc1
      by (unfold s1; by destruct (MEMORYLESS cfg)).
    clearbody s1.
    destruct (IH s1 Hnd) as (s2 & -> & Hdom2 & Htok2 & Hf2 & Hc2).
    { intros k' Hk'. rewrite Hvis1, dom_delete_L.
      apply elem_of_difference. split; [apply Hin; by right |].
      apply not_elem_of_singleton. intros ->. done. }
    exists s2.
    split; [done |].
    split; [rewrite Hdom2, Hvis1, dom_delete_L; set_solver |].
    split.
    { intros k'. rewrite Htok2, Htok1.
      destruct (MEMORYLESS cfg); cbn [andb]; [| done].
      destruct (decide (k' = k)) as [-> | Hne].
      - rewrite (bool_decide_eq_true_2 (k ∈ k :: l)) by left.
        rewrite lookup_delete_eq. by case_bool_decide.
      - rewrite lookup_delete_ne by done.
        repeat case_bool_decide; try done; set_solver. }
    split.
    { destruct Hf1 as (?&?&?&?&?&?&?), Hf2 as (?&?&?&?&?&?&?).
      repeat split; congruence. }
    rewrite Hc2, Hc1, Hvis1, destroyCalls_delete by done.
    unfold destroyCalls at 2. cbn [omap list_omap]. rewrite Hcv. cbn [fmap option_fmap option_map].
    fold (destroyCalls (visibleCells s) l).
    by rewrite reverse_cons, <- app_assoc.
Qed.
Lemma destroyCalls_ext vis1 vis2 l :
  (∀ k, k ∈ l → vis1 !! k = vis2 !! k) → destroyCalls vis1 l = destroyCalls vis2 l.
Proof.
  unfold destroyCalls. induction l as [| k l IH]; intros Heq; [done |].
  cbn [omap list_omap]. rewrite (Heq k) by left.
  rewrite IH; [done |]. intros k' Hk'. apply Heq. by right.
Qed.

Lemma union_minus_stale (D W : gset CellKey) : (D ∪ W) ∖ (D ∖ W) = W.
Proof. apply set_eq. intros k. destruct (decide (k ∈ W)); set_solver. Qed.

(** The whole of a sync over a window. *)
Lemma syncWindow_spec w s :
  ∃ s' n1,
    syncWindow luck cfg w s = Some s'
    ∧ dom (visibleCells s') = windowKeys w
    ∧ (∀ k, tokenStore s' !! k
            = if MEMORYLESS cfg && bool_decide (k ∈ staleKeys w s)
              then None else tokenStore s !! k)
    ∧ storeAndViewsOnly s s'
    ∧ calls s'
      = reverse (destroyCalls (visibleCells s) (elements (staleKeys w s))) ++ n1 ++ calls s
    ∧ length n1 = (2 * length (cellsOf w))%nat
    ∧ count isDestroy n1 = 0%nat
    ∧ count isAlert n1 = 0%nat
    ∧ count isSetVisual n1 = length (cellsOf w)
    ∧ (windowKeys w ⊆ dom (visibleCells s) → count isCreate n1 = 0%nat).
Proof.
  unfold syncWindow. rewrite nested_loops. fold (cellsOf w).
  destruct (loop1_spec (cellsOf w) (dom (visibleCells s)) s)
    as (s1 & n1 & -> & Hdom1 & Hlk1 & Hv1 & Hc1 & Hl1 & Hd1 & Ha1 & Hs1 & Hk1).
  cbn [fst snd]. fold (windowKeys w). fold (windowKeys w) in Hdom1, Hlk1, Hk1.
  fold (staleKeys w s).
  destruct (loop2_spec (elements (staleKeys w s)) s1)
    as (s2 & -> & Hdom2 & Htok2 & Hf2 & Hc2).
  { apply NoDup_elements. }
  { intros k Hk. apply elem_of_elements in Hk. rewrite Hdom1.
    unfold staleKeys in Hk.
    apply elem_of_difference in Hk as [Hk _]. apply elem_of_union. by left. }
  exists s2, n1. split; [done |].
  split.
  { rewrite Hdom2, Hdom1, list_to_set_elements_L. apply union_minus_stale. }
  split.
  { intros k. rewrite Htok2. destruct Hv1 as (-> & _).
    destruct (MEMORYLESS cfg); cbn [andb]; [| done].
    rewrite (bool_decide_ext (k ∈ elements (staleKeys w s)) (k ∈ staleKeys w s)); [done |].
    apply elem_of_elements. }
  split.
  { destruct Hv1 as (?&?&?&?&?&?&?&?), Hf2 as (?&?&?&?&?&?&?).
    repeat split; congruence. }
  split.
  { rewrite Hc2, Hc1. f_equal. f_equal. apply destroyCalls_ext.
    intros k Hk. apply elem_of_elements in Hk. apply Hlk1.
    unfold staleKeys in Hk. by apply elem_of_difference in Hk as [_ Hk]. }
  done.
Qed.
End SyncFacts.

(** ** Reading keys back *)

Lemma split_colon_colonFree s : colonFree s = true → split_colon s = [s].
Proof.
  induction s as [| a s IH]; [done |]. cbn [colonFree split_colon].
  intros [Ha Hs]%andb_true_iff. apply negb_true_iff in Ha. rewrite Ha, IH; done.
Qed.

Lemma split_colon_app a b :
  colonFree a = true → split_colon (a +:+ ":" +:+ b) = a :: split_colon b.
Proof.
  induction a as [| x a IH]; [done |]. cbn [colonFree].
  intros [Hx Ha]%andb_true_iff. apply negb_true_iff in Hx.
  change (String x a +:+ ":" +:+ b) with (String x (a +:+ ":" +:+ b)).
  cbn [split_colon]. rewrite Hx, IH; done.
Qed.

Lemma split_colon_key r c : split_colon (cellKeyFromRC r c) = [pretty r; pretty c].
Proof.
  unfold cellKeyFromRC.
  rewrite split_colon_app, split_colon_colonFree; auto using colonFree_pretty_Z.
Qed.

Lemma parseDigits_pretty_N_go x acc s :
  ∃ acc', parseDigits acc (pretty_N_go x s) = parseDigits acc' s
          ∧ (acc = 0 → acc' = Z.of_N x).
Proof.
  revert acc s. induction (N.lt_wf_0 x) as [x _ IH]. intros acc s.
  destruct (decide (x = 0)%N) as [-> | Hx].
  { rewrite pretty_N_go_0. exists acc. by split. }
  rewrite pretty_N_go_step by lia.
  destruct (IH (x `div` 10)%N) with (acc := acc) (s := String (pretty_N_char (x `mod` 10)) s)
    as (acc1 & -> & Hacc1).
  { apply N.div_lt; lia. }
  cbn [parseDigits]. rewrite pretty_N_char_digit by (apply N.mod_lt; lia).
  eexists. split; [reflexivity |].
  intros ->. rewrite Hacc1 by done.
  pose proof (N.div_mod x 10 ltac:(done)) as Hdm.
  set (q := (x `div` 10)%N) in *. set (m := (x `mod` 10)%N) in *.
  clearbody q m. lia.
Qed.

Lemma startsWithDigit_pretty_N_go x s :
  (0 < x)%N → startsWithDigit (pretty_N_go x s) = true.
Proof.
  revert s. induction (N.lt_wf_0 x) as [x _ IH]. intros s Hx.
  rewrite pretty_N_go_step by done.
  destruct (decide (x `div` 10 = 0)%N) as [-> | Hd].
  - rewrite pretty_N_go_0. cbn [startsWithDigit].
    rewrite pretty_N_char_digit by (apply N.mod_lt; lia).
    by apply bool_decide_eq_true_2.
  - apply IH; [apply N.div_lt; lia | by apply N.neq_0_lt_0].
Qed.

Lemma startsWithDigit_plain s :
  startsWithDigit s = true →
  ∃ a s', s = String a s' ∧ isSpace a = false
          ∧ (N_of_ascii a =? 45)%N = false ∧ (N_of_ascii a =? 43)%N = false.
Proof.
  destruct s as [| a s']; [done |]. cbn [startsWithDigit].
  intros [d Hd]%bool_decide_eq_true_1. exists a, s'. split; [done |].
  unfold digitOf in Hd. unfold isSpace.
  destruct (48 <=? N_of_ascii a)%N eqn:H1; [| done].
  destruct (N_of_ascii a <=? 57)%N eqn:H2; [| done].
  apply N.leb_le in H1, H2.
  split.
  { apply orb_false_iff. split; [apply N.eqb_neq; lia |].
    apply andb_false_iff. right. apply N.leb_gt. lia. }
  split; apply N.eqb_neq; lia.
Qed.

Lemma parseInt_pretty_pos (p : positive) : parseInt (Some (pretty p)) = Some (Z.pos p).
Proof.
  unfold pretty, pretty_positive, pretty, pretty_N.
  case_decide; [done |].
  pose proof (startsWithDigit_pretty_N_go (N.pos p) "") as Hstart.
  destruct (parseDigits_pretty_N_go (N.pos p) 0 "") as (acc & Hparse & Hacc).
  rewrite Hacc in Hparse by done. cbn [parseDigits] in Hparse.
  destruct (startsWithDigit_plain _ (Hstart ltac:(lia))) as (a & s' & Heq & Hsp & Hm & Hpl).
  unfold parseInt. cbn [mbind option_bind]. rewrite Heq in *.
  cbn [trimStart]. rewrite Hsp, Hm, Hpl, Hstart by lia. by rewrite Hparse.
Qed.

Lemma parseInt_pretty (z : Z) : parseInt (Some (pretty z)) = Some z.
Proof.
  destruct z as [| p | p]; [done | apply parseInt_pretty_pos |].
  change (pretty (Z.neg p)) with (String "-" (pretty p)).
  pose proof (parseInt_pretty_pos p) as Hp.
  unfold pretty, pretty_positive, pretty, pretty_N in *.
  case_decide; [done |].
  pose proof (startsWithDigit_pretty_N_go (N.pos p) "" ltac:(lia)) as Hstart.
  destruct (startsWithDigit_plain _ Hstart) as (a & s' & Heq & Hsp & Hm & Hpl).
  unfold parseInt in *. cbn [mbind option_bind] in *.
  cbn [trimStart]. change (isSpace "-") with false. cbv iota.
  change (N_of_ascii "-" =? 45)%N with true. cbv iota.
  rewrite Hstart.
  rewrite Heq in Hp. cbn [trimStart] in Hp. rewrite Hsp, Hm, Hpl in Hp.
  rewrite <- Heq in Hp. rewrite Hstart in Hp.
  injection Hp as Hp. by rewrite Hp.
Qed.

(** ** Syncs, refreshes and position updates *)

Section RenderFacts.
Variable luck : string → Q.
Variable cfg : Config.

Lemma alerts_quiet (p : Call → bool) l :
  (∀ c, p c = true → isAlert c = false) →
  Forall (λ c, p c = true) l → alerts l = [].
Proof.
  intros Hp Hall. apply alerts_no_alert, count_none.
  eapply Forall_impl; [exact Hall | exact Hp].
Qed.

Lemma alerts_checkWin s :
  alerts (calls (checkWin cfg s)) = alerts (calls s) ++ winOf cfg (inventory s).
Proof.
  unfold checkWin, winOf. destruct (inventory s) as [i |]; [| by rewrite app_nil_r].
  destruct (TARGET cfg <=? value i); [| by rewrite app_nil_r].
  cbn [calls call]. unfold alerts. cbn [omap list_omap]. by rewrite reverse_cons.
Qed.

Lemma visibleCells_checkWin s : visibleCells (checkWin cfg s) = visibleCells s.
Proof.
  unfold checkWin. destruct (inventory s) as [i |]; [| done]. by destruct (_ <=? _).
Qed.

(** The whole of [syncGridToPlayerWindow]. *)
Lemma sync_spec viewport s :
  let w := playerVisibleCellRange cfg viewport in
  ∃ s' n1,
    syncGridToPlayerWindow luck cfg viewport s = Some s'
    ∧ dom (visibleCells s') = windowKeys w
    ∧ (∀ k, tokenStore s' !! k
            = if MEMORYLESS cfg && bool_decide (k ∈ staleKeys w s)
              then None else tokenStore s !! k)
    ∧ inventory s' = inventory s
    ∧ playerCell s' = playerCell s
    ∧ currentMovementMode s' = currentMovementMode s
    ∧ buttonMovement s' = buttonMovement s
    ∧ localStorage s' = localStorage s
    ∧ lastMemento s' = Some (serializeState cfg s)
    ∧ saveTimer s' = true
    ∧ calls s'
      = reverse (destroyCalls (visibleCells s) (elements (staleKeys w s))) ++ n1 ++ calls s
    ∧ length n1 = (2 * length (cellsOf w))%nat
    ∧ count isDestroy n1 = 0%nat
    ∧ count isAlert n1 = 0%nat
    ∧ count isSetVisual n1 = length (cellsOf w)
    ∧ (windowKeys w ⊆ dom (visibleCells s) → count isCreate n1 = 0%nat).
Proof.
  intros w. unfold syncGridToPlayerWindow. fold w.
  destruct (syncWindow_spec luck cfg w (saveMemento cfg s))
    as (s' & n1 & -> & Hdom & Htok & Hf & Hc & Hrest).
  unfold staleKeys in *.
  rewrite visibleCells_saveMemento, calls_saveMemento in *.
  rewrite tokenStore_saveMemento in Htok.
  destruct Hf as (Hi & Hp & Hm & Hl & Ht & Hls & Hb).
  exists s', n1. split; [done |]. split; [done |]. split; [done |].
  rewrite Hi, Hp, Hm, Hb, Hls, Hl, Ht.
  rewrite inventory_saveMemento, playerCell_saveMemento,
    currentMovementMode_saveMemento, buttonMovement_saveMemento,
    localStorage_saveMemento, lastMemento_saveMemento, saveTimer_saveMemento.
  repeat (split; [done |]). exact Hrest.
Qed.

Lemma refresh_loop l s :
  (∀ e, e ∈ l → ∃ r c, e.1 = cellKeyFromRC r c) →
  ∃ s' news,
    foldl (refreshCell luck cfg) (Some s) l = Some s'
    ∧ viewsOnly s s'
    ∧ calls s' = news ++ calls s
    ∧ Forall (λ c, isSetVisual c = true) news
    ∧ dom (visibleCells s') = dom (visibleCells s) ∪ list_to_set (l.*1).
Proof.
  revert s. induction l as [| [k cv] l IH]; intros s Hwf.
  - exists s, []. cbn [foldl]. repeat split; try done. set_solver.
  - destruct (Hwf (k, cv)) as (r & c & Hk); [left |]. cbn [fst] in Hk. subst k.
    cbn [foldl]. unfold refreshCell at 2. cbn [mbind option_bind fst snd].
    rewrite split_colon_key. cbn [lookup list_lookup].
    rewrite !parseInt_pretty. cbn [mbind option_bind].
    match goal with |- context [foldl _ (Some ?x) l] => set (s1 := x) end.
    destruct (IH s1) as (s2 & n2 & -> & Hv2 & Hc2 & Hall2 & Hdom2).
    { intros e He. apply Hwf. by right. }
    exists s2, (n2 ++ [setVisual (CellView.row cv) (CellView.col cv)
                        (getEffectiveValue luck s r c) (inRange cfg s r c)]).
    split; [done |].
    split; [eapply viewsOnly_trans; [apply viewsOnly_setVisual | exact Hv2] |].
    split; [rewrite Hc2; unfold s1; cbn [calls CellView_setVisual call]; by rewrite <- app_assoc |].
    split; [apply Forall_app; split; [done | by constructor] |].
    rewrite Hdom2. unfold s1. cbn [visibleCells CellView_setVisual call set_visibleCells].
    rewrite dom_insert_L. cbn [fmap list_fmap fst list_to_set]. set_solver.
Qed.

Lemma refreshVisibleCells_spec s :
  (∀ k, k ∈ dom (visibleCells s) → ∃ r c, k = cellKeyFromRC r c) →
  ∃ s' news,
    refreshVisibleCells luck cfg s = Some s'
    ∧ viewsOnly s s'
    ∧ calls s' = news ++ calls s
    ∧ Forall (λ c, isSetVisual c = true) news
    ∧ dom (visibleCells s') = dom (visibleCells s).
Proof.
  intros Hwf. unfold refreshVisibleCells.
  destruct (refresh_loop (map_to_list (visibleCells s)) s)
    as (s' & news & Heq & Hv & Hc & Hall & Hdom).
  { intros [k cv] Hin. apply elem_of_map_to_list in Hin. apply Hwf.
    apply elem_of_dom. by eexists. }
  exists s', news. repeat (split; [done |]).
  rewrite Hdom. apply set_eq. intros k.
  rewrite elem_of_union, elem_of_list_to_set, list_elem_of_fmap. split; [| by left].
  intros [? | ([k' cv] & -> & Hin)]; [done |].
  apply elem_of_map_to_list in Hin. apply elem_of_dom. by eexists.
Qed.

(** The whole of [handleMovementPosition]. *)
Lemma handleMovementPosition_spec viewport la ln s :
  let w := playerVisibleCellRange cfg viewport in
  ∃ s',
    handleMovementPosition luck cfg viewport la ln s = Some s'
    ∧ playerCell s' = latLngToCell la ln
    ∧ inventory s' = inventory s
    ∧ buttonMovement s' = buttonMovement s
    ∧ currentMovementMode s' = currentMovementMode s
    ∧ localStorage s' = localStorage s
    ∧ dom (visibleCells s') = windowKeys w
    ∧ (∀ k, tokenStore s' !! k
            = if MEMORYLESS cfg && bool_decide (k ∈ staleKeys w s)
              then None else tokenStore s !! k)
    ∧ alerts (calls s') = alerts (calls s) ++ winOf cfg (inventory s).
Proof.
  intros w. unfold handleMovementPosition.
  destruct (sync_spec viewport (set_playerCell (latLngToCell la ln) s))
    as (s1 & n1 & -> & Hdom1 & Htok1 & Hi1 & Hp1 & Hm1 & Hb1 & Hls1 & _ & _ & Hc1
        & _ & _ & Ha1 & _).
  fold w in Hdom1, Htok1, Hc1. cbn [mbind option_bind].
  destruct (refreshVisibleCells_spec s1) as (s2 & n2 & -> & Hv2 & Hc2 & Hall2 & Hdom2).
  { intros k Hk. rewrite Hdom1 in Hk. apply elem_of_keysOf in Hk as (r & c & -> & _).
    by exists r, c. }
  cbn [mbind option_bind]. eexists. split; [reflexivity |].
  destruct Hv2 as (Ht2 & Hi2 & Hp2 & Hm2 & _ & _ & Hls2 & Hb2).
  destruct (viewsOnly_checkWin cfg s2) as (Ht3 & Hi3 & Hp3 & Hm3 & _ & _ & Hls3 & Hb3).
  rewrite Hp3, Hp2, Hp1, Hi3, Hi2, Hi1, Hb3, Hb2, Hb1, Hm3, Hm2, Hm1, Hls3, Hls2, Hls1.
  repeat (split; [done |]).
  split; [by rewrite visibleCells_checkWin, Hdom2 |].
  split; [intros k; by rewrite Ht3, Ht2, Htok1 |].
  rewrite alerts_checkWin, Hi2, Hi1, Hc2, Hc1. cbn [inventory set_playerCell calls].
  rewrite !alerts_app.
  rewrite (alerts_quiet isSetVisual n2), (alerts_no_alert n1); [| done | by intros [] | done].
  match goal with |- context [alerts (reverse ?d)] =>
    rewrite (alerts_quiet isDestroy (reverse d));
      [| by intros [] | apply destroyCalls_reverse_all] end.
  by rewrite !app_nil_r.
Qed.
End RenderFacts.

(** ** Events never throw, and leave an absent override absent *)

Section EventFacts.
Variable luck : string → Q.
Variable cfg : Config.

Lemma tokenStore_saveTimerFires throws s :
  tokenStore (saveTimerFires cfg throws s) = tokenStore s.
Proof. unfold saveTimerFires, saveState. by destruct (_ <? _), throws. Qed.

Lemma react_total e s : ∃ s', react luck cfg e s = Some s'.
Proof.
  destruct e as [r c | vp | vp la ln | throws]; cbn [react]; eauto.
  - destruct (sync_spec luck cfg vp s) as (s' & ? & -> & _). eauto.
  - destruct (handleMovementPosition_spec luck cfg vp la ln s) as (s' & -> & _). eauto.
Qed.

Lemma react_keeps_absent e s s' r c :
  react luck cfg e s = Some s' → e ≠ Click r c →
  tokenStore s !! cellKeyFromRC r c = None →
  tokenStore s' !! cellKeyFromRC r c = None.
Proof.
  intros Hre Hne Habs. destruct e as [r' c' | vp | vp la ln | throws]; cbn [react] in Hre.
  - injection Hre as <-. rewrite handleCellClick_other_keys; [done |].
    intros Heq. apply cellKeyFromRC_inj in Heq as [-> ->]. done.
  - destruct (sync_spec luck cfg vp s) as (s1 & ? & Heq & _ & Htok & _).
    rewrite Heq in Hre. injection Hre as <-. rewrite Htok, Habs. by destruct (_ && _).
  - destruct (handleMovementPosition_spec luck cfg vp la ln s)
      as (s1 & Heq & _ & _ & _ & _ & _ & _ & Htok & _).
    rewrite Heq in Hre. injection Hre as <-. rewrite Htok, Habs. by destruct (_ && _).
  - injection Hre as <-. by rewrite tokenStore_saveTimerFires.
Qed.

Lemma run_cons e es s :
  run luck cfg (e :: es) s
  = match react luck cfg e s with Some s1 => run luck cfg es s1 | None => None end.
Proof.
  unfold run. cbn [foldl mbind option_bind].
  destruct (react luck cfg e s) as [s1 |]; [done |].
  induction es as [| e' es IH]; [done | exact IH].
Qed.

Lemma run_keeps_absent es s r c :
  Forall (λ e, e ≠ Click r c) es →
  tokenStore s !! cellKeyFromRC r c = None →
  ∃ s', run luck cfg es s = Some s' ∧ tokenStore s' !! cellKeyFromRC r c = None.
Proof.
  intros Hes. revert s. induction Hes as [| e es He _ IH]; intros s Habs.
  - by exists s.
  - rewrite run_cons. destruct (react_total e s) as (s1 & Hre). rewrite Hre.
    apply IH. by eapply react_keeps_absent.
Qed.
End EventFacts.

(** ** The window manager *)

(** C3. Memoryless eviction: a cell that has a view and is outside the
    window of a sync loses its override in that sync when memoryless mode is
    on; its effective value is then the deterministic baseline, and stays so
    through every later viewport change, position update, save and click on
    other cells (so also once the cell is back in the window). *)
Theorem memoryless_eviction (luck : string → Q) (cfg : Config)
    (viewport : LatLngBounds) (s : State) (r c : Z) (later : list Event) :
  MEMORYLESS cfg = true →
  cellKeyFromRC r c ∈ dom (visibleCells s) →
  ¬ inWindow (playerVisibleCellRange cfg viewport) r c →
  Forall (λ e, e ≠ Click r c) later →
  ∃ s1 s2,
    syncGridToPlayerWindow luck cfg viewport s = Some s1
    ∧ tokenStore s1 !! cellKeyFromRC r c = None
    ∧ getEffectiveValue luck s1 r c = baseTokenValue luck r c
    ∧ run luck cfg later s1 = Some s2
    ∧ getEffectiveValue luck s2 r c = baseTokenValue luck r c.
Proof.
  intros Hmem Hview Hout Hlater.
  destruct (sync_spec luck cfg viewport s) as (s1 & _ & Hsync & _ & Htok & _).
  assert (tokenStore s1 !! cellKeyFromRC r c = None) as Habs.
  { rewrite Htok, Hmem. cbn [andb]. rewrite bool_decide_eq_true_2; [done |].
    unfold staleKeys.
    apply elem_of_difference. split; [done |]. by rewrite elem_of_windowKeys. }
  destruct (run_keeps_absent luck cfg later s1 r c Hlater Habs) as (s2 & Hrun & Habs2).
  exists s1, s2. unfold getEffectiveValue. rewrite Habs, Habs2. done.
Qed.

(** C6. Idempotence: a sync run again over the same viewport, right after a
    sync, constructs no view and destroys none; the set of instantiated
    views and the token store are left as they are. *)
Theorem sync_idempotent (luck : string → Q) (cfg : Config)
    (viewport : LatLngBounds) (s : State) :
  ∃ s1 s2 news,
    syncGridToPlayerWindow luck cfg viewport s = Some s1
    ∧ syncGridToPlayerWindow luck cfg viewport s1 = Some s2
    ∧ calls s2 = news ++ calls s1
    ∧ count isCreate news = 0%nat
    ∧ count isDestroy news = 0%nat
    ∧ dom (visibleCells s2) = dom (visibleCells s1)
    ∧ tokenStore s2 = tokenStore s1.
Proof.
  destruct (sync_spec luck cfg viewport s) as (s1 & _ & Hs1 & Hdom1 & _).
  destruct (sync_spec luck cfg viewport s1)
    as (s2 & n2 & Hs2 & Hdom2 & Htok2 & _ & _ & _ & _ & _ & _ & _ & Hc2 & _ & Hd2 & _ & _ & Hk2).
  assert (staleKeys (playerVisibleCellRange cfg viewport) s1 = ∅) as Hstale.
  { unfold staleKeys. rewrite Hdom1. apply difference_diag_L. }
  rewrite Hstale in Hc2, Htok2. rewrite elements_empty in Hc2.
  exists s1, s2, n2. repeat (split; [done |]).
  split; [rewrite Hk2; [done | by rewrite Hdom1] |].
  split; [done |]. split; [by rewrite Hdom2, Hdom1 |].
  apply map_eq. intros k. rewrite Htok2. by rewrite andb_false_r.
Qed.

(** C9. A malformed window (a minimum above its maximum on an axis): the
    sync runs no per-cell iteration, so the only calls it makes are the
    [destroy] calls, one for each view that existed, and it leaves no view
    instantiated; it returns normally. *)
Theorem sync_malformed_window (luck : string → Q) (cfg : Config)
    (viewport : LatLngBounds) (s : State) :
  malformed (playerVisibleCellRange cfg viewport) →
  ∃ s',
    syncGridToPlayerWindow luck cfg viewport s = Some s'
    ∧ cellsOf (playerVisibleCellRange cfg viewport) = []
    ∧ visibleCells s' = ∅
    ∧ calls s'
      = reverse (destroyCalls (visibleCells s) (elements (dom (visibleCells s)))) ++ calls s
    ∧ length (destroyCalls (visibleCells s) (elements (dom (visibleCells s))))
      = size (visibleCells s).
Proof.
  intros Hbad.
  destruct (sync_spec luck cfg viewport s)
    as (s' & n1 & Hs & Hdom & _ & _ & _ & _ & _ & _ & _ & _ & Hc & Hl & _).
  rewrite (cellsOf_malformed _ Hbad) in Hl. cbn in Hl.
  apply nil_length_inv in Hl. subst n1.
  assert (staleKeys (playerVisibleCellRange cfg viewport) s = dom (visibleCells s)) as Hstale.
  { unfold staleKeys. rewrite (windowKeys_malformed _ Hbad). apply difference_empty_L. }
  rewrite Hstale in Hc. rewrite (windowKeys_malformed _ Hbad) in Hdom.
  exists s'. split; [done |]. split; [by apply cellsOf_malformed |].
  split; [by apply dom_empty_inv_L |]. split; [done |].
  rewrite destroyCalls_length.
  - change (size (dom (visibleCells s)) = size (visibleCells s)). apply size_dom.
  - intros k Hk. by apply elem_of_elements in Hk.
Qed.



Lemma memoryless_eviction_witness :
  ∃ s1 s2,
    syncGridToPlayerWindow luckHalf sourceConfig wideViewport farOverrideState = Some s1
    ∧ tokenStore s1 !! cellKeyFromRC 10 0 = None
    ∧ getEffectiveValue luckHalf s1 10 0 = baseTokenValue luckHalf 10 0
    ∧ run luckHalf sourceConfig
          [ViewportMoved pointViewport; Click 0 0; PositionUpdate wideViewport 0 0] s1
      = Some s2
    ∧ getEffectiveValue luckHalf s2 10 0 = baseTokenValue luckHalf 10 0.
Proof.
  apply (memoryless_eviction luckHalf sourceConfig wideViewport farOverrideState 10 0
           [ViewportMoved pointViewport; Click 0 0; PositionUpdate wideViewport 0 0]).
  - reflexivity.
  - apply elem_of_dom. exists (plainView 10 0). vm_compute. reflexivity.
  - unfold inWindow. vm_compute. intros [[_ H] _]. apply H. reflexivity.
  - repeat constructor; discriminate.
Defined.

Lemma sync_malformed_window_witness :
  ∃ s',
    syncGridToPlayerWindow luckHalf sourceConfig pointViewport twoViewsState = Some s'
    ∧ cellsOf (playerVisibleCellRange sourceConfig pointViewport) = []
    ∧ visibleCells s' = ∅
    ∧ calls s'
      = reverse (destroyCalls (visibleCells twoViewsState)
                   (elements (dom (visibleCells twoViewsState))))
        ++ calls twoViewsState
    ∧ length (destroyCalls (visibleCells twoViewsState)
                (elements (dom (visibleCells twoViewsState))))
      = size (visibleCells twoViewsState).
Proof.
  apply (sync_malformed_window luckHalf sourceConfig pointViewport twoViewsState).
  left. vm_compute. reflexivity.
Defined.

(** ** The deterministic value source *)

(** C4. [baseTokenValue] is a function of the cell alone: it hands [luck]
    the text "cell:" + key of the cell + ":seed1" (an injective encoding of
    the cell with a fixed salt) and thresholds the answer: 2 below 0.14, 4
    below 0.20, 8 below 0.22, otherwise 0; its values lie in {0, 2, 4, 8}.
    This holds whatever [luck] answers. *)
Theorem baseTokenValue_thresholds (luck : string → Q) (r c : Z) :
  let x := luck (luckSituation r c) in
  luckSituation r c = "cell:" +:+ cellKeyFromRC r c +:+ ":seed1"
  ∧ (∀ r' c', luckSituation r' c' = luckSituation r c → r' = r ∧ c' = c)
  ∧ ((x < 14 # 100)%Q → baseTokenValue luck r c = 2)
  ∧ ((14 # 100 <= x)%Q → (x < 20 # 100)%Q → baseTokenValue luck r c = 4)
  ∧ ((20 # 100 <= x)%Q → (x < 22 # 100)%Q → baseTokenValue luck r c = 8)
  ∧ ((22 # 100 <= x)%Q → baseTokenValue luck r c = 0)
  ∧ baseTokenValue luck r c ∈ [0; 2; 4; 8].
Proof.
  intros x. unfold baseTokenValue. fold x.
  split.
  { unfold luckSituation, cellKeyFromRC. by rewrite !string_app_assoc. }
  split; [intros r' c'; apply luckSituation_inj |].
  destruct (Qltb x (14 # 100)) eqn:H14;
    [apply Qltb_lt in H14 | apply Qltb_ge in H14];
  (destruct (Qltb x (20 # 100)) eqn:H20;
    [apply Qltb_lt in H20 | apply Qltb_ge in H20]);
  (destruct (Qltb x (22 # 100)) eqn:H22;
    [apply Qltb_lt in H22 | apply Qltb_ge in H22]);
  repeat split; intros;
    try reflexivity;
    try (repeat constructor; fail);
    exfalso;
    repeat match goal with
    | Hlt : (?a < ?b)%Q, Hle : (?b <= ?a)%Q |- _ => exact (Qlt_not_le _ _ Hlt Hle)
    | Hlt : (x < 14 # 100)%Q, Hle : (20 # 100 <= x)%Q |- _ =>
        apply (Qlt_not_le _ _ Hlt); eapply Qle_trans; [| exact Hle]; done
    | Hlt : (x < 14 # 100)%Q, Hle : (22 # 100 <= x)%Q |- _ =>
        apply (Qlt_not_le _ _ Hlt); eapply Qle_trans; [| exact Hle]; done
    | Hlt : (x < 20 # 100)%Q, Hle : (22 # 100 <= x)%Q |- _ =>
        apply (Qlt_not_le _ _ Hlt); eapply Qle_trans; [| exact Hle]; done
    end.
Qed.

Lemma baseTokenValue_thresholds_witness :
  baseTokenValue luckZero 3 (-7) = 2
  ∧ baseTokenValue (λ _, 15 # 100)%Q 3 (-7) = 4
  ∧ baseTokenValue (λ _, 21 # 100)%Q 3 (-7) = 8
  ∧ baseTokenValue luckHalf 3 (-7) = 0.
Proof.
  split; [| split; [| split]].
  - apply (baseTokenValue_thresholds luckZero 3 (-7)). reflexivity.
  - apply (baseTokenValue_thresholds (λ _, 15 # 100)%Q 3 (-7)); [discriminate | reflexivity].
  - apply (baseTokenValue_thresholds (λ _, 21 # 100)%Q 3 (-7)); [discriminate | reflexivity].
  - apply (baseTokenValue_thresholds luckHalf 3 (-7)). discriminate.
Defined.

(** ** Movement *)

Section MovementFacts.
Variable luck : string → Q.
Variable cfg : Config.

Lemma stepBy_spec viewport dx dy s :
  let old := currentCell (buttonMovement s) in
  let new := {| row := row old + dy; col := col old + dx |} in
  ∃ s',
    stepBy luck cfg viewport dx dy s = (Some s', cellCenterLatLng (row new) (col new))
    ∧ currentCell (buttonMovement s') = new
    ∧ playerCell s' = (if inPosition (buttonMovement s) then new else playerCell s)
    ∧ inventory s' = inventory s.
Proof.
  intros old new. unfold stepBy. fold old. fold new.
  destruct (inPosition (buttonMovement s)) eqn:Hin.
  - match goal with |- context [handleMovementPosition luck cfg viewport ?la ?ln ?x] =>
      destruct (handleMovementPosition_spec luck cfg viewport la ln x)
        as (s' & -> & Hp & Hi & Hb & _) end.
    exists s'. split; [done |]. rewrite Hb, Hp, Hi.
    split; [done |]. split; [apply latLngToCell_center | done].
  - eexists. split; [reflexivity |]. done.
Qed.
End MovementFacts.

(** C8. On the manual-step source, [stepBy(1, 0)] moves the controller's
    cell one column east in the same row; the position it emits is the
    centre of that cell and [latLngToCell] maps it back to the new cell,
    which is what the game takes as the player's cell when the callback is
    registered.  (Coordinates are exact rationals here.) *)
Theorem stepBy_east (luck : string → Q) (cfg : Config)
    (viewport : LatLngBounds) (s : State) :
  let old := currentCell (buttonMovement s) in
  ∃ s' pos,
    stepBy luck cfg viewport 1 0 s = (Some s', pos)
    ∧ col (currentCell (buttonMovement s')) = col old + 1
    ∧ row (currentCell (buttonMovement s')) = row old
    ∧ pos = cellCenterLatLng (row old) (col old + 1)
    ∧ latLngToCell (lat pos) (lng pos) = currentCell (buttonMovement s')
    ∧ playerCell s'
      = (if inPosition (buttonMovement s) then currentCell (buttonMovement s')
         else playerCell s).
Proof.
  intros old.
  destruct (stepBy_spec luck cfg viewport 1 0 s) as (s' & Hstep & Hcell & Hp & _).
  fold old in Hstep, Hcell, Hp. rewrite Z.add_0_r in Hstep, Hcell, Hp.
  exists s', (cellCenterLatLng (row old) (col old + 1)).
  rewrite Hcell, Hp. cbn [row col].
  repeat (split; [done |]). split; [apply latLngToCell_center | done].
Qed.

(** ** The crafting state machine *)

(** The click handler of the persistent revision follows the transition
    table of the specification: an in-range click changes the hand and the
    value of the clicked cell as the table says, a click on which the table
    does nothing leaves the whole state as it is, and so does an
    out-of-range click; no other cell's entry is written. *)
Theorem handleCellClick_follows_table (luck : string → Q) (cfg : Config)
    (r c : Z) (s : State) :
  let s' := handleCellClick luck cfg r c s in
  let hand := handOf (inventory s) in
  let cellValue := getEffectiveValue luck s r c in
  (if inRange cfg s r c
   then (handOf (inventory s'), getEffectiveValue luck s' r c)
        = tableClick (MERGE_RESULT_IN_HAND cfg) hand cellValue
   else s' = s)
  ∧ (if tableActs hand cellValue then True else s' = s)
  ∧ (∀ k, k ≠ cellKeyFromRC r c → tokenStore s' !! k = tokenStore s !! k).
Proof.
  intros s' hand cellValue. split; [| split].
  - destruct (inRange cfg s r c) eqn:Hin.
    + by apply handleCellClick_table.
    + by apply handleCellClick_out_of_range.
  - destruct (tableActs hand cellValue) eqn:Hact; [done |].
    by apply handleCellClick_idle.
  - intros k Hk. by apply handleCellClick_other_keys.
Qed.

Section MainTsFacts.
Variable luck : string → Q.

Lemma mainTs_overrides_saveMemento s :
  MainTs.overrides (MainTs.saveMemento s) = MainTs.overrides s.
Proof. done. Qed.

Lemma mainTs_value_overrides s1 s2 r c :
  MainTs.overrides s1 = MainTs.overrides s2 →
  MainTs.getEffectiveValue luck s1 r c = MainTs.getEffectiveValue luck s2 r c.
Proof. unfold MainTs.getEffectiveValue. by intros ->. Qed.

Lemma mainTs_value_written r c val s :
  MainTs.getEffectiveValue luck (MainTs.setEffectiveValue r c val s) r c = val.
Proof.
  unfold MainTs.getEffectiveValue, MainTs.setEffectiveValue.
  rewrite mainTs_overrides_saveMemento. cbn [MainTs.overrides].
  by rewrite lookup_insert_eq.
Qed.

(** Outside the placement row, [src/src/main.ts] follows the table with the
    merged token left in the cell. *)
Lemma mainTs_click_table r c s :
  MainTs.inRange r c = true →
  let s' := MainTs.handleCellClick luck r c s in
  let hand := handOf (MainTs.inventory s) in
  let cellValue := MainTs.getEffectiveValue luck s r c in
  (handOf (MainTs.inventory s'), MainTs.getEffectiveValue luck s' r c)
  = match hand with
    | Holding h =>
        if (cellValue =? h) && (0 <? h) then tableClick false hand cellValue
        else (hand, cellValue)
    | Empty => tableClick false hand cellValue
    end.
Proof.
  intros Hin. unfold MainTs.handleCellClick. rewrite Hin. cbn [negb].
  unfold tableClick, handOf.
  destruct (MainTs.inventory s) as [[held] |] eqn:Hinv; cbn [value].
  - destruct (_ && _) eqn:Hmerge; [| by rewrite Hinv].
    rewrite (mainTs_value_overrides _ (MainTs.setEffectiveValue r c (held * 2) s))
      by (by destruct (MainTs.TARGET <=? held * 2)).
    rewrite mainTs_value_written. by destruct (MainTs.TARGET <=? held * 2).
  - destruct (0 <? _) eqn:Hpos; [| by rewrite Hinv].
    match goal with
    | |- context [MainTs.call MainTs.drawGridCells
                    (MainTs.saveMemento (MainTs.updateInventoryHUD ?y))] =>
        rewrite (mainTs_value_overrides
                   (MainTs.call MainTs.drawGridCells
                      (MainTs.saveMemento (MainTs.updateInventoryHUD y))) y)
          by done
    end.
    by rewrite mainTs_value_written.
Qed.
End MainTsFacts.

(** [setEffectiveValue] of the first revision records every write, also
    one of the baseline value.  [handleCellClick], its only caller, never
    makes such a write ([mainTs_click_grown] below). *)
Lemma mainTs_setEffectiveValue_keeps_baseline (luck : string → Q)
    (r c : Z) (s : MainTs.State) :
  MainTs.overrides (MainTs.setEffectiveValue r c (baseTokenValue luck r c) s)
    !! MainTs.k r c
  = Some (baseTokenValue luck r c).
Proof. cbn. apply lookup_insert_eq. Qed.

(** In the first revision a hand that holds a token cannot put it down: an
    in-range click on an empty cell leaves the whole state as it is. *)
Lemma mainTs_no_placement (luck : string → Q) (r c h : Z) (s : MainTs.State) :
  MainTs.inRange r c = true →
  MainTs.inventory s = Some {| value := h |} →
  MainTs.getEffectiveValue luck s r c = 0 →
  MainTs.handleCellClick luck r c s = s.
Proof.
  intros Hin Hinv Hzero. unfold MainTs.handleCellClick.
  rewrite Hin, Hinv, Hzero. cbn [negb value].
  destruct (Z.eqb_spec 0 h) as [<- | Hne]; [done |]. done.
Qed.

Section MainTsStore.
Variable luck : string → Q.

Lemma mainTs_k_inj r c r' c' : MainTs.k r c = MainTs.k r' c' → r = r' ∧ c = c'.
Proof. apply cellKeyFromRC_inj. Qed.

Lemma mainTs_click_idle r c s :
  MainTs.inRange r c
  && tableActsNoPlace (handOf (MainTs.inventory s)) (MainTs.getEffectiveValue luck s r c)
  = false →
  MainTs.handleCellClick luck r c s = s.
Proof.
  unfold MainTs.handleCellClick, tableActsNoPlace, handOf.
  destruct (MainTs.inRange r c); cbn [negb andb]; [| done].
  destruct (MainTs.inventory s) as [[held] |]; cbn [value]; by intros ->.
Qed.

(** An acting click writes one override, on the clicked cell: 0 on a cell
    that read a positive value (pick-up), or the double of the positive
    value the cell read (merge). *)
Lemma mainTs_click_acts r c s :
  MainTs.inRange r c
  && tableActsNoPlace (handOf (MainTs.inventory s)) (MainTs.getEffectiveValue luck s r c)
  = true →
  0 < MainTs.getEffectiveValue luck s r c
  ∧ ∃ val, MainTs.overrides (MainTs.handleCellClick luck r c s)
           = <[MainTs.k r c := val]> (MainTs.overrides s)
           ∧ (val = 0 ∨ val = 2 * MainTs.getEffectiveValue luck s r c).
Proof.
  unfold MainTs.handleCellClick, tableActsNoPlace, handOf.
  destruct (MainTs.inRange r c); cbn [negb andb]; [| done].
  destruct (MainTs.inventory s) as [[held] |]; cbn [value].
  - intros Hm. rewrite Hm. apply andb_true_iff in Hm as [Heq%Z.eqb_eq Hpos%Z.ltb_lt].
    split; [lia |]. exists (held * 2).
    split; [by destruct (MainTs.TARGET <=? held * 2) | right; lia].
  - intros Hpos. rewrite Hpos. apply Z.ltb_lt in Hpos.
    split; [done |]. exists 0. split; [done | by left].
Qed.

Lemma mainTs_click_other_keys r c s k :
  k ≠ MainTs.k r c →
  MainTs.overrides (MainTs.handleCellClick luck r c s) !! k = MainTs.overrides s !! k.
Proof.
  intros Hk.
  destruct (MainTs.inRange r c
            && tableActsNoPlace (handOf (MainTs.inventory s))
                 (MainTs.getEffectiveValue luck s r c)) eqn:Hact.
  - destruct (mainTs_click_acts r c s Hact) as (_ & val & -> & _).
    by rewrite lookup_insert_ne.
  - by rewrite mainTs_click_idle.
Qed.

Lemma mainTs_click_grown r c s :
  mainTs_grown luck s → mainTs_grown luck (MainTs.handleCellClick luck r c s).
Proof.
  intros Hinv.
  destruct (MainTs.inRange r c
            && tableActsNoPlace (handOf (MainTs.inventory s))
                 (MainTs.getEffectiveValue luck s r c)) eqn:Hact;
    [| by rewrite mainTs_click_idle].
  destruct (mainTs_click_acts r c s Hact) as (Hpos & val & Hov & Hval).
  intros r' c' val'. rewrite Hov.
  destruct (decide (MainTs.k r' c' = MainTs.k r c)) as [Heq | Hne];
    [| rewrite lookup_insert_ne by done; apply Hinv].
  rewrite Heq, lookup_insert_eq. apply mainTs_k_inj in Heq as [-> ->]. intros [= <-].
  unfold MainTs.getEffectiveValue in Hpos, Hval.
  destruct (MainTs.overrides s !! MainTs.k r c) as [old |] eqn:Hold.
  - destruct (Hinv r c old Hold) as [Hbase [-> | [n ->]]]; [lia |].
    split; [done |]. destruct Hval as [-> | ->]; [by left |].
    right. exists (S n).
    replace (Z.of_nat (S n) + 1) with (Z.succ (Z.of_nat n + 1)) by lia.
    rewrite Z.pow_succ_r by lia. lia.
  - split; [done |]. destruct Hval as [-> | ->]; [by left |].
    right. exists 0%nat. cbn. lia.
Qed.

Lemma mainTs_clicks_grown clicks s :
  mainTs_grown luck s → mainTs_grown luck (mainTs_clicks luck clicks s).
Proof.
  unfold mainTs_clicks. revert s.
  induction clicks as [| [r c] clicks IH]; intros s Hinv; [done |].
  cbn [foldl fst snd]. apply IH. by apply mainTs_click_grown.
Qed.

Lemma mainTs_grown_differs s r c val :
  mainTs_grown luck s → MainTs.overrides s !! MainTs.k r c = Some val →
  val ≠ baseTokenValue luck r c.
Proof.
  intros Hinv Hlk. destruct (Hinv r c val Hlk) as [Hbase [-> | [n ->]]]; [lia |].
  assert (2 ≤ 2 ^ (Z.of_nat n + 1)).
  { replace (Z.of_nat n + 1) with (Z.succ (Z.of_nat n)) by lia.
    rewrite Z.pow_succ_r by lia.
    assert (0 < 2 ^ Z.of_nat n) by (apply Z.pow_pos_nonneg; lia). lia. }
  nia.
Qed.

Lemma setEffectiveValue_sparseStore cfg r c val s :
  sparseStore luck s → sparseStore luck (setEffectiveValue luck cfg r c val s).
Proof.
  intros Hsp r' c' t.
  destruct (decide (cellKeyFromRC r' c' = cellKeyFromRC r c)) as [Heq | Hne].
  - apply cellKeyFromRC_inj in Heq as [-> ->].
    rewrite tokenStore_setEffectiveValue.
    destruct (Z.eqb_spec val (baseTokenValue luck r c)) as [-> | Hval].
    + by rewrite lookup_delete_eq.
    + rewrite lookup_insert_eq. by intros [= <-].
  - rewrite setEffectiveValue_other by done. apply Hsp.
Qed.
End MainTsStore.

(** C1. The store holds only differences from the baseline.  In the
    persistent revision, after [setEffectiveValue] the store holds an entry
    for the written cell exactly when the written value differs from the
    baseline of the cell (so none after a write of the baseline itself),
    and a store without baseline-valued entries stays so.  In the first
    revision [setEffectiveValue] does not compare, and is only called by
    [handleCellClick], with 0 on a cell that reads a positive value or with
    the double of the value the cell reads: after any sequence of clicks
    from the start of the game no override equals the baseline of its cell,
    and a click that writes leaves an entry for the clicked cell. *)
Theorem store_never_holds_baseline (luck : string → Q) :
  (∀ (cfg : Config) (r c val : Z) (s : State),
     (is_Some (tokenStore (setEffectiveValue luck cfg r c val s) !! cellKeyFromRC r c)
      ↔ val ≠ baseTokenValue luck r c)
     ∧ tokenStore (setEffectiveValue luck cfg r c (baseTokenValue luck r c) s)
         !! cellKeyFromRC r c = None
     ∧ (sparseStore luck s → sparseStore luck (setEffectiveValue luck cfg r c val s)))
  ∧ (∀ (clicks : list (Z * Z)) (r c : Z),
       let s := mainTs_clicks luck clicks mainTsInitial in
       let s' := MainTs.handleCellClick luck r c s in
       (∀ r0 c0 val, MainTs.overrides s !! MainTs.k r0 c0 = Some val →
                     val ≠ baseTokenValue luck r0 c0)
       ∧ (s' ≠ s → ∃ val, MainTs.overrides s' !! MainTs.k r c = Some val
                          ∧ val ≠ baseTokenValue luck r c)).
Proof.
  split.
  - intros cfg r c val s. split; [apply setEffectiveValue_sparse |].
    split; [apply setEffectiveValue_baseline | apply setEffectiveValue_sparseStore].
  - intros clicks r c s s'.
    assert (mainTs_grown luck s) as Hs.
    { apply mainTs_clicks_grown. intros r0 c0 val. cbn. by rewrite lookup_empty. }
    split; [intros r0 c0 val; by apply mainTs_grown_differs |].
    intros Hacts.
    destruct (MainTs.inRange r c
              && tableActsNoPlace (handOf (MainTs.inventory s))
                   (MainTs.getEffectiveValue luck s r c)) eqn:Hact.
    + destruct (mainTs_click_acts luck r c s Hact) as (_ & val & Hov & _).
      exists val. assert (MainTs.overrides s' !! MainTs.k r c = Some val) as Hlk
        by (unfold s'; rewrite Hov; apply lookup_insert_eq).
      split; [done |].
      apply (mainTs_grown_differs luck s'); [by apply mainTs_click_grown | done].
    + destruct Hacts. by apply mainTs_click_idle.
Qed.



(** ** Win signals *)

Section WinFacts.
Variable luck : string → Q.
Variable cfg : Config.

Lemma calls_setEffectiveValue r c val s :
  calls (setEffectiveValue luck cfg r c val s) = calls s.
Proof.
  unfold setEffectiveValue. rewrite calls_saveMemento. by destruct (val =? _).
Qed.

Lemma alerts_updateCell r c s :
  alerts (calls (updateCell luck cfg r c s)) = alerts (calls s).
Proof. unfold updateCell. by destruct (_ !! _). Qed.

Lemma alerts_updateInventoryHUD s :
  alerts (calls (updateInventoryHUD s)) = alerts (calls s).
Proof. done. Qed.

(** The tail [updateInventoryHUD(); updateCell(); checkWin()] signals the
    win of the hand it finds. *)
Lemma alerts_click_tail r c x :
  alerts (calls (checkWin cfg (updateCell luck cfg r c (updateInventoryHUD x))))
  = alerts (calls x) ++ winOf cfg (inventory x)
  ∧ inventory (checkWin cfg (updateCell luck cfg r c (updateInventoryHUD x)))
    = inventory x.
Proof.
  destruct (click_tail luck cfg r c x) as (_ & Hi & _). split; [| done].
  rewrite alerts_checkWin, alerts_updateCell, alerts_updateInventoryHUD.
  destruct (viewsOnly_updateCell luck cfg r c (updateInventoryHUD x)) as (_ & -> & _).
  done.
Qed.

Lemma alerts_handleCellClick r c s :
  let s' := handleCellClick luck cfg r c s in
  alerts (calls s')
  = alerts (calls s)
    ++ (if inRange cfg s r c
           && tableActs (handOf (inventory s)) (getEffectiveValue luck s r c)
        then winOf cfg (inventory s') else []).
Proof.
  cbn zeta. unfold handleCellClick, tableActs, handOf.
  destruct (inRange cfg s r c); cbn [negb andb]; [| by rewrite app_nil_r].
  destruct (inventory s) as [[held] |] eqn:Hinv; cbn [value].
  - destruct (_ && _) eqn:Hmerge; cbn [orb].
    + match goal with |- context [checkWin cfg (updateCell luck cfg r c (updateInventoryHUD ?x))] =>
        destruct (alerts_click_tail r c x) as (-> & ->) end.
      destruct (MERGE_RESULT_IN_HAND cfg); cbn [calls inventory set_inventory];
        by rewrite calls_setEffectiveValue.
    + destruct (_ =? 0); [| by rewrite app_nil_r].
      rewrite alerts_updateCell, alerts_updateInventoryHUD.
      cbn [calls set_inventory]. rewrite calls_setEffectiveValue.
      match goal with |- context [updateCell luck cfg r c (updateInventoryHUD ?x)] =>
        destruct (click_tail_place luck cfg r c x) as (_ & -> & _) end.
      cbn [inventory set_inventory winOf]. by rewrite app_nil_r.
  - destruct (0 <? _); [| by rewrite app_nil_r].
    match goal with |- context [checkWin cfg (updateCell luck cfg r c (updateInventoryHUD ?x))] =>
      destruct (alerts_click_tail r c x) as (-> & ->) end.
    by rewrite calls_setEffectiveValue.
Qed.
End WinFacts.

(** Win signals, event by event.  A click signals the win when, and only when,
    it performs a transition of the table and leaves a held value at or
    above the target (a pick-up or a merge into the hand), and then exactly
    once; viewport changes (syncs) and the save timer signal nothing; but a
    position update calls [checkWin] too, and so signals the win again
    whenever the hand holds a value at or above the target, although it
    performs no transition. *)
Theorem win_signals (luck : string → Q) (cfg : Config) (e : Event) (s : State) :
  ∃ s',
    react luck cfg e s = Some s'
    ∧ alerts (calls s')
      = alerts (calls s)
        ++ match e with
           | Click r c =>
               if inRange cfg s r c
                  && tableActs (handOf (inventory s)) (getEffectiveValue luck s r c)
               then winOf cfg (inventory s') else []
           | PositionUpdate _ _ _ => winOf cfg (inventory s)
           | ViewportMoved _ | SaveTimerFired _ => []
           end.
Proof.
  destruct e as [r c | vp | vp la ln | throws]; cbn [react].
  - eexists. split; [reflexivity |]. apply alerts_handleCellClick.
  - destruct (sync_spec luck cfg vp s)
      as (s' & n1 & -> & _ & _ & _ & _ & _ & _ & _ & _ & _ & Hc & _ & _ & Ha & _).
    exists s'. split; [done |]. rewrite Hc, !alerts_app.
    rewrite (alerts_no_alert n1) by done.
    match goal with |- context [alerts (reverse ?d)] =>
      rewrite (alerts_quiet isDestroy (reverse d));
        [| by intros [] | apply destroyCalls_reverse_all] end.
    by rewrite !app_nil_r.
  - destruct (handleMovementPosition_spec luck cfg vp la ln s)
      as (s' & -> & _ & _ & _ & _ & _ & _ & _ & Ha).
    by exists s'.
  - eexists. split; [reflexivity |].
    unfold saveTimerFires, saveState. destruct (_ <? _), throws; by rewrite app_nil_r.
Qed.

(** C5.  The win is signalled again by a position update.  With the
    constants of the source: the player holds 32 and merges with a 32 in
    reach, which signals the win for 64, once; the next position update
    performs no transition (hand and store are as before) and signals the
    win again, through the [checkWin] call that ends
    [handleMovementPosition]. *)
Lemma win_resignaled_by_position_update :
  let s1 := handleCellClick luckHalf sourceConfig 0 0 beforeWinState in
  ∃ s2,
    alerts (calls s1) = [64]
    ∧ handleMovementPosition luckHalf sourceConfig wideViewport
        (lat CLASSROOM) (lng CLASSROOM) s1 = Some s2
    ∧ inventory s2 = inventory s1
    ∧ tokenStore s2 = tokenStore s1
    ∧ alerts (calls s2) = [64; 64].
Proof.
  eexists. split; [by vm_compute |]. split; [vm_compute; reflexivity |].
  by vm_compute.
Qed.

(** ** Persistence *)

Lemma mapM_tokens toks : mapM tokenOfJson (jsonOfToken <$> toks) = Some toks.
Proof.
  induction toks as [| [k [n]] toks IH]; [done |].
  cbn [fmap list_fmap]. cbn [mapM]. rewrite IH. reflexivity.
Qed.

(** Reading a serialized memento back at type [Memento] gives the memento. *)
Lemma asMemento_jsonOfMemento m : asMemento (jsonOfMemento m) = Some m.
Proof.
  destruct m as [toks inv [r c] mode tgt].
  unfold asMemento, jsonOfMemento.
  cbn [Memento.tokens Memento.inventory Memento.playerCell Memento.movementMode
       Memento.target row col].
  destruct mode as [[|] |], tgt as [n |], inv as [[h] |]; cbn [app value jsonOfMode].
  all: cbn [jfield lastMember String.eqb Ascii.eqb Bool.eqb].
  all: rewrite mapM_tokens.
  all: reflexivity.
Qed.

Lemma foldl_insert_lookup (l : list (string * TokenState)) (m0 : gmap string TokenState) k :
  NoDup (l.*1) →
  foldl (λ m e, <[e.1 := e.2]> m) m0 l !! k
  = match (list_to_map l : gmap string TokenState) !! k with
    | Some x => Some x
    | None => m0 !! k
    end.
Proof.
  revert m0. induction l as [| [k0 x0] l IH]; intros m0 Hnd; [done |].
  cbn [fmap list_fmap fst] in Hnd. apply NoDup_cons in Hnd as [Hk0 Hnd].
  cbn [foldl fst snd]. rewrite IH by done. cbn [list_to_map foldr fst snd].
  destruct (decide (k = k0)) as [-> | Hne].
  - rewrite (not_elem_of_list_to_map_1 _ _ Hk0). by rewrite !lookup_insert_eq.
  - by rewrite !lookup_insert_ne.
Qed.

Lemma foldl_insert_map_to_list (m : gmap string TokenState) :
  foldl (λ acc e, <[e.1 := e.2]> acc) ∅ (map_to_list m) = m.
Proof.
  apply map_eq. intros k.
  rewrite foldl_insert_lookup by apply NoDup_fst_map_to_list.
  rewrite list_to_map_to_list, lookup_empty. by destruct (m !! k).
Qed.

Lemma tokenStore_restore_loop (l : list (string * TokenState)) s :
  tokenStore (foldl (λ s e, set_tokenStore (<[e.1 := {| v := v e.2 |}]>) s) s l)
  = foldl (λ m e, <[e.1 := e.2]> m) (tokenStore s) l.
Proof.
  revert s. induction l as [| [k [n]] l IH]; intros s; [done |].
  cbn [foldl]. by rewrite IH.
Qed.

Lemma currentMovementMode_restore_loop (l : list (string * TokenState)) s :
  currentMovementMode (foldl (λ s e, set_tokenStore (<[e.1 := {| v := v e.2 |}]>) s) s l)
  = currentMovementMode s.
Proof.
  revert s. induction l as [| e l IH]; intros s; [done |].
  cbn [foldl]. by rewrite IH.
Qed.

Lemma restoreFromMemento_spec m s :
  let s' := restoreFromMemento m s in
  tokenStore s' = foldl (λ acc e, <[e.1 := e.2]> acc) ∅ (Memento.tokens m)
  ∧ inventory s' = Memento.inventory m
  ∧ playerCell s' = Memento.playerCell m
  ∧ currentMovementMode s'
    = match Memento.movementMode m with Some mode => mode | None => currentMovementMode s end.
Proof.
  destruct m as [toks inv [r c] mode tgt]. unfold restoreFromMemento.
  cbn [Memento.tokens Memento.inventory Memento.playerCell Memento.movementMode row col].
  assert (match inv with Some i => Some {| value := value i |} | None => None end = inv)
    as -> by (by destruct inv as [[h] |]).
  split; [destruct mode; cbn; by rewrite tokenStore_restore_loop |].
  split; [by destruct mode |]. split; [by destruct mode |].
  destruct mode; cbn; [done |].
  by rewrite currentMovementMode_restore_loop.
Qed.

Lemma loadState_saved cfg s s0 :
  localStorage s0 = Some (Text (payloadOf cfg s)) →
  loadState s0 = Some (jsonOfMemento (serializeState cfg s)).
Proof.
  intros Hst. unfold loadState. rewrite Hst. reflexivity.
Qed.

(** The override set restored from a memento does not depend on the order
    in which the entries of the store were listed. *)
Lemma restore_any_order (m : gmap string TokenState) (mem : Memento.t) (s0 : State) :
  Memento.tokens mem ≡ₚ map_to_list m →
  tokenStore (restoreFromMemento mem s0) = m.
Proof.
  intros Hperm.
  destruct (restoreFromMemento_spec mem s0) as (-> & _).
  assert (NoDup ((Memento.tokens mem).*1)) as Hnd.
  { rewrite Hperm. apply NoDup_fst_map_to_list. }
  apply map_eq. intros k. rewrite foldl_insert_lookup by done.
  rewrite (list_to_map_proper _ _ Hnd Hperm), list_to_map_to_list, lookup_empty.
  by destruct (m !! k).
Qed.

(** C7, as the code has it.  A state whose serialized envelope is at most
    200000 characters long, and whose write to the storage does not throw,
    is written by [saveState], and a page load over that storage restores
    the same override set, inventory and player cell (and movement mode);
    the restored override set is the same whatever the order in which the
    entries were listed.  A longer envelope is not written at all, and a
    write that throws is caught: in both cases [saveState] leaves the
    storage as it was. *)
Theorem save_load_roundtrip (cfg : Config) (setItemThrows : bool) (s : State) :
  let size := Z.of_nat (String.length (JSON_stringify (payloadOf cfg s))) in
  (size ≤ 200000 → setItemThrows = false →
     ∃ s', reload (saveState cfg setItemThrows s) = Some s'
           ∧ tokenStore s' = tokenStore s
           ∧ inventory s' = inventory s
           ∧ playerCell s' = playerCell s
           ∧ currentMovementMode s' = currentMovementMode s)
  ∧ (∀ mem s0, Memento.tokens mem ≡ₚ Memento.tokens (serializeState cfg s) →
       tokenStore (restoreFromMemento mem s0) = tokenStore s)
  ∧ (200000 < size ∨ setItemThrows = true → saveState cfg setItemThrows s = s).
Proof.
  intros size. split; [| split; [intros mem s0; apply restore_any_order |]].
  - intros Hsize ->. unfold reload, saveState. fold size.
    rewrite (proj2 (Z.ltb_ge _ _) Hsize). cbn [localStorage set_localStorage].
    unfold loadMemento. rewrite (loadState_saved cfg s) by done.
    rewrite asMemento_jsonOfMemento. cbn [mbind option_bind].
    eexists. split; [reflexivity |].
    match goal with |- context [restoreFromMemento ?m ?x] =>
      destruct (restoreFromMemento_spec m x) as (-> & -> & -> & ->) end.
    cbn [serializeState Memento.tokens Memento.inventory Memento.playerCell
         Memento.movementMode].
    split; [apply foldl_insert_map_to_list |].
    split; [by destruct (inventory s) as [[h] |] |].
    split; [by destruct (playerCell s) |]. done.
  - unfold saveState. fold size. intros [Hsize | ->].
    + by rewrite (proj2 (Z.ltb_lt _ _) Hsize).
    + by destruct (_ <? _).
Qed.

Lemma save_load_roundtrip_witness :
  (∃ s', reload (saveState sourceConfig false midGameState) = Some s'
         ∧ tokenStore s' = tokenStore midGameState
         ∧ inventory s' = inventory midGameState
         ∧ playerCell s' = playerCell midGameState
         ∧ currentMovementMode s' = currentMovementMode midGameState)
  ∧ tokenStore
      (restoreFromMemento
         {| Memento.tokens :=
              reverse (Memento.tokens (serializeState sourceConfig midGameState));
            Memento.inventory := Some {| value := 8 |};
            Memento.playerCell := {| row := 2; col := -2 |};
            Memento.movementMode := Some buttons;
            Memento.target := Some 64 |}
         (freshState None))
    = tokenStore midGameState
  ∧ saveState sourceConfig false crowdedState = crowdedState
  ∧ saveState sourceConfig true midGameState = midGameState.
Proof.
  split; [| split; [| split]].
  - apply (proj1 (save_load_roundtrip sourceConfig false midGameState));
      [by vm_compute | reflexivity].
  - apply (proj1 (proj2 (save_load_roundtrip sourceConfig false midGameState))).
    apply reverse_Permutation.
  - apply (proj2 (proj2 (save_load_roundtrip sourceConfig false crowdedState))).
    left. by vm_compute.
  - apply (proj2 (proj2 (save_load_roundtrip sourceConfig true midGameState))).
    by right.
Defined.

(** C7, the counterexample.  With 13000 overrides the envelope is longer
    than 200000 characters: [saveState] writes nothing, even to a storage
    that accepts writes, and the next page load starts from the default
    state, without the overrides. *)
Lemma oversized_snapshot_is_lost :
  Z.of_nat (String.length (JSON_stringify (payloadOf sourceConfig crowdedState))) = 262008
  ∧ reload (saveState sourceConfig false crowdedState) = Some (freshState None)
  ∧ tokenStore crowdedState !! cellKeyFromRC 0 0 = Some {| v := 16 |}
  ∧ tokenStore (freshState None) !! cellKeyFromRC 0 0 = None.
Proof. by vm_compute. Qed.

(** * Further properties of the code *)

(** ** Keys *)

(** X1. The key of a cell is canonical: two cells have the same key exactly
    when they are the same cell, so the maps keyed by it never confuse two
    cells. *)
Theorem keys_are_canonical (r c r' c' : Z) :
  cellKeyFromRC r c = cellKeyFromRC r' c' ↔ r = r' ∧ c = c'.
Proof.
  split; [apply cellKeyFromRC_inj | by intros [-> ->]].
Qed.

(** X2. What [refreshVisibleCells] does with a key, [kk.split(":")] and
    [parseInt] on the two parts, gives back the row and the column the key
    was built from (negative ones too). *)
Theorem key_reads_back (r c : Z) :
  let parts := split_colon (cellKeyFromRC r c) in
  parseInt (parts !! 0%nat) = Some r ∧ parseInt (parts !! 1%nat) = Some c.
Proof.
  cbn zeta. rewrite split_colon_key. cbn [lookup list_lookup].
  by rewrite !parseInt_pretty.
Qed.

(** ** The store *)

(** X3. A write is read back, and only there: after [setEffectiveValue] the
    effective value of the written cell is the written value, whether the
    store kept an entry or dropped it, and every other cell reads as
    before. *)
Theorem write_then_read (luck : string → Q) (cfg : Config)
    (r c val : Z) (s : State) (r' c' : Z) :
  getEffectiveValue luck (setEffectiveValue luck cfg r c val s) r' c'
  = if bool_decide ((r', c') = (r, c)) then val else getEffectiveValue luck s r' c'.
Proof.
  case_bool_decide as Heq.
  - injection Heq as -> ->. apply getEffectiveValue_setEffectiveValue.
  - by apply getEffectiveValue_setEffectiveValue_other.
Qed.

(** ** Geometry *)

Lemma Qfloor_iff (x : Q) (n : Z) :
  Qfloor x = n ↔ (inject_Z n <= x)%Q ∧ (x < inject_Z (n + 1))%Q.
Proof.
  split.
  - intros <-. split; [apply Qfloor_le | apply Qlt_floor].
  - intros [? ?]. by apply Qfloor_unique.
Qed.

Lemma Qle_sub_r (a x o : Q) : (a <= x - o)%Q ↔ (o + a <= x)%Q.
Proof.
  rewrite (Qle_minus_iff a), (Qle_minus_iff (o + a)).
  assert (x - o + - a == x + - (o + a))%Q as -> by ring. done.
Qed.

Lemma Qlt_sub_l (a x o : Q) : (x - o < a)%Q ↔ (x < o + a)%Q.
Proof.
  rewrite (Qlt_minus_iff (x - o)), (Qlt_minus_iff x).
  assert (a + - (x - o) == o + a + - x)%Q as -> by ring. done.
Qed.

Lemma Qdiv_bounds (x o d : Q) (n : Z) :
  (0 < d)%Q →
  ((inject_Z n <= (x - o) / d)%Q ∧ ((x - o) / d < inject_Z (n + 1))%Q)
  ↔ ((o + inject_Z n * d <= x)%Q ∧ (x < o + inject_Z (n + 1) * d)%Q).
Proof.
  intros Hd.
  assert (~ d == 0)%Q as Hd0 by (intros H0; rewrite H0 in Hd; by apply Qlt_irrefl in Hd).
  assert ((x - o) / d * d == x - o)%Q as Hmul by (field; done).
  rewrite <- (Qmult_le_r _ _ d Hd), <- (Qmult_lt_r _ _ d Hd), Hmul.
  by rewrite Qle_sub_r, Qlt_sub_l.
Qed.

Lemma cellBounds_corners (r c : Z) :
  (lat (southWest (cellBounds r c)) == lat CLASSROOM + inject_Z r * CELL_DEG)%Q
  ∧ (lat (northEast (cellBounds r c)) == lat CLASSROOM + inject_Z (r + 1) * CELL_DEG)%Q
  ∧ (lng (southWest (cellBounds r c)) == lng CLASSROOM + inject_Z c * CELL_DEG)%Q
  ∧ (lng (northEast (cellBounds r c)) == lng CLASSROOM + inject_Z (c + 1) * CELL_DEG)%Q.
Proof.
  assert (∀ (o : Q) (n : Z),
            (o + inject_Z n * CELL_DEG <= o + inject_Z (n + 1) * CELL_DEG)%Q) as Hle.
  { intros o n. apply Qplus_le_r, Qmult_le_compat_r; [| done].
    rewrite <- Zle_Qle. lia. }
  unfold cellBounds, L_latLngBounds. cbn [lat lng southWest northEast].
  repeat split; first [apply Q.min_l | apply Q.max_r]; apply Hle.
Qed.

(** ** More on the click handler *)

Section ClickMore.
Variable luck : string → Q.
Variable cfg : Config.

Local Abbreviation click := (handleCellClick luck cfg).
Local Abbreviation valueAt := (getEffectiveValue luck).

Lemma tableClick_conserves flag hand cellValue :
  let hand' := (tableClick flag hand cellValue).1 in
  let cell' := (tableClick flag hand cellValue).2 in
  match hand' with Holding h => h | Empty => 0 end + cell'
  = match hand with Holding h => h | Empty => 0 end + cellValue.
Proof.
  unfold tableClick. destruct hand as [| h].
  - destruct (0 <? cellValue); cbn; lia.
  - destruct ((cellValue =? h) && (0 <? h)) eqn:Hm.
    + apply andb_true_iff in Hm as [Heq%Z.eqb_eq _]. destruct flag; cbn; lia.
    + destruct (Z.eqb_spec cellValue 0); cbn; lia.
Qed.

Lemma heldValue_handOf i :
  heldValue i = match handOf i with Holding h => h | Empty => 0 end.
Proof. by destruct i. Qed.

Lemma click_other_cells r c s r' c' :
  (r', c') ≠ (r, c) → valueAt (click r c s) r' c' = valueAt s r' c'.
Proof.
  intros Hne. unfold getEffectiveValue.
  rewrite handleCellClick_other_keys; [done |].
  intros Heq. apply cellKeyFromRC_inj in Heq as [-> ->]. done.
Qed.

(** The store after a click: as before, or one [setEffectiveValue] on the
    clicked cell. *)
Lemma click_store r c s :
  tokenStore (click r c s) = tokenStore s
  ∨ ∃ val, tokenStore (click r c s)
           = tokenStore (setEffectiveValue luck cfg r c val s).
Proof.
  unfold handleCellClick.
  destruct (inRange cfg s r c); cbn [negb]; [| by left].
  destruct (inventory s) as [[held] |]; cbn [value].
  - destruct (_ && _).
    + right.
      match goal with |- context [checkWin cfg (updateCell luck cfg r c (updateInventoryHUD ?x))] =>
        destruct (click_tail luck cfg r c x) as (-> & _) end.
      destruct (MERGE_RESULT_IN_HAND cfg); by eexists.
    + destruct (_ =? 0); [| by left]. right.
      match goal with |- context [updateCell luck cfg r c (updateInventoryHUD ?x)] =>
        destruct (click_tail_place luck cfg r c x) as (-> & _) end.
      by eexists.
  - destruct (0 <? _); [| by left]. right.
    match goal with |- context [checkWin cfg (updateCell luck cfg r c (updateInventoryHUD ?x))] =>
      destruct (click_tail luck cfg r c x) as (-> & _) end.
    exists 0. by rewrite !tokenStore_setEffectiveValue.
Qed.

Lemma visibleCells_setEffectiveValue r c val s :
  visibleCells (setEffectiveValue luck cfg r c val s) = visibleCells s.
Proof.
  unfold setEffectiveValue. rewrite visibleCells_saveMemento. by destruct (val =? _).
Qed.

Lemma saveTimer_setEffectiveValue r c val s :
  saveTimer (setEffectiveValue luck cfg r c val s) = true.
Proof. unfold setEffectiveValue. apply saveTimer_saveMemento. Qed.

Lemma dom_visibleCells_updateCell r c s :
  dom (visibleCells (updateCell luck cfg r c s)) = dom (visibleCells s).
Proof.
  unfold updateCell. destruct (visibleCells s !! keyOf r c) as [cv |] eqn:Hcv; [| done].
  cbn. rewrite dom_insert_L.
  assert (keyOf r c ∈ dom (visibleCells s)) by (apply elem_of_dom; by eexists).
  set_solver.
Qed.

Lemma dom_visibleCells_checkWin s :
  dom (visibleCells (checkWin cfg s)) = dom (visibleCells s).
Proof. by rewrite visibleCells_checkWin. Qed.

Lemma updateCell_shows r c s cv :
  visibleCells s !! cellKeyFromRC r c = Some cv →
  ∃ cv', visibleCells (updateCell luck cfg r c s) !! cellKeyFromRC r c = Some cv'
         ∧ CellView.row cv' = CellView.row cv ∧ CellView.col cv' = CellView.col cv
         ∧ shows luck cfg s r c cv'.
Proof.
  intros Hcv. unfold updateCell, keyOf. rewrite Hcv. cbn.
  rewrite lookup_insert_eq. eexists. split; [done |]. by repeat split.
Qed.
End ClickMore.

(** X5. A click neither creates nor loses value: the held value plus the
    effective value of the clicked cell is the same before and after
    (pick-up, merge under either policy, placement, or no-op), and every
    other cell reads as before. *)
Theorem click_conserves_value (luck : string → Q) (cfg : Config) (r c : Z) (s : State) :
  let s' := handleCellClick luck cfg r c s in
  heldValue (inventory s') + getEffectiveValue luck s' r c
  = heldValue (inventory s) + getEffectiveValue luck s r c
  ∧ ∀ r' c', (r', c') ≠ (r, c) →
             getEffectiveValue luck s' r' c' = getEffectiveValue luck s r' c'.
Proof.
  intros s'. split; [| intros r' c'; apply click_other_cells].
  destruct (inRange cfg s r c) eqn:Hin.
  - pose proof (handleCellClick_table luck cfg r c s Hin) as Htab.
    pose proof (tableClick_conserves (MERGE_RESULT_IN_HAND cfg)
                  (handOf (inventory s)) (getEffectiveValue luck s r c)) as Hcons.
    rewrite <- Htab in Hcons. cbn [fst snd] in Hcons.
    by rewrite !heldValue_handOf.
  - unfold s'. by rewrite handleCellClick_out_of_range.
Qed.

Section ClickShape.
Variable luck : string → Q.
Variable cfg : Config.

Local Abbreviation click := (handleCellClick luck cfg).

(** What a write leaves alone. *)
Lemma setEffectiveValue_frame r c val s :
  let x := setEffectiveValue luck cfg r c val s in
  playerCell x = playerCell s ∧ buttonMovement x = buttonMovement s
  ∧ currentMovementMode x = currentMovementMode s ∧ localStorage x = localStorage s
  ∧ visibleCells x = visibleCells s ∧ calls x = calls s ∧ inventory x = inventory s
  ∧ saveTimer x = true.
Proof.
  cbn zeta. unfold setEffectiveValue.
  rewrite playerCell_saveMemento, buttonMovement_saveMemento,
    currentMovementMode_saveMemento, localStorage_saveMemento,
    visibleCells_saveMemento, calls_saveMemento, inventory_saveMemento,
    saveTimer_saveMemento.
  by destruct (val =? _).
Qed.

(** An acting click is a write on the clicked cell and a new hand, followed
    by the HUD update, the update of the cell's view and, except after a
    placement, the win check. *)
Lemma click_acts r c s :
  inRange cfg s r c = true →
  tableActs (handOf (inventory s)) (getEffectiveValue luck s r c) = true →
  ∃ x (win : bool),
    click r c s
    = (if win then checkWin cfg else id) (updateCell luck cfg r c (updateInventoryHUD x))
    ∧ playerCell x = playerCell s ∧ buttonMovement x = buttonMovement s
    ∧ currentMovementMode x = currentMovementMode s ∧ localStorage x = localStorage s
    ∧ visibleCells x = visibleCells s ∧ calls x = calls s
    ∧ saveTimer x = true.
Proof.
  intros Hin Hact. unfold handleCellClick, tableActs, handOf in *. rewrite Hin. cbn [negb].
  destruct (inventory s) as [[held] |]; cbn [value] in *.
  - destruct (_ && _) eqn:Hm.
    + destruct (MERGE_RESULT_IN_HAND cfg).
      * eexists _, true. split; [reflexivity |].
        destruct (setEffectiveValue_frame r c 0 s) as (? & ? & ? & ? & ? & ? & _ & ?).
        by repeat split.
      * eexists _, true. split; [reflexivity |].
        destruct (setEffectiveValue_frame r c (held * 2) s) as (? & ? & ? & ? & ? & ? & _ & ?).
        by repeat split.
    + cbn [orb] in Hact. rewrite Hact.
      eexists _, false. split; [reflexivity |].
      destruct (setEffectiveValue_frame r c held s) as (? & ? & ? & ? & ? & ? & _ & ?).
      by repeat split.
  - rewrite Hact. eexists _, true. split; [reflexivity |].
    match goal with |- context [setEffectiveValue luck cfg r c 0 ?y] =>
      destruct (setEffectiveValue_frame r c 0 y) as (? & ? & ? & ? & ? & ? & _ & ?) end.
    by repeat split.
Qed.

Lemma finish_frame (win : bool) r c x :
  let s' := (if win then checkWin cfg else id)
              (updateCell luck cfg r c (updateInventoryHUD x)) in
  viewsOnly x s'
  ∧ dom (visibleCells s') = dom (visibleCells x)
  ∧ (∀ k, k ≠ cellKeyFromRC r c → visibleCells s' !! k = visibleCells x !! k)
  ∧ ∃ pre, calls s' = pre ++ hudText (value <$> inventory x) :: calls x
           ∧ Forall (λ e, isSetVisual e || isAlert e = true) pre
           ∧ (length pre ≤ 2)%nat.
Proof.
  cbn zeta.
  set (y := updateCell luck cfg r c (updateInventoryHUD x)).
  assert (viewsOnly x y) as Hxy by apply click_tail_place.
  assert (dom (visibleCells y) = dom (visibleCells x)) as Hdom
    by (unfold y; by rewrite dom_visibleCells_updateCell).
  assert (∀ k, k ≠ cellKeyFromRC r c → visibleCells y !! k = visibleCells x !! k) as Hlk.
  { intros k Hk. unfold y, updateCell, keyOf. cbn [visibleCells updateInventoryHUD call].
    destruct (visibleCells x !! cellKeyFromRC r c); [| done]. cbn.
    by rewrite lookup_insert_ne. }
  assert (∃ pre, calls y = pre ++ hudText (value <$> inventory x) :: calls x
                 ∧ Forall (λ e, isSetVisual e || isAlert e = true) pre
                 ∧ (length pre ≤ 1)%nat) as (pre & Hc & Hall & Hlen).
  { unfold y, updateCell. cbn [visibleCells updateInventoryHUD call].
    destruct (visibleCells x !! keyOf r c).
    - eexists [_]. split; [reflexivity |]. split; [by repeat constructor | cbn; lia].
    - exists []. split; [reflexivity |]. split; [constructor | cbn; lia]. }
  destruct win; cbn [id].
  - split; [eapply viewsOnly_trans; [exact Hxy | apply viewsOnly_checkWin] |].
    rewrite visibleCells_checkWin. split; [done |]. split; [done |].
    unfold checkWin. destruct (inventory y) as [i |].
    + destruct (_ <=? _).
      * exists (alert (value i) :: pre). cbn [calls call]. rewrite Hc.
        split; [done |]. split; [by constructor | cbn; lia].
      * exists pre. split; [done |]. split; [done | lia].
    + exists pre. split; [done |]. split; [done | lia].
  - split; [done |]. split; [done |]. split; [done |].
    exists pre. split; [done |]. split; [done | lia].
Qed.
End ClickShape.

(** X6. What a click never does: it does not move the player or the manual
    controller, change the movement mode or write the storage item; it
    constructs no view and destroys none, and the set of registered views
    stays the same. *)
Theorem click_frame (luck : string → Q) (cfg : Config) (r c : Z) (s : State) :
  let s' := handleCellClick luck cfg r c s in
  playerCell s' = playerCell s
  ∧ buttonMovement s' = buttonMovement s
  ∧ currentMovementMode s' = currentMovementMode s
  ∧ localStorage s' = localStorage s
  ∧ dom (visibleCells s') = dom (visibleCells s)
  ∧ ∃ news, calls s' = news ++ calls s
            ∧ count isCreate news = 0%nat ∧ count isDestroy news = 0%nat.
Proof.
  intros s'.
  destruct (inRange cfg s r c
            && tableActs (handOf (inventory s)) (getEffectiveValue luck s r c)) eqn:Hact.
  - apply andb_true_iff in Hact as [Hin Hact].
    destruct (click_acts luck cfg r c s Hin Hact)
      as (x & win & Heq & Hp & Hb & Hm & Hls & Hvis & Hc & _).
    destruct (finish_frame luck cfg win r c x)
      as ((_ & _ & Hp' & Hm' & _ & _ & Hls' & Hb') & Hdom & _ & pre & Hcalls & Hall & _).
    unfold s'. rewrite Heq, Hp', Hb', Hm', Hls', Hdom, Hcalls, Hp, Hb, Hm, Hls, Hvis, Hc.
    repeat (split; [done |]).
    exists (pre ++ [hudText (value <$> inventory x)]).
    rewrite <- app_assoc. split; [done |].
    rewrite !count_app.
    rewrite (count_none isCreate pre), (count_none isDestroy pre); [done | |].
    + eapply Forall_impl; [exact Hall |]. by intros [].
    + eapply Forall_impl; [exact Hall |]. by intros [].
  - assert (s' = s) as ->.
    { apply andb_false_iff in Hact as [Hin | Hidle].
      - by apply handleCellClick_out_of_range.
      - by apply handleCellClick_idle. }
    repeat (split; [done |]). by exists [].
Qed.

(** X7. A click that performs a transition shows it and schedules its
    save: the HUD is given the new hand, the view of the clicked cell, when
    there is one, is restyled to the cell's new value and reachability,
    every other view is left alone, and a save is pending. *)
Theorem acting_click_is_shown_and_saved (luck : string → Q) (cfg : Config)
    (r c : Z) (s : State) :
  inRange cfg s r c = true →
  tableActs (handOf (inventory s)) (getEffectiveValue luck s r c) = true →
  let s' := handleCellClick luck cfg r c s in
  saveTimer s' = true
  ∧ (∃ pre, calls s' = pre ++ hudText (value <$> inventory s') :: calls s
            ∧ Forall (λ e, isSetVisual e || isAlert e = true) pre)
  ∧ (∀ cv, visibleCells s !! cellKeyFromRC r c = Some cv →
           ∃ cv', visibleCells s' !! cellKeyFromRC r c = Some cv'
                  ∧ CellView.row cv' = CellView.row cv
                  ∧ CellView.col cv' = CellView.col cv
                  ∧ shows luck cfg s' r c cv')
  ∧ (∀ k, k ≠ cellKeyFromRC r c → visibleCells s' !! k = visibleCells s !! k).
Proof.
  intros Hin Hact s'.
  destruct (click_acts luck cfg r c s Hin Hact)
    as (x & win & Heq & Hp & Hb & Hm & Hls & Hvis & Hc & Hst).
  destruct (finish_frame luck cfg win r c x)
    as (Hv & Hdom & Hlk & pre & Hcalls & Hall & _).
  unfold s'. rewrite Heq.
  split; [destruct Hv as (_ & _ & _ & _ & _ & -> & _); exact Hst |].
  split.
  { exists pre. destruct Hv as (_ & -> & _). by rewrite Hcalls, Hc. }
  split.
  - intros cv Hcv. rewrite <- Hvis in Hcv.
    destruct (updateCell_shows luck cfg r c (updateInventoryHUD x) cv Hcv)
      as (cv' & Hcv' & Hr & Hcol & Hshow).
    exists cv'. split.
    { destruct win; cbn [id]; [by rewrite visibleCells_checkWin | done]. }
    split; [done |]. split; [done |].
    unfold shows in *.
    rewrite (viewsOnly_getEffectiveValue luck x _ r c Hv).
    rewrite (viewsOnly_inRange cfg x _ r c Hv).
    rewrite (viewsOnly_getEffectiveValue luck x (updateInventoryHUD x) r c) in Hshow
      by apply viewsOnly_updateInventoryHUD.
    rewrite (viewsOnly_inRange cfg x (updateInventoryHUD x) r c) in Hshow
      by apply viewsOnly_updateInventoryHUD.
    done.
  - intros k Hk. by rewrite Hlk, Hvis.
Qed.

Lemma acting_click_is_shown_and_saved_witness :
  let s := twoViewsState in
  let s' := handleCellClick luckZero sourceConfig 0 0 s in
  saveTimer s' = true
  ∧ (∃ pre, calls s' = pre ++ hudText (value <$> inventory s') :: calls s
            ∧ Forall (λ e, isSetVisual e || isAlert e = true) pre)
  ∧ (∀ cv, visibleCells s !! cellKeyFromRC 0 0 = Some cv →
           ∃ cv', visibleCells s' !! cellKeyFromRC 0 0 = Some cv'
                  ∧ CellView.row cv' = CellView.row cv
                  ∧ CellView.col cv' = CellView.col cv
                  ∧ shows luckZero sourceConfig s' 0 0 cv')
  ∧ (∀ k, k ≠ cellKeyFromRC 0 0 → visibleCells s' !! k = visibleCells s !! k).
Proof.
  apply (acting_click_is_shown_and_saved luckZero sourceConfig 0 0 twoViewsState).
  - vm_compute. reflexivity.
  - vm_compute. reflexivity.
Defined.

(** ** Invariants of the running game *)

Section Invariants.
Variable luck : string → Q.
Variable cfg : Config.

(** Any predicate kept by every event is kept by every run, and the run
    does not throw. *)
Lemma run_invariant (P : State → Prop) :
  (∀ e s s', P s → react luck cfg e s = Some s' → P s') →
  ∀ es s, P s → ∃ s', run luck cfg es s = Some s' ∧ P s'.
Proof.
  intros Hstep es. induction es as [| e es IH]; intros s HP.
  - by exists s.
  - rewrite run_cons. destruct (react_total luck cfg e s) as (s1 & Hre). rewrite Hre.
    apply IH. by eapply Hstep.
Qed.

(** Events other than clicks keep the hand, and change the store at most
    by dropping entries. *)
Lemma react_store_shrinks e s s' :
  react luck cfg e s = Some s' → (∀ r c, e ≠ Click r c) →
  inventory s' = inventory s
  ∧ ∀ k, tokenStore s' !! k = tokenStore s !! k ∨ tokenStore s' !! k = None.
Proof.
  intros Hre Hne. destruct e as [r c | vp | vp la ln | throws]; cbn [react] in Hre.
  - by destruct (Hne r c).
  - destruct (sync_spec luck cfg vp s) as (s1 & ? & Heq & _ & Htok & Hi & _).
    rewrite Heq in Hre. injection Hre as <-. split; [done |].
    intros k. rewrite Htok. destruct (_ && _); [by right | by left].
  - destruct (handleMovementPosition_spec luck cfg vp la ln s)
      as (s1 & Heq & _ & Hi & _ & _ & _ & _ & Htok & _).
    rewrite Heq in Hre. injection Hre as <-. split; [done |].
    intros k. rewrite Htok. destruct (_ && _); [by right | by left].
  - injection Hre as <-. split; [| intros k; left; by rewrite tokenStore_saveTimerFires].
    unfold saveTimerFires, saveState. by destruct (_ <? _), throws.
Qed.

Lemma baseTokenValue_isTokenValue r c : isTokenValue (baseTokenValue luck r c).
Proof.
  unfold baseTokenValue, isTokenValue.
  destruct (Qltb _ _); [right; by exists 0%nat |].
  destruct (Qltb _ _); [right; by exists 1%nat |].
  destruct (Qltb _ _); [right; by exists 2%nat | by left].
Qed.

Lemma isTokenValue_double h : 0 < h → isTokenValue h → isTokenValue (h * 2).
Proof.
  intros Hpos [-> | [n ->]]; [lia |]. right. exists (S n).
  replace (Z.of_nat (S n) + 1) with (Z.succ (Z.of_nat n + 1)) by lia.
  rewrite Z.pow_succ_r by lia. lia.
Qed.

Lemma tableClick_isTokenValue flag hand cellValue :
  isTokenValue (match hand with Holding h => h | Empty => 0 end) →
  isTokenValue cellValue →
  isTokenValue (match (tableClick flag hand cellValue).1 with Holding h => h | Empty => 0 end)
  ∧ isTokenValue (tableClick flag hand cellValue).2.
Proof.
  intros Hh Hc. unfold tableClick. destruct hand as [| h].
  - destruct (0 <? cellValue); cbn; [split; [done | by left] | done].
  - destruct ((cellValue =? h) && (0 <? h)) eqn:Hm.
    + apply andb_true_iff in Hm as [_ Hpos%Z.ltb_lt].
      destruct flag; cbn.
      * split; [by apply isTokenValue_double | by left].
      * split; [by left | by apply isTokenValue_double].
    + destruct (cellValue =? 0); cbn [fst snd]; (split; first [assumption | by left]).
Qed.

Lemma click_wellValued r c s :
  wellValued luck s → wellValued luck (handleCellClick luck cfg r c s).
Proof.
  intros [Hh Hc].
  destruct (inRange cfg s r c) eqn:Hin;
    [| by rewrite handleCellClick_out_of_range].
  pose proof (handleCellClick_table luck cfg r c s Hin) as Htab.
  pose proof (tableClick_isTokenValue (MERGE_RESULT_IN_HAND cfg)
                (handOf (inventory s)) (getEffectiveValue luck s r c)) as Hstep.
  rewrite <- Htab, <- !heldValue_handOf in Hstep. cbn [fst snd] in Hstep.
  destruct (Hstep Hh (Hc r c)) as [Hh' Hc']. split; [by rewrite heldValue_handOf |].
  intros r' c'. destruct (decide ((r', c') = (r, c))) as [[= -> ->] | Hne]; [done |].
  rewrite click_other_cells; done.
Qed.

Lemma react_wellValued e s s' :
  wellValued luck s → react luck cfg e s = Some s' → wellValued luck s'.
Proof.
  intros Hw Hre.
  destruct e as [r c | vp | vp la ln | throws] eqn:He.
  { injection Hre as <-. by apply click_wellValued. }
  all: rewrite <- He in Hre;
    destruct (react_store_shrinks e s s' Hre) as [Hi Htok]; [by subst e |];
    destruct Hw as [Hh Hc]; split; [by rewrite Hi |];
    intros r c; unfold getEffectiveValue;
    destruct (Htok (cellKeyFromRC r c)) as [-> | ->];
    [apply Hc | apply baseTokenValue_isTokenValue].
Qed.

Lemma click_sparseStore r c s :
  sparseStore luck s → sparseStore luck (handleCellClick luck cfg r c s).
Proof.
  intros Hsp r' c' t.
  destruct (click_store luck cfg r c s) as [-> | [val ->]]; [apply Hsp |].
  destruct (decide (cellKeyFromRC r' c' = cellKeyFromRC r c)) as [Heq | Hne].
  - apply cellKeyFromRC_inj in Heq as [-> ->].
    rewrite tokenStore_setEffectiveValue.
    destruct (Z.eqb_spec val (baseTokenValue luck r c)) as [-> | Hval].
    + by rewrite lookup_delete_eq.
    + rewrite lookup_insert_eq. by intros [= <-].
  - rewrite setEffectiveValue_other by done. apply Hsp.
Qed.

Lemma react_sparseStore e s s' :
  sparseStore luck s → react luck cfg e s = Some s' → sparseStore luck s'.
Proof.
  intros Hsp Hre.
  destruct e as [r c | vp | vp la ln | throws] eqn:He.
  { injection Hre as <-. by apply click_sparseStore. }
  all: rewrite <- He in Hre;
    destruct (react_store_shrinks e s s' Hre) as [_ Htok]; [by subst e |];
    intros r c t; destruct (Htok (cellKeyFromRC r c)) as [-> | ->];
    [apply Hsp | done].
Qed.
End Invariants.

(** X8. Sparse storage is an invariant of the running game: when no stored
    override equals the baseline of its cell, no clicks, viewport changes,
    position updates or saves make one that does (and none of them throws).
    A stored override is therefore always a real difference from the
    generated world. *)
Theorem store_stays_sparse (luck : string → Q) (cfg : Config)
    (es : list Event) (s : State) :
  sparseStore luck s →
  ∃ s', run luck cfg es s = Some s' ∧ sparseStore luck s'.
Proof. apply run_invariant. intros e s1 s2. apply react_sparseStore. Qed.

Lemma store_stays_sparse_witness :
  ∃ s', run luckZero sourceConfig
          [Click 0 0; ViewportMoved wideViewport; Click 0 0; SaveTimerFired false]
          (freshState None) = Some s'
        ∧ sparseStore luckZero s'.
Proof.
  apply (store_stays_sparse luckZero sourceConfig
           [Click 0 0; ViewportMoved wideViewport; Click 0 0; SaveTimerFired false]
           (freshState None)).
  intros r c t. cbn [freshState tokenStore]. by rewrite lookup_empty.
Defined.

(** X9. Token values stay on the doubling ladder: when the hand and every
    cell hold nothing or a power of two from 2 up, they still do after any
    clicks, viewport changes, position updates and saves.  The generated
    baselines (0, 2, 4, 8) start on the ladder and a merge doubles. *)
Theorem values_stay_powers_of_two (luck : string → Q) (cfg : Config)
    (es : list Event) (s : State) :
  wellValued luck s →
  ∃ s', run luck cfg es s = Some s' ∧ wellValued luck s'.
Proof. apply run_invariant. intros e s1 s2. apply react_wellValued. Qed.

Lemma values_stay_powers_of_two_witness :
  ∃ s', run luckZero sourceConfig
          [Click 0 0; Click 0 1; PositionUpdate wideViewport 0 0; SaveTimerFired false]
          (freshState None) = Some s'
        ∧ wellValued luckZero s'.
Proof.
  apply (values_stay_powers_of_two luckZero sourceConfig
           [Click 0 0; Click 0 1; PositionUpdate wideViewport 0 0; SaveTimerFired false]
           (freshState None)).
  split.
  - by left.
  - intros r c. unfold getEffectiveValue. cbn [freshState tokenStore].
    rewrite lookup_empty. right. by exists 0%nat.
Defined.

(** ** What the views show after a sync and after a position update *)

Section ViewFacts.
Variable luck : string → Q.
Variable cfg : Config.

Local Abbreviation step :=
  (λ (acc : gset CellKey * State) (rc : Z * Z), syncCell luck cfg rc.1 rc.2 acc).

(** [shows] reads the state only through the store and the player. *)
Lemma shows_ext s s' r c cv :
  tokenStore s' !! cellKeyFromRC r c = tokenStore s !! cellKeyFromRC r c →
  playerCell s' = playerCell s →
  shows luck cfg s r c cv → shows luck cfg s' r c cv.
Proof.
  intros Ht Hp. unfold shows, getEffectiveValue, inRange. by rewrite Ht, Hp.
Qed.

Lemma shows_viewsOnly s s' r c cv :
  viewsOnly s s' → shows luck cfg s r c cv → shows luck cfg s' r c cv.
Proof. intros (Ht & _ & Hp & _). apply shows_ext; [by rewrite Ht | done]. Qed.

(** One iteration of the first loop leaves the cell with a view that shows
    it, on the view object found under the key or on a new one. *)
Lemma syncCell_view r c st s :
  ∃ cv, visibleCells (syncCell luck cfg r c (st, s)).2 !! cellKeyFromRC r c = Some cv
        ∧ shows luck cfg s r c cv
        ∧ match visibleCells s !! cellKeyFromRC r c with
          | Some old => CellView.row cv = CellView.row old
                        ∧ CellView.col cv = CellView.col old
          | None => CellView.row cv = r ∧ CellView.col cv = c
          end.
Proof.
  unfold syncCell. cbn [fst snd].
  destruct (visibleCells s !! cellKeyFromRC r c) as [old |] eqn:Hold.
  - cbn. rewrite lookup_insert_eq. eexists. split; [done |]. by repeat split.
  - cbn. rewrite lookup_insert_eq. eexists. split; [done |]. by repeat split.
Qed.

Lemma loop1_views cs st s r c :
  (r, c) ∈ cs →
  ∃ cv, visibleCells (foldl step (st, s) cs).2 !! cellKeyFromRC r c = Some cv
        ∧ shows luck cfg s r c cv
        ∧ match visibleCells s !! cellKeyFromRC r c with
          | Some old => CellView.row cv = CellView.row old
                        ∧ CellView.col cv = CellView.col old
          | None => CellView.row cv = r ∧ CellView.col cv = c
          end.
Proof.
  revert st s. induction cs as [| [r0 c0] cs IH]; intros st s Hin.
  { by apply elem_of_nil in Hin. }
  cbn [foldl fst snd].
  destruct (syncCell_step luck cfg r0 c0 st s) as (s1 & n1 & Heq1 & _ & Hlk1 & Hv1 & _).
  destruct (decide ((r, c) ∈ cs)) as [Hlater | Hnot].
  - rewrite Heq1. destruct (IH (st ∖ {[cellKeyFromRC r0 c0]}) s1 Hlater)
      as (cv & Hcv & Hshow & Hold).
    exists cv. split; [done |].
    split.
    { apply (shows_ext s1); [by destruct Hv1 as (-> & _) | | done].
      by destruct Hv1 as (_ & _ & -> & _). }
    destruct (decide (cellKeyFromRC r c = cellKeyFromRC r0 c0)) as [Hk | Hk].
    + apply cellKeyFromRC_inj in Hk as [-> ->].
      destruct (syncCell_view r0 c0 st s) as (cv1 & Hcv1 & _ & Hold1).
      rewrite Heq1 in Hcv1. cbn [snd] in Hcv1. rewrite Hcv1 in Hold.
      destruct (visibleCells s !! cellKeyFromRC r0 c0);
        destruct Hold as [-> ->]; by destruct Hold1 as [-> ->].
    + by rewrite <- (Hlk1 _ Hk).
  - apply elem_of_cons in Hin as [[= -> ->] | Hin]; [| done].
    destruct (syncCell_view r0 c0 st s) as (cv & Hcv & Hshow & Hold).
    rewrite Heq1 in Hcv |- *. cbn [snd] in Hcv.
    destruct (loop1_spec luck cfg cs (st ∖ {[cellKeyFromRC r0 c0]}) s1)
      as (s2 & n2 & Heq2 & _ & Hlk2 & Hv2 & _).
    rewrite Heq2. cbn [snd]. exists cv.
    rewrite Hlk2; [done |].
    intros (r' & c' & Hk & Hin')%elem_of_keysOf.
    apply cellKeyFromRC_inj in Hk as [-> ->]. done.
Qed.

(** The second loop touches only the views of the keys it is given. *)
Lemma loop2_views l s s' k :
  foldl (dropStale cfg) (Some s) l = Some s' → k ∉ l →
  visibleCells s' !! k = visibleCells s !! k.
Proof.
  revert s. induction l as [| k0 l IH]; intros s Heq Hk.
  { by injection Heq as <-. }
  apply not_elem_of_cons in Hk as [Hne Hk].
  cbn [foldl] in Heq. unfold dropStale at 2 in Heq. cbn [mbind option_bind] in Heq.
  destruct (visibleCells s !! k0) as [cv |] eqn:Hcv; cbn [mbind option_bind] in Heq.
  - rewrite (IH _ Heq Hk).
    destruct (MEMORYLESS cfg); cbn; by rewrite lookup_delete_ne.
  - exfalso. clear -Heq. induction l as [| k1 l IH]; [done | exact (IH Heq)].
Qed.

(** The whole of a sync, as the views see it. *)
Lemma syncWindow_views w s s' r c :
  syncWindow luck cfg w s = Some s' → inWindow w r c →
  ∃ cv, visibleCells s' !! cellKeyFromRC r c = Some cv
        ∧ shows luck cfg s' r c cv
        ∧ match visibleCells s !! cellKeyFromRC r c with
          | Some old => CellView.row cv = CellView.row old
                        ∧ CellView.col cv = CellView.col old
          | None => CellView.row cv = r ∧ CellView.col cv = c
          end.
Proof.
  intros Heq Hin.
  destruct (syncWindow_spec luck cfg w s)
    as (s2 & ? & Heq' & _ & Htok & (_ & Hp & _) & _).
  rewrite Heq in Heq'. injection Heq' as <-.
  unfold syncWindow in Heq. rewrite nested_loops in Heq. fold (cellsOf w) in Heq.
  destruct (loop1_spec luck cfg (cellsOf w) (dom (visibleCells s)) s)
    as (s1 & n1 & Heq1 & _).
  destruct (loop1_views (cellsOf w) (dom (visibleCells s)) s r c) as (cv & Hcv & Hshow & Hold).
  { by apply elem_of_cellsOf. }
  rewrite Heq1 in Heq, Hcv. cbn [fst snd] in Heq, Hcv.
  fold (windowKeys w) in Heq. fold (staleKeys w s) in Heq.
  exists cv. split; [| split; [| done]].
  - rewrite (loop2_views _ _ _ _ Heq); [done |].
    rewrite elem_of_elements. unfold staleKeys. rewrite elem_of_difference.
    intros [_ Hout]. apply Hout. by apply elem_of_windowKeys.
  - apply (shows_ext s); [| done | done].
    rewrite Htok.
    rewrite (bool_decide_eq_false_2 (cellKeyFromRC r c ∈ staleKeys w s)).
    + by rewrite andb_false_r.
    + unfold staleKeys. rewrite elem_of_difference.
      intros [_ Hout]. apply Hout. by apply elem_of_windowKeys.
Qed.

Lemma sync_views viewport s :
  ∃ s', syncGridToPlayerWindow luck cfg viewport s = Some s'
        ∧ ∀ r c, inWindow (playerVisibleCellRange cfg viewport) r c →
            ∃ cv, visibleCells s' !! cellKeyFromRC r c = Some cv
                  ∧ shows luck cfg s' r c cv
                  ∧ match visibleCells s !! cellKeyFromRC r c with
                    | Some old => CellView.row cv = CellView.row old
                                  ∧ CellView.col cv = CellView.col old
                    | None => CellView.row cv = r ∧ CellView.col cv = c
                    end.
Proof.
  destruct (sync_spec luck cfg viewport s) as (s' & ? & Heq & _).
  exists s'. split; [done |]. intros r c Hin.
  unfold syncGridToPlayerWindow in Heq.
  destruct (syncWindow_views _ _ _ r c Heq Hin) as (cv & Hcv & Hshow & Hold).
  rewrite visibleCells_saveMemento in Hold. by exists cv.
Qed.
End ViewFacts.

(** X10. After a sync the map shows the model: every cell of the window
    has a view, styled with the cell's effective value and reachability in
    the state the sync leaves, and labelled exactly when that value is
    positive; the view sits on the cell's own rectangle when it was created
    by this sync. *)
Theorem sync_shows_model (luck : string → Q) (cfg : Config)
    (viewport : LatLngBounds) (s : State) :
  ∃ s', syncGridToPlayerWindow luck cfg viewport s = Some s'
        ∧ ∀ r c, inWindow (playerVisibleCellRange cfg viewport) r c →
            ∃ cv, visibleCells s' !! cellKeyFromRC r c = Some cv
                  ∧ shows luck cfg s' r c cv
                  ∧ match visibleCells s !! cellKeyFromRC r c with
                    | Some old => CellView.row cv = CellView.row old
                                  ∧ CellView.col cv = CellView.col old
                    | None => CellView.row cv = r ∧ CellView.col cv = c
                    end.
Proof. apply sync_views. Qed.

(** ** The redraw after a position update *)

Section RefreshFacts.
Variable luck : string → Q.
Variable cfg : Config.

Lemma shows_unique s r c cv cv' :
  shows luck cfg s r c cv → shows luck cfg s r c cv' →
  CellView.row cv' = CellView.row cv → CellView.col cv' = CellView.col cv →
  cv' = cv.
Proof.
  destruct cv, cv'. unfold shows. cbn. intros [-> ->] [-> ->] -> ->. done.
Qed.

(** [refreshVisibleCells] restyles every view from the cell its key names
    and touches nothing else. *)
Lemma refresh_loop_views l s :
  (∀ e, e ∈ l → ∃ r c, e.1 = cellKeyFromRC r c) → NoDup (l.*1) →
  ∃ s', foldl (refreshCell luck cfg) (Some s) l = Some s'
        ∧ viewsOnly s s'
        ∧ (∀ k, k ∉ l.*1 → visibleCells s' !! k = visibleCells s !! k)
        ∧ ∀ r c cv, (cellKeyFromRC r c, cv) ∈ l →
            ∃ cv', visibleCells s' !! cellKeyFromRC r c = Some cv'
                   ∧ CellView.row cv' = CellView.row cv
                   ∧ CellView.col cv' = CellView.col cv
                   ∧ shows luck cfg s r c cv'.
Proof.
  revert s. induction l as [| [k cv] l IH]; intros s Hwf Hnd.
  - exists s. split; [done |]. split; [apply viewsOnly_refl |]. split; [done |].
    intros r c cv Hin. by apply elem_of_nil in Hin.
  - destruct (Hwf (k, cv)) as (r & c & Hk); [left |]. cbn [fst] in Hk. subst k.
    cbn [fmap list_fmap fst] in Hnd. apply NoDup_cons in Hnd as [Hk Hnd].
    cbn [foldl]. unfold refreshCell at 2. cbn [mbind option_bind fst snd].
    rewrite split_colon_key. cbn [lookup list_lookup].
    rewrite !parseInt_pretty. cbn [mbind option_bind].
    match goal with |- context [foldl _ (Some ?x) l] => set (s1 := x) end.
    assert (viewsOnly s s1) as Hv1 by apply viewsOnly_setVisual.
    destruct (IH s1) as (s2 & -> & Hv2 & Hlk2 & Hsh2); [| done |].
    { intros e He. apply Hwf. by right. }
    exists s2. split; [done |]. split; [by eapply viewsOnly_trans |].
    split.
    + intros k' Hk'. cbn [fmap list_fmap fst] in Hk'.
      apply not_elem_of_cons in Hk' as [Hne Hk'].
      rewrite (Hlk2 _ Hk'). unfold s1. cbn. by rewrite lookup_insert_ne.
    + intros r' c' cv' Hin. apply elem_of_cons in Hin as [Heq | Hin].
      * injection Heq as Heq <-. apply cellKeyFromRC_inj in Heq as [-> ->].
        rewrite (Hlk2 _ Hk). unfold s1. cbn. rewrite lookup_insert_eq.
        eexists. split; [done |]. by repeat split.
      * destruct (Hsh2 r' c' cv' Hin) as (cv2 & Hcv2 & Hr & Hc & Hshow).
        exists cv2. repeat (split; [done |]).
        destruct Hv1 as (Ht & _ & Hp & _).
        apply (shows_ext luck cfg s1); [by rewrite Ht | done | done].
Qed.

Lemma refreshVisibleCells_views s :
  (∀ k, k ∈ dom (visibleCells s) → ∃ r c, k = cellKeyFromRC r c) →
  ∃ s', refreshVisibleCells luck cfg s = Some s'
        ∧ viewsOnly s s'
        ∧ ∀ r c cv, visibleCells s !! cellKeyFromRC r c = Some cv →
            ∃ cv', visibleCells s' !! cellKeyFromRC r c = Some cv'
                   ∧ CellView.row cv' = CellView.row cv
                   ∧ CellView.col cv' = CellView.col cv
                   ∧ shows luck cfg s r c cv'.
Proof.
  intros Hwf. unfold refreshVisibleCells.
  destruct (refresh_loop_views (map_to_list (visibleCells s)) s)
    as (s' & Heq & Hv & _ & Hsh).
  { intros [k cv] Hin. apply elem_of_map_to_list in Hin. apply Hwf.
    apply elem_of_dom. by eexists. }
  { apply NoDup_fst_map_to_list. }
  exists s'. split; [done |]. split; [done |].
  intros r c cv Hcv. apply Hsh. by apply elem_of_map_to_list.
Qed.

(** On views that already show their cells, the redraw changes no view. *)
Lemma refreshVisibleCells_redundant s s' :
  (∀ k, k ∈ dom (visibleCells s) → ∃ r c, k = cellKeyFromRC r c) →
  (∀ r c cv, visibleCells s !! cellKeyFromRC r c = Some cv → shows luck cfg s r c cv) →
  refreshVisibleCells luck cfg s = Some s' →
  visibleCells s' = visibleCells s.
Proof.
  intros Hwf Hall Heq.
  destruct (refreshVisibleCells_views s Hwf) as (s2 & Heq2 & Hv & Hsh).
  destruct (refreshVisibleCells_spec luck cfg s Hwf) as (s3 & ? & Heq3 & _ & _ & _ & Hdom).
  rewrite Heq in Heq2, Heq3. injection Heq2 as <-. injection Heq3 as <-.
  apply map_eq. intros k.
  destruct (visibleCells s !! k) as [cv |] eqn:Hcv.
  - destruct (Hwf k) as (r & c & ->); [apply elem_of_dom; by eexists |].
    destruct (Hsh r c cv Hcv) as (cv' & -> & Hr & Hc & Hshow).
    f_equal. eapply shows_unique; eauto.
  - apply not_elem_of_dom. rewrite Hdom. by apply not_elem_of_dom.
Qed.
Lemma position_update_views viewport la ln s :
  ∃ s1 s',
    syncGridToPlayerWindow luck cfg viewport (set_playerCell (latLngToCell la ln) s)
    = Some s1
    ∧ handleMovementPosition luck cfg viewport la ln s = Some s'
    ∧ visibleCells s' = visibleCells s1
    ∧ tokenStore s' = tokenStore s1
    ∧ playerCell s' = latLngToCell la ln
    ∧ saveTimer s' = true
    ∧ ∀ r c, inWindow (playerVisibleCellRange cfg viewport) r c →
        ∃ cv, visibleCells s' !! cellKeyFromRC r c = Some cv
              ∧ shows luck cfg s' r c cv.
Proof.
  set (s0 := set_playerCell (latLngToCell la ln) s).
  destruct (sync_spec luck cfg viewport s0)
    as (s1 & ? & Heq1 & Hdom1 & _ & _ & Hp1 & _ & _ & _ & _ & Hst1 & _).
  destruct (sync_views luck cfg viewport s0) as (s1' & Heq1' & Hsh1).
  rewrite Heq1 in Heq1'. injection Heq1' as <-.
  assert (∀ k, k ∈ dom (visibleCells s1) → ∃ r c, k = cellKeyFromRC r c) as Hwf.
  { intros k Hk. rewrite Hdom1 in Hk. apply elem_of_keysOf in Hk as (r & c & -> & _).
    by exists r, c. }
  destruct (refreshVisibleCells_spec luck cfg s1 Hwf) as (s2 & ? & Heq2 & Hv2 & _).
  assert (visibleCells s2 = visibleCells s1) as Hvis2.
  { apply (refreshVisibleCells_redundant s1 s2 Hwf); [| done].
    intros r c cv Hcv.
    assert (inWindow (playerVisibleCellRange cfg viewport) r c) as Hin.
    { apply elem_of_windowKeys. rewrite <- Hdom1. apply elem_of_dom. by eexists. }
    destruct (Hsh1 r c Hin) as (cv' & Hcv' & Hshow & _).
    rewrite Hcv in Hcv'. by injection Hcv' as <-. }
  exists s1, (checkWin cfg s2).
  split; [done |].
  split; [unfold handleMovementPosition; fold s0; rewrite Heq1; cbn [mbind option_bind];
          by rewrite Heq2 |].
  pose proof (viewsOnly_checkWin cfg s2) as Hv3.
  pose proof (viewsOnly_trans _ _ _ Hv2 Hv3) as Hv.
  rewrite visibleCells_checkWin, Hvis2.
  split; [done |]. destruct Hv as (Ht & _ & Hp & _ & _ & Hst & _).
  split; [done |]. split; [by rewrite Hp, Hp1 |]. split; [by rewrite Hst |].
  intros r c Hin. destruct (Hsh1 r c Hin) as (cv & Hcv & Hshow & _).
  exists cv. split; [done |].
  apply (shows_ext luck cfg s1); [by rewrite Ht | done | done].
Qed.
End RefreshFacts.

(** X11. A position update is: move the player, sync, alert on a winning
    hand.  The redraw [refreshVisibleCells] between the sync and the win
    check changes no view and no override: the views are the ones the sync
    of the moved player drew, and every cell of the window shows its
    effective value and its reachability from the new player cell.  Hand,
    button controller, movement mode and storage item are left alone. *)
Theorem position_update_shows_model (luck : string → Q) (cfg : Config)
    (viewport : LatLngBounds) (la ln : Q) (s : State) :
  ∃ s1 s',
    syncGridToPlayerWindow luck cfg viewport (set_playerCell (latLngToCell la ln) s)
    = Some s1
    ∧ handleMovementPosition luck cfg viewport la ln s = Some s'
    ∧ visibleCells s' = visibleCells s1
    ∧ tokenStore s' = tokenStore s1
    ∧ playerCell s' = latLngToCell la ln
    ∧ inventory s' = inventory s
    ∧ buttonMovement s' = buttonMovement s
    ∧ currentMovementMode s' = currentMovementMode s
    ∧ localStorage s' = localStorage s
    ∧ ∀ r c, inWindow (playerVisibleCellRange cfg viewport) r c →
        ∃ cv, visibleCells s' !! cellKeyFromRC r c = Some cv
              ∧ shows luck cfg s' r c cv.
Proof.
  destruct (position_update_views luck cfg viewport la ln s)
    as (s1 & s' & Heq1 & Heq & Hvis & Htok & Hp & _ & Hsh).
  destruct (handleMovementPosition_spec luck cfg viewport la ln s)
    as (s2 & Heq2 & _ & Hi & Hb & Hm & Hls & _).
  rewrite Heq in Heq2. injection Heq2 as <-.
  by exists s1, s'.
Qed.

(** ** The size of the window and where it lies *)

Lemma NoDup_cellsOf w : NoDup (cellsOf w).
Proof.
  unfold cellsOf, loopRange. apply NoDup_bind; [| | apply NoDup_seqZ].
  - intros r1 r2 [r c] _ _ H1 H2.
    apply list_elem_of_bind in H1 as (c1 & H1 & _), H2 as (c2 & H2 & _).
    apply list_elem_of_singleton in H1, H2. congruence.
  - intros r _. apply NoDup_bind; [| | apply NoDup_seqZ].
    + intros c1 c2 rc _ _ H1 H2. apply list_elem_of_singleton in H1, H2. congruence.
    + intros c _. apply NoDup_singleton.
Qed.

Lemma length_cellsOf w :
  length (cellsOf w)
  = (Z.to_nat (maxRow w - minRow w + 1) * Z.to_nat (maxCol w - minCol w + 1))%nat.
Proof.
  unfold cellsOf, loopRange.
  rewrite <- (length_seqZ (minRow w)), <- (length_seqZ (minCol w)).
  generalize (seqZ (minCol w) (maxCol w - minCol w + 1)) as cols.
  generalize (seqZ (minRow w) (maxRow w - minRow w + 1)) as rows.
  intros rows cols.
  assert (∀ r : Z, length (cols ≫= λ c, [(r, c)]) = length cols) as Hrow.
  { intros r. induction cols as [| c cols IH]; [done |].
    rewrite bind_cons. cbn [length app]. by rewrite IH. }
  induction rows as [| r rows IH]; [done |].
  rewrite bind_cons, length_app, IH, Hrow. cbn [length]. lia.
Qed.

Lemma size_windowKeys w : size (windowKeys w) = length (cellsOf w).
Proof.
  unfold windowKeys, keysOf. rewrite size_list_to_set, length_fmap; [done |].
  apply NoDup_fmap_2_strong; [| apply NoDup_cellsOf].
  intros [r1 c1] [r2 c2] _ _ Heq. cbn [fst snd] in Heq.
  by apply cellKeyFromRC_inj in Heq as [-> ->].
Qed.

(** The corner cell of a position bounds it from both sides. *)
Lemma latLngToCell_row_bounds la ln :
  (lat CLASSROOM + inject_Z (row (latLngToCell la ln)) * CELL_DEG <= la)%Q
  ∧ (la < lat CLASSROOM + inject_Z (row (latLngToCell la ln) + 1) * CELL_DEG)%Q.
Proof. apply Qdiv_bounds; [done |]. by apply Qfloor_iff. Qed.

Lemma latLngToCell_col_bounds la ln :
  (lng CLASSROOM + inject_Z (col (latLngToCell la ln)) * CELL_DEG <= ln)%Q
  ∧ (ln < lng CLASSROOM + inject_Z (col (latLngToCell la ln) + 1) * CELL_DEG)%Q.
Proof. apply Qdiv_bounds; [done |]. by apply Qfloor_iff. Qed.

Lemma grid_line_mono (o : Q) (m n : Z) :
  m ≤ n → (o + inject_Z m * CELL_DEG <= o + inject_Z n * CELL_DEG)%Q.
Proof.
  intros Hmn. apply Qplus_le_r, Qmult_le_compat_r; [| done]. by rewrite <- Zle_Qle.
Qed.

(** X12. After a sync the registry holds one view per cell of the window
    and nothing else: its size is the number of rows times the number of
    columns of the window (zero for a malformed window), whatever was
    registered before. *)
Theorem sync_registry_size (luck : string → Q) (cfg : Config)
    (viewport : LatLngBounds) (s : State) :
  let w := playerVisibleCellRange cfg viewport in
  ∃ s', syncGridToPlayerWindow luck cfg viewport s = Some s'
        ∧ size (visibleCells s')
          = (Z.to_nat (maxRow w - minRow w + 1) * Z.to_nat (maxCol w - minCol w + 1))%nat.
Proof.
  intros w. destruct (sync_spec luck cfg viewport s) as (s' & ? & Heq & Hdom & _).
  exists s'. split; [done |].
  rewrite <- size_dom, Hdom. fold w. by rewrite size_windowKeys, length_cellsOf.
Qed.

(** X13. The window is an inset of the viewport, not an expansion: with a
    view radius of at least one cell, the rectangle of every cell of the
    window lies inside the viewport, strictly north and east of its
    south-west corner and not beyond its north-east corner. *)
Theorem window_inside_viewport (cfg : Config) (viewport : LatLngBounds) (r c : Z) :
  1 ≤ VIEW_RADIUS cfg →
  inWindow (playerVisibleCellRange cfg viewport) r c →
  (lat (southWest viewport) < lat (southWest (cellBounds r c)))%Q
  ∧ (lat (northEast (cellBounds r c)) <= lat (northEast viewport))%Q
  ∧ (lng (southWest viewport) < lng (southWest (cellBounds r c)))%Q
  ∧ (lng (northEast (cellBounds r c)) <= lng (northEast viewport))%Q.
Proof.
  intros Hvr [[Hr1 Hr2] [Hc1 Hc2]].
  unfold playerVisibleCellRange in *. cbn [minRow maxRow minCol maxCol] in *.
  destruct (cellBounds_corners r c) as (-> & -> & -> & ->).
  destruct (latLngToCell_row_bounds (lat (southWest viewport)) (lng (southWest viewport)))
    as [_ Hs].
  destruct (latLngToCell_col_bounds (lat (southWest viewport)) (lng (southWest viewport)))
    as [_ Hw].
  destruct (latLngToCell_row_bounds (lat (northEast viewport)) (lng (northEast viewport)))
    as [Hn _].
  destruct (latLngToCell_col_bounds (lat (northEast viewport)) (lng (northEast viewport)))
    as [He _].
  repeat split.
  - eapply Qlt_le_trans; [exact Hs |]. apply grid_line_mono. lia.
  - eapply Qle_trans; [| exact Hn]. apply grid_line_mono. lia.
  - eapply Qlt_le_trans; [exact Hw |]. apply grid_line_mono. lia.
  - eapply Qle_trans; [| exact He]. apply grid_line_mono. lia.
Qed.

Lemma window_inside_viewport_witness :
  (lat (southWest wideViewport) < lat (southWest (cellBounds 0 0)))%Q
  ∧ (lat (northEast (cellBounds 0 0)) <= lat (northEast wideViewport))%Q
  ∧ (lng (southWest wideViewport) < lng (southWest (cellBounds 0 0)))%Q
  ∧ (lng (northEast (cellBounds 0 0)) <= lng (northEast wideViewport))%Q.
Proof.
  apply (window_inside_viewport sourceConfig wideViewport 0 0).
  - vm_compute. discriminate.
  - vm_compute. repeat split; discriminate.
Defined.

(** ** Manual steps compose *)

Section StepFacts.
Variable luck : string → Q.
Variable cfg : Config.

Lemma stepBy_controller viewport dx dy s :
  let old := currentCell (buttonMovement s) in
  let new := {| row := row old + dy; col := col old + dx |} in
  ∃ s',
    stepBy luck cfg viewport dx dy s = (Some s', cellCenterLatLng (row new) (col new))
    ∧ buttonMovement s'
      = {| currentCell := new; inPosition := inPosition (buttonMovement s) |}
    ∧ playerCell s' = (if inPosition (buttonMovement s) then new else playerCell s)
    ∧ inventory s' = inventory s
    ∧ currentMovementMode s' = currentMovementMode s
    ∧ localStorage s' = localStorage s.
Proof.
  intros old new. unfold stepBy. fold old. fold new.
  destruct (inPosition (buttonMovement s)) eqn:Hin.
  - match goal with |- context [handleMovementPosition luck cfg viewport ?la ?ln ?x] =>
      destruct (handleMovementPosition_spec luck cfg viewport la ln x)
        as (s' & -> & Hp & Hi & Hb & Hm & Hls & _) end.
    exists s'. split; [done |]. rewrite Hb, Hp, Hi, Hm, Hls.
    split; [done |]. split; [apply latLngToCell_center | done].
  - eexists. split; [reflexivity |]. done.
Qed.
End StepFacts.

(** X14. Manual steps add up: a step by (dx, dy) followed by a step by
    (dx', dy') leaves the controller, and the player when the position
    callback is registered, on the cell (dx + dx', dy + dy') away, and the
    second step emits the centre of that cell; steps never touch the hand,
    the movement mode or the storage item.  In particular a step and its
    opposite bring the player back. *)
Theorem stepBy_adds_up (luck : string → Q) (cfg : Config)
    (vp1 vp2 : LatLngBounds) (dx dy dx' dy' : Z) (s : State) :
  let old := currentCell (buttonMovement s) in
  let target := {| row := row old + dy + dy'; col := col old + dx + dx' |} in
  ∃ s1 s2 p1,
    stepBy luck cfg vp1 dx dy s = (Some s1, p1)
    ∧ stepBy luck cfg vp2 dx' dy' s1
      = (Some s2, cellCenterLatLng (row target) (col target))
    ∧ currentCell (buttonMovement s2) = target
    ∧ playerCell s2 = (if inPosition (buttonMovement s) then target else playerCell s)
    ∧ inventory s2 = inventory s
    ∧ currentMovementMode s2 = currentMovementMode s
    ∧ localStorage s2 = localStorage s.
Proof.
  intros old target.
  destruct (stepBy_controller luck cfg vp1 dx dy s)
    as (s1 & Heq1 & Hb1 & Hp1 & Hi1 & Hm1 & Hls1).
  destruct (stepBy_controller luck cfg vp2 dx' dy' s1)
    as (s2 & Heq2 & Hb2 & Hp2 & Hi2 & Hm2 & Hls2).
  rewrite Hb1 in Heq2, Hb2, Hp2. cbn [currentCell inPosition row col] in Heq2, Hb2, Hp2.
  eexists s1, s2, _. split; [exact Heq1 |]. split; [exact Heq2 |].
  rewrite Hb2, Hp2, Hi2, Hi1, Hm2, Hm1, Hls2, Hls1, Hp1. cbn [currentCell].
  repeat (split; [done |]). split; [| done].
  by destruct (inPosition (buttonMovement s)).
Qed.

(** ** Loading, restoring and the debounced save *)

Lemma foldl_insert_reverse (l : list (string * TokenState)) (m0 : gmap string TokenState) :
  foldl (λ m e, <[e.1 := e.2]> m) m0 l = list_to_map (reverse l) ∪ m0.
Proof.
  revert m0. induction l as [| [k x] l IH]; intros m0.
  - cbn. by rewrite (left_id_L ∅ (∪)).
  - cbn [foldl fst snd]. rewrite IH, reverse_cons.
    apply map_eq. intros k'.
    rewrite !lookup_union, list_to_map_app, lookup_union.
    cbn [list_to_map foldr fst snd].
    destruct (decide (k' = k)) as [-> | Hne].
    + rewrite !lookup_insert_eq.
      by destruct (list_to_map (reverse l) !! k), (m0 !! k).
    + rewrite !lookup_insert_ne, lookup_empty by done.
      by destruct (list_to_map (reverse l) !! k'), (m0 !! k').
Qed.

Lemma restore_loop_frame (l : list (string * TokenState)) s :
  let s' := foldl (λ s e, set_tokenStore (<[e.1 := {| v := v e.2 |}]>) s) s l in
  lastMemento s' = lastMemento s ∧ saveTimer s' = saveTimer s
  ∧ localStorage s' = localStorage s ∧ visibleCells s' = visibleCells s
  ∧ buttonMovement s' = buttonMovement s ∧ calls s' = calls s.
Proof.
  revert s. induction l as [| e l IH]; intros s; [done |].
  cbn [foldl]. cbn zeta in IH. by destruct (IH (set_tokenStore (<[e.1 := {| v := v e.2 |}]>) s))
    as (-> & -> & -> & -> & -> & ->).
Qed.

Lemma payloadOf_ext cfg s s' :
  tokenStore s' = tokenStore s → inventory s' = inventory s →
  playerCell s' = playerCell s → currentMovementMode s' = currentMovementMode s →
  payloadOf cfg s' = payloadOf cfg s.
Proof. unfold payloadOf, serializeState. by intros -> -> -> ->. Qed.

Section SaveFacts.
Variable luck : string → Q.
Variable cfg : Config.

(** A timer firing whose write does not throw. *)
Lemma saveTimerFires_upToDate s : upToDate cfg (saveTimerFires cfg false s).
Proof.
  unfold saveTimerFires, saveState, upToDate.
  rewrite (payloadOf_ext cfg s (set_saveTimer false s)) by done.
  destruct (200000 <? _) eqn:Hsize.
  - right. right. rewrite (payloadOf_ext cfg s (set_saveTimer false s)) by done.
    by apply Z.ltb_lt.
  - right. left. reflexivity.
Qed.

(** A timer firing whose write throws: the timer is cleared and nothing
    else happens. *)
Lemma saveTimerFires_throws s : saveTimerFires cfg true s = set_saveTimer false s.
Proof. unfold saveTimerFires, saveState. by destruct (_ <? _). Qed.

Lemma click_upToDate r c s :
  upToDate cfg s → upToDate cfg (handleCellClick luck cfg r c s).
Proof.
  intros Hup.
  destruct (inRange cfg s r c
            && tableActs (handOf (inventory s)) (getEffectiveValue luck s r c)) eqn:Hact.
  - apply andb_true_iff in Hact as [Hin Hact].
    destruct (click_acts luck cfg r c s Hin Hact) as (x & win & -> & _ & _ & _ & _ & _ & _ & Hst).
    destruct (finish_frame luck cfg win r c x) as ((_ & _ & _ & _ & _ & Hst' & _) & _).
    left. by rewrite Hst'.
  - apply andb_false_iff in Hact as [Hin | Hidle].
    + by rewrite handleCellClick_out_of_range.
    + by rewrite handleCellClick_idle.
Qed.

Lemma react_upToDate e s s' :
  e ≠ SaveTimerFired true →
  upToDate cfg s → react luck cfg e s = Some s' → upToDate cfg s'.
Proof.
  intros Hok Hup Hre. destruct e as [r c | vp | vp la ln | throws]; cbn [react] in Hre.
  - injection Hre as <-. by apply click_upToDate.
  - destruct (sync_spec luck cfg vp s)
      as (s1 & ? & Heq & _ & _ & _ & _ & _ & _ & _ & _ & Hst & _).
    rewrite Heq in Hre. injection Hre as <-. by left.
  - destruct (position_update_views luck cfg vp la ln s)
      as (s1 & s2 & _ & Heq & _ & _ & _ & Hst & _).
    rewrite Heq in Hre. injection Hre as <-. by left.
  - injection Hre as <-. destruct throws; [done |]. apply saveTimerFires_upToDate.
Qed.

Lemma run_upToDate es s :
  Forall (λ e, e ≠ SaveTimerFired true) es → upToDate cfg s →
  ∃ s', run luck cfg es s = Some s' ∧ upToDate cfg s'.
Proof.
  intros Hes. revert s. induction Hes as [| e es He _ IH]; intros s Hup.
  - by exists s.
  - rewrite run_cons. destruct (react_total luck cfg e s) as (s1 & Hre). rewrite Hre.
    apply IH. by eapply react_upToDate.
Qed.
End SaveFacts.

(** X15. [loadMemento] ignores what it cannot trust: with no stored item,
    a text that does not parse, an envelope of another storage version or
    without a snapshot, or a snapshot whose [tokens] is not an array or that
    has no [playerCell], the state stays exactly as it was; nothing is
    cleared and nothing throws. *)
Theorem loadMemento_ignores_bad_storage (s : State) :
  (localStorage s = None
   ∨ localStorage s = Some Unparsable
   ∨ ∃ payload, localStorage s = Some (Text payload)
       ∧ (jfield "version" payload ≠ Some (JNum STORAGE_VERSION)
          ∨ falsy (jfield "snapshot" payload) = true
          ∨ ∃ snapshot, jfield "snapshot" payload = Some snapshot
              ∧ (isArray (jfield "tokens" snapshot) = false
                 ∨ falsy (jfield "playerCell" snapshot) = true))) →
  loadMemento s = Some s.
Proof.
  unfold loadMemento, loadState.
  intros [-> | [-> | (payload & -> & Hbad)]]; [done | done |].
  destruct Hbad as [Hver | [Hsnap | (snapshot & Hsnap & Hbad)]].
  - assert (notNumber STORAGE_VERSION (jfield "version" payload) = true) as ->.
    { unfold notNumber. destruct (jfield "version" payload) as [[| | n | | |] |]; try done.
      destruct (Z.eqb_spec n STORAGE_VERSION) as [-> | ?]; done. }
    by rewrite orb_true_r.
  - rewrite Hsnap. by rewrite orb_true_r.
  - rewrite Hsnap.
    destruct (falsy (Some payload) || notNumber STORAGE_VERSION (jfield "version" payload)
              || falsy (Some snapshot)); [done |].
    destruct Hbad as [-> | ->]; [done | by rewrite orb_true_r].
Qed.

Lemma loadMemento_ignores_bad_storage_witness :
  loadMemento
    (freshState (Some (Text (JObj [("version", JNum 2);
                                   ("snapshot", JObj [("tokens", JArr [])])]))))
  = Some (freshState (Some (Text (JObj [("version", JNum 2);
                                        ("snapshot", JObj [("tokens", JArr [])])])))).
Proof.
  apply (loadMemento_ignores_bad_storage
           (freshState (Some (Text (JObj [("version", JNum 2);
                                          ("snapshot", JObj [("tokens", JArr [])])]))))).
  right. right. eexists. split; [reflexivity |]. left. vm_compute. discriminate.
Defined.

(** X16. [restoreFromMemento] replaces the store: the overrides after it
    are those listed in the memento and nothing of the former store, the
    last entry winning when a key is listed twice; hand and player cell
    are the memento's; the movement mode is the memento's when it has one
    and stays otherwise; memento, timer, storage item, views, controller and
    trace are left alone. *)
Theorem restore_replaces_store (m : Memento.t) (s : State) :
  let s' := restoreFromMemento m s in
  tokenStore s' = list_to_map (reverse (Memento.tokens m))
  ∧ inventory s' = Memento.inventory m
  ∧ playerCell s' = Memento.playerCell m
  ∧ currentMovementMode s'
    = match Memento.movementMode m with Some mode => mode | None => currentMovementMode s end
  ∧ lastMemento s' = lastMemento s ∧ saveTimer s' = saveTimer s
  ∧ localStorage s' = localStorage s ∧ visibleCells s' = visibleCells s
  ∧ buttonMovement s' = buttonMovement s ∧ calls s' = calls s.
Proof.
  destruct (restoreFromMemento_spec m s) as (Ht & Hi & Hp & Hm).
  cbn zeta. rewrite Ht, Hi, Hp, Hm, foldl_insert_reverse, (right_id_L ∅ (∪)).
  repeat (split; [done |]).
  unfold restoreFromMemento.
  pose proof (restore_loop_frame (Memento.tokens m) (set_tokenStore (λ _, ∅) s)) as Hfr.
  cbn zeta in Hfr. destruct Hfr as (H1 & H2 & H3 & H4 & H5 & H6).
  destruct (Memento.movementMode m); cbn; by rewrite H1, H2, H3, H4, H5, H6.
Qed.

(** X17. No change is left unsaved while the storage accepts writes.
    Whenever no save is pending, the storage item holds the envelope of
    the current state, unless that envelope is longer than the size guard
    allows: this holds after any clicks, viewport changes, position updates
    and timer firings whose write does not throw, from any state where it
    holds.  A firing whose write throws only clears the timer: the item
    stays as it was and no new save is scheduled. *)
Theorem no_unsaved_changes (luck : string → Q) (cfg : Config)
    (es : list Event) (s : State) :
  (Forall (λ e, e ≠ SaveTimerFired true) es → upToDate cfg s →
     ∃ s', run luck cfg es s = Some s' ∧ upToDate cfg s')
  ∧ saveTimerFires cfg true s = set_saveTimer false s.
Proof. split; [apply run_upToDate | apply saveTimerFires_throws]. Qed.

Lemma no_unsaved_changes_witness :
  (∃ s', run luckZero sourceConfig [Click 0 0; SaveTimerFired false]
           (saveMemento sourceConfig (freshState None)) = Some s'
         ∧ upToDate sourceConfig s')
  ∧ (∃ s', run luckZero sourceConfig [Click 0 0; SaveTimerFired false]
             (saveMemento sourceConfig (freshState None)) = Some s'
           ∧ inventory s' = Some {| value := 2 |}
           ∧ saveTimer s' = false
           ∧ localStorage s' = Some (Text (payloadOf sourceConfig s'))).
Proof.
  split.
  - apply (proj1 (no_unsaved_changes luckZero sourceConfig
                    [Click 0 0; SaveTimerFired false]
                    (saveMemento sourceConfig (freshState None)))).
    + repeat constructor; discriminate.
    + left. reflexivity.
  - eexists. split; [by vm_compute |]. by vm_compute.
Defined.

(** ** Every view is registered under the key of its own cell *)

Section NamedFacts.
Variable luck : string → Q.
Variable cfg : Config.

Lemma updateCell_views r c s k cv' :
  visibleCells (updateCell luck cfg r c s) !! k = Some cv' →
  ∃ cv, visibleCells s !! k = Some cv
        ∧ CellView.row cv' = CellView.row cv ∧ CellView.col cv' = CellView.col cv.
Proof.
  unfold updateCell, keyOf.
  destruct (visibleCells s !! cellKeyFromRC r c) as [cv |] eqn:Hcv; [| by eauto].
  cbn. destruct (decide (k = cellKeyFromRC r c)) as [-> | Hne].
  - rewrite lookup_insert_eq. intros [= <-]. by exists cv.
  - rewrite lookup_insert_ne by done. by eauto.
Qed.

Lemma click_views r c s k cv' :
  visibleCells (handleCellClick luck cfg r c s) !! k = Some cv' →
  ∃ cv, visibleCells s !! k = Some cv
        ∧ CellView.row cv' = CellView.row cv ∧ CellView.col cv' = CellView.col cv.
Proof.
  destruct (inRange cfg s r c
            && tableActs (handOf (inventory s)) (getEffectiveValue luck s r c)) eqn:Hact.
  - apply andb_true_iff in Hact as [Hin Hact].
    destruct (click_acts luck cfg r c s Hin Hact) as (x & win & -> & _ & _ & _ & _ & Hvis & _).
    rewrite <- Hvis.
    assert (visibleCells ((if win then checkWin cfg else id)
                            (updateCell luck cfg r c (updateInventoryHUD x)))
            = visibleCells (updateCell luck cfg r c (updateInventoryHUD x))) as ->
      by (destruct win; [apply visibleCells_checkWin | done]).
    intros Hcv'. apply updateCell_views in Hcv'. exact Hcv'.
  - assert (handleCellClick luck cfg r c s = s) as ->; [| by eauto].
    apply andb_false_iff in Hact as [Hin | Hidle].
    + by apply handleCellClick_out_of_range.
    + by apply handleCellClick_idle.
Qed.

Lemma sync_viewsNamed viewport s s' :
  viewsNamed s → syncGridToPlayerWindow luck cfg viewport s = Some s' → viewsNamed s'.
Proof.
  intros Hnamed Heq k cv Hcv.
  destruct (sync_spec luck cfg viewport s) as (s1 & ? & Heq1 & Hdom & _).
  destruct (sync_views luck cfg viewport s) as (s2 & Heq2 & Hsh).
  rewrite Heq in Heq1, Heq2. injection Heq1 as <-. injection Heq2 as <-.
  assert (k ∈ dom (visibleCells s')) as Hk by (apply elem_of_dom; by eexists).
  rewrite Hdom in Hk. apply elem_of_keysOf in Hk as (r & c & -> & Hin).
  apply elem_of_cellsOf in Hin.
  destruct (Hsh r c Hin) as (cv' & Hcv' & _ & Hold).
  rewrite Hcv in Hcv'. injection Hcv' as <-.
  destruct (visibleCells s !! cellKeyFromRC r c) as [old |] eqn:Hlk.
  - destruct Hold as [-> ->]. by apply Hnamed.
  - by destruct Hold as [-> ->].
Qed.

Lemma visibleCells_saveTimerFires throws s :
  visibleCells (saveTimerFires cfg throws s) = visibleCells s.
Proof. unfold saveTimerFires, saveState. by destruct (_ <? _), throws. Qed.

Lemma react_viewsNamed e s s' :
  viewsNamed s → react luck cfg e s = Some s' → viewsNamed s'.
Proof.
  intros Hnamed Hre. destruct e as [r c | vp | vp la ln | throws]; cbn [react] in Hre.
  - injection Hre as <-. intros k cv' Hcv'.
    destruct (click_views r c s k cv' Hcv') as (cv & Hcv & -> & ->). by apply Hnamed.
  - by eapply sync_viewsNamed.
  - destruct (position_update_views luck cfg vp la ln s)
      as (s1 & s2 & Heq1 & Heq2 & Hvis & _).
    rewrite Heq2 in Hre. injection Hre as <-.
    intros k cv. rewrite Hvis. revert k cv.
    apply (sync_viewsNamed vp (set_playerCell (latLngToCell la ln) s)); [| done].
    exact Hnamed.
  - injection Hre as <-. intros k cv. rewrite visibleCells_saveTimerFires. apply Hnamed.
Qed.
End NamedFacts.

(** X18. Every view stays registered under the key of its own cell: if
    each entry of [visibleCells] maps the key of a cell to a view built for
    that cell, this is still so after any clicks, viewport changes,
    position updates and timer firings.  It is what lets a click on a
    rectangle act on the cell the registry files it under, and
    [refreshVisibleCells] read the cell off the key. *)
Theorem views_stay_named (luck : string → Q) (cfg : Config)
    (es : list Event) (s : State) :
  viewsNamed s →
  ∃ s', run luck cfg es s = Some s' ∧ viewsNamed s'.
Proof. apply run_invariant. intros e s1 s2. apply react_viewsNamed. Qed.

Lemma views_stay_named_witness :
  ∃ s', run luckZero sourceConfig
          [ViewportMoved wideViewport; Click 0 0; PositionUpdate wideViewport 0 0]
          (freshState None) = Some s'
        ∧ viewsNamed s'.
Proof.
  apply (views_stay_named luckZero sourceConfig
           [ViewportMoved wideViewport; Click 0 0; PositionUpdate wideViewport 0 0]
           (freshState None)).
  intros k cv. cbn [freshState visibleCells]. by rewrite lookup_empty.
Defined.

(** ** How many views a sync builds and drops *)

Lemma size_new_keys (k : CellKey) (K D : gset CellKey) :
  k ∉ K →
  size (({[k]} ∪ K) ∖ D)
  = ((if decide (k ∈ D) then 0 else 1) + size (K ∖ ({[k]} ∪ D)))%nat.
Proof.
  intros Hk. destruct (decide (k ∈ D)) as [HD | HD].
  - cbn [Nat.add]. f_equal. set_solver.
  - assert (({[k]} ∪ K) ∖ D = {[k]} ∪ K ∖ ({[k]} ∪ D)) as -> by set_solver.
    rewrite size_union, size_singleton; [done | set_solver].
Qed.

Section CountFacts.
Variable luck : string → Q.
Variable cfg : Config.

Local Abbreviation step :=
  (λ (acc : gset CellKey * State) (rc : Z * Z), syncCell luck cfg rc.1 rc.2 acc).

Lemma syncCell_creates r c st s :
  ∃ news, calls (syncCell luck cfg r c (st, s)).2 = news ++ calls s
          ∧ count isCreate news
            = (if decide (cellKeyFromRC r c ∈ dom (visibleCells s)) then 0 else 1)%nat
          ∧ (count isCreate news + count isRefresh news = 1)%nat.
Proof.
  unfold syncCell. cbn [fst snd].
  destruct (visibleCells s !! cellKeyFromRC r c) as [cv |] eqn:Hcv.
  - eexists [_; _]. split; [reflexivity |]. split; [| done].
    rewrite decide_True; [done |]. apply elem_of_dom. by eexists.
  - eexists [_; _]. split; [reflexivity |]. split; [| done].
    rewrite decide_False; [done |]. by apply not_elem_of_dom.
Qed.

Lemma loop1_creates cs st s :
  NoDup cs →
  ∃ news, calls (foldl step (st, s) cs).2 = news ++ calls s
          ∧ count isCreate news = size (keysOf cs ∖ dom (visibleCells s))
          ∧ (count isCreate news + count isRefresh news = length cs)%nat.
Proof.
  intros Hnd. revert st s. induction Hnd as [| [r c] cs Hrc Hnd IH]; intros st s.
  - exists []. split; [done |]. split; [| done]. unfold keysOf. cbn.
    by rewrite difference_disjoint_L, size_empty by set_solver.
  - cbn [foldl fst snd].
    destruct (syncCell_step luck cfg r c st s) as (s1 & n1 & Heq1 & Hdom1 & _ & _ & Hc1 & _).
    destruct (syncCell_creates r c st s) as (n1' & Hc1' & Hk1 & Hr1).
    rewrite Heq1 in Hc1' |- *. cbn [snd] in Hc1'.
    rewrite Hc1 in Hc1'. apply app_inv_tail in Hc1'. subst n1'.
    destruct (IH (st ∖ {[cellKeyFromRC r c]}) s1) as (n2 & Hc2 & Hk2 & Hr2).
    exists (n2 ++ n1). split; [by rewrite Hc2, Hc1, app_assoc |].
    split; [| rewrite !count_app; cbn [length]; lia].
    rewrite count_app, Hk1, Hk2, Hdom1, keysOf_cons. cbn [fst snd].
    rewrite size_new_keys; [lia |].
    intros (r' & c' & Heq & Hin)%elem_of_keysOf.
    apply cellKeyFromRC_inj in Heq as [-> ->]. done.
Qed.

Lemma syncWindow_counts w s :
  ∃ s' news,
    syncWindow luck cfg w s = Some s'
    ∧ calls s' = news ++ calls s
    ∧ count isCreate news = size (windowKeys w ∖ dom (visibleCells s))
    ∧ (count isCreate news + count isRefresh news = length (cellsOf w))%nat
    ∧ count isDestroy news = size (dom (visibleCells s) ∖ windowKeys w)
    ∧ count isSetVisual news = length (cellsOf w)
    ∧ length news
      = (2 * length (cellsOf w) + size (dom (visibleCells s) ∖ windowKeys w))%nat.
Proof.
  unfold syncWindow. rewrite nested_loops. fold (cellsOf w).
  destruct (loop1_spec luck cfg (cellsOf w) (dom (visibleCells s)) s)
    as (s1 & n1 & Heq1 & Hdom1 & _ & _ & Hc1 & Hl1 & Hd1 & _ & Hs1 & _).
  destruct (loop1_creates (cellsOf w) (dom (visibleCells s)) s (NoDup_cellsOf w))
    as (n1' & Hc1' & Hk1 & Hr1).
  rewrite Heq1 in Hc1' |- *. cbn [fst snd] in Hc1' |- *.
  rewrite Hc1 in Hc1'. apply app_inv_tail in Hc1'. subst n1'.
  fold (windowKeys w) in Hdom1, Hk1 |- *. fold (staleKeys w s).
  assert (∀ k, k ∈ elements (staleKeys w s) → k ∈ dom (visibleCells s1)) as Hin.
  { intros k Hk. apply elem_of_elements in Hk. rewrite Hdom1.
    unfold staleKeys in Hk.
    apply elem_of_difference in Hk as [Hk _]. apply elem_of_union. by left. }
  destruct (loop2_spec luck cfg (elements (staleKeys w s)) s1)
    as (s2 & -> & _ & _ & _ & Hc2); [apply NoDup_elements | exact Hin |].
  set (d := destroyCalls (visibleCells s1) (elements (staleKeys w s))) in *.
  assert (Forall (λ c, isDestroy c = true) (reverse d)) as Hall
    by apply destroyCalls_reverse_all.
  assert (length (reverse d) = size (dom (visibleCells s) ∖ windowKeys w)) as Hlen.
  { rewrite length_reverse. unfold d. by rewrite destroyCalls_length. }
  exists s2, (reverse d ++ n1). split; [done |].
  split; [by rewrite Hc2, Hc1, app_assoc |].
  rewrite !count_app, length_app, Hlen, Hl1, Hd1, Hs1.
  rewrite (count_all isDestroy (reverse d)) by done.
  rewrite (count_none isCreate (reverse d)), (count_none isSetVisual (reverse d)),
    (count_none isRefresh (reverse d)).
  - rewrite Hlen, Hk1. unfold staleKeys. repeat split; lia.
  - eapply Forall_impl; [exact Hall |]. by intros [].
  - eapply Forall_impl; [exact Hall |]. by intros [].
  - eapply Forall_impl; [exact Hall |]. by intros [].
Qed.
End CountFacts.

(** X19. A sync builds and drops only what it must: it constructs one view
    for each cell of the window that had none, destroys one for each
    registered view outside the window, refreshes the bounds of each view
    it reuses, restyles each cell of the window once, and makes no other
    call. *)
Theorem sync_is_incremental (luck : string → Q) (cfg : Config)
    (viewport : LatLngBounds) (s : State) :
  let w := playerVisibleCellRange cfg viewport in
  ∃ s' news,
    syncGridToPlayerWindow luck cfg viewport s = Some s'
    ∧ calls s' = news ++ calls s
    ∧ count isCreate news = size (windowKeys w ∖ dom (visibleCells s))
    ∧ (count isCreate news + count isRefresh news = length (cellsOf w))%nat
    ∧ count isDestroy news = size (dom (visibleCells s) ∖ windowKeys w)
    ∧ count isSetVisual news = length (cellsOf w)
    ∧ length news
      = (2 * length (cellsOf w) + size (dom (visibleCells s) ∖ windowKeys w))%nat.
Proof.
  intros w. unfold syncGridToPlayerWindow. fold w.
  destruct (syncWindow_counts luck cfg w (saveMemento cfg s))
    as (s' & news & Heq & Hc & Hk & Hr & Hd & Hs & Hl).
  rewrite visibleCells_saveMemento in Hk, Hd, Hl. rewrite calls_saveMemento in Hc.
  by exists s', news.
Qed.

(** ** The movement controllers *)

Section ControllerFacts.
Variable luck : string → Q.
Variable cfg : Config.

Lemma ButtonMovementController_start_spec viewport s :
  let cell := currentCell (buttonMovement s) in
  ∃ s', ButtonMovementController_start luck cfg viewport s = Some s'
        ∧ playerCell s'
          = (if inPosition (buttonMovement s)
             then {| row := row cell; col := col cell |} else playerCell s)
        ∧ buttonMovement s' = buttonMovement s
        ∧ inventory s' = inventory s
        ∧ currentMovementMode s' = currentMovementMode s
        ∧ localStorage s' = localStorage s.
Proof.
  intros cell. unfold ButtonMovementController_start. fold cell.
  destruct (inPosition (buttonMovement s)) eqn:Hin.
  - match goal with |- context [handleMovementPosition luck cfg viewport ?la ?ln ?x] =>
      destruct (handleMovementPosition_spec luck cfg viewport la ln x)
        as (s' & -> & Hp & Hi & Hb & Hm & Hls & _) end.
    exists s'. split; [done |]. rewrite Hp, Hi, Hb, Hm, Hls.
    split; [apply latLngToCell_center | done].
  - eexists. split; [reflexivity |]. done.
Qed.

Lemma GeolocationMovementController_start_spec viewport geolocation ss :
  ∃ ss', GeolocationMovementController_start luck cfg viewport geolocation ss = Some ss'
         ∧ activeMovement ss' = activeMovement ss
         ∧ dpadOnMap ss' = dpadOnMap ss
         ∧ watching ss' = (if geolocation then true else watching ss)
         ∧ playerCell (game ss')
           = (if geolocation then playerCell (game ss)
              else latLngToCell (lat CLASSROOM) (lng CLASSROOM))
         ∧ buttonMovement (game ss') = buttonMovement (game ss)
         ∧ inventory (game ss') = inventory (game ss)
         ∧ currentMovementMode (game ss') = currentMovementMode (game ss)
         ∧ localStorage (game ss') = localStorage (game ss).
Proof.
  unfold GeolocationMovementController_start. destruct geolocation; cbn [negb].
  - eexists. split; [reflexivity |]. done.
  - match goal with |- context [handleMovementPosition luck cfg viewport ?la ?ln ?x] =>
      destruct (handleMovementPosition_spec luck cfg viewport la ln x)
        as (s' & -> & Hp & Hi & Hb & Hm & Hls & _) end.
    cbn [mbind option_bind]. eexists. split; [reflexivity |].
    cbn [with_game game activeMovement watching dpadOnMap].
    rewrite Hp, Hi, Hb, Hm, Hls. done.
Qed.

Lemma useMovement_to_buttons viewport geolocation ss :
  activeMovement ss = geo →
  ∃ ss', useMovement luck cfg viewport geolocation buttons ss = Some ss'
         ∧ activeMovement ss' = buttons
         ∧ currentMovementMode (game ss') = buttons
         ∧ watching ss' = false
         ∧ dpadOnMap ss' = true
         ∧ currentCell (buttonMovement (game ss')) = playerCell (game ss)
         ∧ playerCell (game ss') = playerCell (game ss)
         ∧ inventory (game ss') = inventory (game ss)
         ∧ localStorage (game ss') = localStorage (game ss)
         ∧ lastMemento (game ss') = Some (serializeState cfg (game ss'))
         ∧ saveTimer (game ss') = true.
Proof.
  intros Hgeo. unfold useMovement. rewrite Hgeo.
  set (ss1 := GeolocationMovementController_stop _).
  assert (watching ss1 = false ∧ game ss1 = setCell (playerCell (game ss)) (game ss))
    as [Hw1 Hg1].
  { unfold ss1, GeolocationMovementController_stop. cbn [watching with_game].
    destruct (watching ss) eqn:Hw; cbn; by rewrite ?Hw. }
  cbn [game activeMovement watching dpadOnMap].
  match goal with |- context [ButtonMovementController_start luck cfg viewport ?x] =>
    destruct (ButtonMovementController_start_spec viewport x)
      as (s' & -> & Hp & Hb & Hi & Hm & Hls) end.
  cbn [mbind option_bind]. eexists. split; [reflexivity |].
  cbn [with_game game activeMovement watching dpadOnMap].
  rewrite playerCell_saveMemento, buttonMovement_saveMemento, inventory_saveMemento,
    currentMovementMode_saveMemento, localStorage_saveMemento, lastMemento_saveMemento,
    saveTimer_saveMemento.
  rewrite Hp, Hb, Hi, Hm, Hls, Hg1.
  cbn [set_currentMovementMode setCell set_buttonMovement buttonMovement currentCell
       inPosition playerCell inventory currentMovementMode localStorage row col].
  assert ({| row := row (playerCell (game ss)); col := col (playerCell (game ss)) |}
          = playerCell (game ss)) as -> by (by destruct (playerCell (game ss))).
  repeat (split; [done |]).
  split; [by destruct (inPosition (buttonMovement (game ss))) |].
  repeat (split; [done |]).
  split; [| done].
  f_equal. unfold serializeState.
  by rewrite tokenStore_saveMemento, inventory_saveMemento, playerCell_saveMemento,
    currentMovementMode_saveMemento.
Qed.

Lemma useMovement_to_geo viewport geolocation ss :
  activeMovement ss = buttons →
  ∃ ss', useMovement luck cfg viewport geolocation geo ss = Some ss'
         ∧ activeMovement ss' = geo
         ∧ currentMovementMode (game ss') = geo
         ∧ watching ss' = (if geolocation then true else watching ss)
         ∧ dpadOnMap ss' = false
         ∧ playerCell (game ss')
           = (if geolocation then playerCell (game ss)
              else latLngToCell (lat CLASSROOM) (lng CLASSROOM))
         ∧ buttonMovement (game ss') = buttonMovement (game ss)
         ∧ inventory (game ss') = inventory (game ss)
         ∧ localStorage (game ss') = localStorage (game ss)
         ∧ lastMemento (game ss') = Some (serializeState cfg (game ss'))
         ∧ saveTimer (game ss') = true.
Proof.
  intros Hb. unfold useMovement. rewrite Hb.
  cbn [game activeMovement watching dpadOnMap].
  match goal with |- context [GeolocationMovementController_start luck cfg viewport _ ?x] =>
    destruct (GeolocationMovementController_start_spec viewport geolocation x)
      as (ss' & -> & Ha & Hd & Hw & Hp & Hbm & Hi & Hm & Hls) end.
  cbn [mbind option_bind]. eexists. split; [reflexivity |].
  cbn [with_game game activeMovement watching dpadOnMap] in *.
  rewrite playerCell_saveMemento, buttonMovement_saveMemento, inventory_saveMemento,
    currentMovementMode_saveMemento, localStorage_saveMemento, lastMemento_saveMemento,
    saveTimer_saveMemento.
  rewrite Ha, Hd, Hw, Hp, Hbm, Hi, Hm, Hls.
  repeat (split; [done |]). split; [| done].
  f_equal. unfold serializeState.
  by rewrite tokenStore_saveMemento, inventory_saveMemento, playerCell_saveMemento,
    currentMovementMode_saveMemento.
Qed.
End ControllerFacts.

(** X20. Switching to the D-pad keeps the player where they are: from
    geolocation mode, [useMovement(buttonMovement)] returns normally, drops
    the position watch, puts the D-pad on the map, sets the mode to
    buttons, recentres the button controller on the player's cell and
    leaves the player on that cell; the hand and the storage item stay, the
    in-memory memento records the new state and a save is pending. *)
Theorem switch_to_buttons_keeps_player (luck : string → Q) (cfg : Config)
    (viewport : LatLngBounds) (geolocation : bool) (ss : Session) :
  activeMovement ss = geo →
  ∃ ss', useMovement luck cfg viewport geolocation buttons ss = Some ss'
         ∧ activeMovement ss' = buttons
         ∧ currentMovementMode (game ss') = buttons
         ∧ watching ss' = false
         ∧ dpadOnMap ss' = true
         ∧ currentCell (buttonMovement (game ss')) = playerCell (game ss)
         ∧ playerCell (game ss') = playerCell (game ss)
         ∧ inventory (game ss') = inventory (game ss)
         ∧ localStorage (game ss') = localStorage (game ss)
         ∧ lastMemento (game ss') = Some (serializeState cfg (game ss'))
         ∧ saveTimer (game ss') = true.
Proof. apply useMovement_to_buttons. Qed.

Lemma switch_to_buttons_keeps_player_witness :
  ∃ ss', useMovement luckZero sourceConfig wideViewport true buttons geoSession = Some ss'
         ∧ activeMovement ss' = buttons
         ∧ currentMovementMode (game ss') = buttons
         ∧ watching ss' = false
         ∧ dpadOnMap ss' = true
         ∧ currentCell (buttonMovement (game ss')) = playerCell (game geoSession)
         ∧ playerCell (game ss') = playerCell (game geoSession)
         ∧ inventory (game ss') = inventory (game geoSession)
         ∧ localStorage (game ss') = localStorage (game geoSession)
         ∧ lastMemento (game ss') = Some (serializeState sourceConfig (game ss'))
         ∧ saveTimer (game ss') = true.
Proof.
  apply (switch_to_buttons_keeps_player luckZero sourceConfig wideViewport true geoSession).
  reflexivity.
Defined.

(** X21. The mode toggle always works and leaves a coherent session: a
    click on it returns normally and swaps the controller in use; after it
    the mode variable names that controller, the D-pad is on the map
    exactly in button mode, no position watch is held in button mode, and
    the hand and the storage item are as before.  Switching to geolocation
    starts a watch when the browser has the service; without it the player
    is put on the classroom cell. *)
Theorem mode_toggle_is_coherent (luck : string → Q) (cfg : Config)
    (viewport : LatLngBounds) (geolocation : bool) (ss : Session) :
  ∃ ss', modeToggleClicked luck cfg viewport geolocation ss = Some ss'
         ∧ activeMovement ss'
           = match activeMovement ss with buttons => geo | geo => buttons end
         ∧ coherent ss'
         ∧ inventory (game ss') = inventory (game ss)
         ∧ localStorage (game ss') = localStorage (game ss)
         ∧ match activeMovement ss' with
           | geo => watching ss' = (if geolocation then true else watching ss)
                    ∧ playerCell (game ss')
                      = (if geolocation then playerCell (game ss)
                         else latLngToCell (lat CLASSROOM) (lng CLASSROOM))
           | buttons => playerCell (game ss') = playerCell (game ss)
           end.
Proof.
  unfold modeToggleClicked, coherent. destruct (activeMovement ss) eqn:Hactive.
  - destruct (useMovement_to_geo luck cfg viewport geolocation ss Hactive)
      as (ss' & -> & Ha & Hm & Hw & Hd & Hp & _ & Hi & Hls & _).
    exists ss'. rewrite Ha, Hm, Hd. repeat (split; [done |]). done.
  - destruct (useMovement_to_buttons luck cfg viewport geolocation ss Hactive)
      as (ss' & -> & Ha & Hm & Hw & Hd & _ & Hp & Hi & Hls & _).
    exists ss'. rewrite Ha, Hm, Hd. repeat (split; [done |]). done.
Qed.

(** ** [src/src/main.ts]: what is written is read back *)

Lemma mainTs_mapM_overrides (l : list (string * Z)) :
  mapM mainTs_overrideOfJson ((λ e : string * Z, JArr [JStr e.1; JNum e.2]) <$> l) = Some l.
Proof.
  induction l as [| [kk val] l IH]; [done |].
  cbn [fmap list_fmap]. cbn [mapM]. rewrite IH. reflexivity.
Qed.

Lemma mainTs_foldl_insert (m : gmap string Z) :
  foldl (λ acc (e : string * Z), <[e.1 := e.2]> acc) ∅ (map_to_list m) = m.
Proof.
  assert (∀ (l : list (string * Z)) (m0 : gmap string Z) k,
            NoDup (l.*1) →
            foldl (λ acc (e : string * Z), <[e.1 := e.2]> acc) m0 l !! k
            = match (list_to_map l : gmap string Z) !! k with
              | Some x => Some x
              | None => m0 !! k
              end) as Hlookup.
  { intros l. induction l as [| [k0 x0] l IH]; intros m0 k Hnd; [done |].
    cbn [fmap list_fmap fst] in Hnd. apply NoDup_cons in Hnd as [Hk0 Hnd].
    cbn [foldl fst snd]. rewrite IH by done. cbn [list_to_map foldr fst snd].
    destruct (decide (k = k0)) as [-> | Hne].
    - rewrite (not_elem_of_list_to_map_1 _ _ Hk0). by rewrite !lookup_insert_eq.
    - by rewrite !lookup_insert_ne. }
  apply map_eq. intros k.
  rewrite Hlookup by apply NoDup_fst_map_to_list.
  rewrite list_to_map_to_list, lookup_empty. by destruct (m !! k).
Qed.

Lemma mainTs_reload_saved (s : MainTs.State) :
  ∃ s', mainTs_reload (MainTs.saveMemento s) = Some s'
        ∧ MainTs.overrides s' = MainTs.overrides s
        ∧ MainTs.inventory s' = MainTs.inventory s.
Proof.
  unfold mainTs_reload, mainTs_loadMemento, MainTs.saveMemento.
  cbn [MainTs.localStorage MainTs.calls].
  cbn [jfield lastMember String.eqb Ascii.eqb Bool.eqb].
  rewrite mainTs_mapM_overrides. cbn [mbind option_bind].
  destruct (MainTs.inventory s) as [[h] |]; cbn [value].
  - eexists. split; [reflexivity |].
    cbn [MainTs.overrides MainTs.inventory]. by rewrite mainTs_foldl_insert.
  - eexists. split; [reflexivity |].
    cbn [MainTs.overrides MainTs.inventory]. by rewrite mainTs_foldl_insert.
Qed.

(** A click of the first revision that does anything ends with a save of
    the state it leaves. *)
Lemma mainTs_click_saved (luck : string → Q) (r c : Z) (s : MainTs.State) :
  let s' := MainTs.handleCellClick luck r c s in
  s' = s
  ∨ ∃ x, MainTs.localStorage s' = MainTs.localStorage (MainTs.saveMemento x)
         ∧ MainTs.overrides s' = MainTs.overrides x
         ∧ MainTs.inventory s' = MainTs.inventory x.
Proof.
  cbn zeta. unfold MainTs.handleCellClick.
  destruct (MainTs.inRange r c); cbn [negb]; [| by left].
  destruct (MainTs.inventory s) as [[held] |]; cbn [value].
  - destruct (_ && _); [| by left]. right.
    destruct (MainTs.TARGET <=? held * 2); eexists; split; reflexivity || done.
  - destruct (0 <? _); [| by left]. right. eexists; split; reflexivity || done.
Qed.


